(** * Deferred localisation of report strings (lighthouse-core/lib/i18n.js)

    A shallow embedding of the i18n module: the recorder returned by
    [createStringFormatter], the value preprocessor, the formatter
    [formatTemplate] and the tree resolver [replaceLocaleStringReferences],
    over an explicit store of JavaScript objects.

    Conventions of the embedding.
    - A JavaScript string is a [string]; each character is one code unit in
      the range 0..255, so the line terminators a string can hold here are
      line feed and carriage return.
    - A JavaScript number is NaN, an infinity or a finite number ([num]); a
      finite number is the rational that it is, and the arithmetic on
      finite numbers is exact.  The code agrees with it where its own
      arithmetic is exact: [Math.round(x / 10) * 10] for a double of
      magnitude at most [2^53], [x / 1024] for a double that is zero or
      of magnitude at least [2^-1012].  Outside these ranges the result
      of the code is the exact one rounded to a double, which the model
      does not give, and the statements that depend on the value of such
      a result carry the range as a hypothesis.
    - Objects and arrays live in a store ([heap]) and are referred to by
      location, so that two references to one object see each other's
      writes.  An object is the list of its own enumerable properties in
      the order [Object.entries] yields them.  Of what an object inherits
      the model has the names of [Object.prototype], for the [in]
      operator, and the setter of [__proto__]; an inherited property that
      is read counts as [undefined] (the preprocessor, which alone can read
      one, makes a number of it, and that number is NaN either way).
    - An array is an object flagged as one whose elements are its index
      properties, without holes; [length] is not among its properties, so
      values that are an array, with a placeholder named [length], are
      outside the model.
    - A function that writes to the store or to the registry is a
      computation ([comp]): it returns a value or throws, and the state
      that it leaves is known in both cases.
    - The ICU message parser and formatter, the locale catalogs and the path
      utilities are collaborators outside the module: they are the fields
      of the class [Collaborators]. *)

From Stdlib Require Import Ascii String QArith Qcanon Qround Lqa.
From Stdlib Require Import DecimalString DecimalNat DecimalFacts.
From stdpp Require Import base option list strings gmap.

Set Default Proof Using "Type".

(** ** Characters and strings *)

Module JsString.

Definition is_digit (c : ascii) : bool :=
  let n := nat_of_ascii c in (48 <=? n)%nat && (n <=? 57)%nat.

(** LineTerminator code units: LF and CR (U+2028 and U+2029 are not
    representable in one byte). *)
Definition is_line_terminator (c : ascii) : bool :=
  let n := nat_of_ascii c in (n =? 10)%nat || (n =? 13)%nat.

Fixpoint forallb (p : ascii → bool) (s : string) : bool :=
  match s with
  | EmptyString => true
  | String c s' => p c && forallb p s'
  end.

Definition no_line_terminator (s : string) : bool :=
  forallb (λ c, negb (is_line_terminator c)) s.

Definition digits (s : string) : bool := forallb is_digit s.

(** The string is truthy: not the empty string. *)
Definition truthy (s : string) : bool :=
  match s with EmptyString => false | _ => true end.

(** [ToString] of a non-negative integer: its decimal digits. *)
Definition of_nat (n : nat) : string := NilZero.string_of_uint (Nat.to_uint n).

(** A property key [p] is an array index when [ToString(ToUint32(p))] is [p]
    again: canonical decimal digits (the 2^32 bound is not modelled). *)
Definition array_index (p : string) : option nat :=
  match NilZero.uint_of_string p with
  | Some d =>
      let n := Nat.of_uint d in
      if String.eqb (of_nat n) p then Some n else None
  | None => None
  end.

End JsString.

(** ** Regular expressions

    The two patterns of the resolver are kept as regular expressions and run
    by a matcher built on derivatives, instead of being replaced by string
    functions written for the occasion. *)

Module Regex.

Inductive regex : Type :=
  | Void : regex
  | Eps : regex
  | Class (p : ascii → bool) : regex
  | Cat (r1 r2 : regex) : regex
  | Alt (r1 r2 : regex) : regex
  | Star (r : regex) : regex.

Fixpoint nullable (r : regex) : bool :=
  match r with
  | Void => false
  | Eps => true
  | Class _ => false
  | Cat r1 r2 => nullable r1 && nullable r2
  | Alt r1 r2 => nullable r1 || nullable r2
  | Star _ => true
  end.

Fixpoint deriv (c : ascii) (r : regex) : regex :=
  match r with
  | Void => Void
  | Eps => Void
  | Class p => if p c then Eps else Void
  | Cat r1 r2 =>
      if nullable r1 then Alt (Cat (deriv c r1) r2) (deriv c r2)
      else Cat (deriv c r1) r2
  | Alt r1 r2 => Alt (deriv c r1) (deriv c r2)
  | Star r1 => Cat (deriv c r1) (Star r1)
  end.

(** The whole of [s] is a word of [r]. *)
Fixpoint matches (r : regex) (s : string) : bool :=
  match s with
  | EmptyString => nullable r
  | String c s' => matches (deriv c r) s'
  end.

(** The words of a regular expression. *)
Inductive lang : regex → string → Prop :=
  | lang_eps : lang Eps ""
  | lang_class p c : p c = true → lang (Class p) (String c "")
  | lang_cat r1 r2 s1 s2 : lang r1 s1 → lang r2 s2 → lang (Cat r1 r2) (s1 +:+ s2)
  | lang_alt_l r1 r2 s : lang r1 s → lang (Alt r1 r2) s
  | lang_alt_r r1 r2 s : lang r2 s → lang (Alt r1 r2) s
  | lang_star_nil r : lang (Star r) ""
  | lang_star_cons r c s1 s2 :
      lang r (String c s1) → lang (Star r) s2 → lang (Star r) (String c s1 +:+ s2).

(** A literal string, one or more repetitions, any code unit, [.] and [\d]. *)
Fixpoint Lit (s : string) : regex :=
  match s with
  | EmptyString => Eps
  | String c s' => Cat (Class (Ascii.eqb c)) (Lit s')
  end.

Definition Plus (r : regex) : regex := Cat r (Star r).
Definition Any : regex := Class (λ _, true).
Definition Dot : regex := Class (λ c, negb (JsString.is_line_terminator c)).
Definition Digit : regex := Class JsString.is_digit.

(** A pattern that ends in [$] and has no [^]: [test] succeeds when some
    suffix of the input is a word of the pattern. *)
Definition test (r : regex) (s : string) : bool := matches (Cat (Star Any) r) s.

(** The leftmost position from which the rest of the input is a word of [r]. *)
Fixpoint leftmost (r : regex) (s : string) : option string :=
  if matches r s then Some s
  else match s with
       | EmptyString => None
       | String _ s' => leftmost r s'
       end.

(** Greedy split of [s] into a word of [r1] followed by a word of [r2]: the
    longest first part is tried first, as backtracking does for a greedy
    quantifier. *)
Fixpoint greedy_split (r1 r2 : regex) (s : string) : option (string * string) :=
  match s with
  | EmptyString => if nullable r1 && nullable r2 then Some ("", "") else None
  | String c s' =>
      match greedy_split (deriv c r1) r2 s' with
      | Some (p, q) => Some (String c p, q)
      | None => if nullable r1 && matches r2 s then Some ("", s) else None
      end
  end.

End Regex.

(** ** The two patterns of the resolver *)

Module TokenPattern.
Import Regex.

(** [/.*!#.*#\d+$/] *)
Definition shape : regex :=
  Cat (Star Dot) (Cat (Lit "!#") (Cat (Star Dot) (Cat (Lit "#") (Plus Digit)))).

Definition is_token (s : string) : bool := test shape s.

(** The pattern of [value.match]: group 1 is a greedy run of [.], then
    [#], group 2 is [\d+], then [$]. *)
Definition tail : regex := Cat (Lit "#") (Plus Digit).

Definition match_groups (s : string) : option (string * string) :=
  match leftmost (Cat (Star Dot) tail) s with
  | Some s' =>
      match greedy_split (Star Dot) tail s' with
      | Some (g1, String _ g2) => Some (g1, g2)
      | _ => None
      end
  | None => None
  end.

End TokenPattern.

(** ** JavaScript values, the store and exceptions *)

(** Numbers: NaN, a finite number as the rational that it is, or an
    infinity with its sign. *)
Inductive num : Type :=
  | NaN : num
  | Fin (q : Qc) : num
  | Inf (negative : bool) : num.

Abbreviation loc := nat.

Inductive val : Type :=
  | Undefined : val
  | Null : val
  | Bool (b : bool) : val
  | Num (n : num) : val
  | Str (s : string) : val
  | Ref (l : loc) : val.

(** An object or array: its own enumerable properties in enumeration order. *)
Record object : Type := Object {
  is_array : bool;
  props : list (string * val)
}.

Abbreviation heap := (list object).

Inductive exn : Type :=
  | TypeError : exn
  | RangeError : exn
  | SyntaxError : exn
  | Error (message : string) : exn.

Inductive result (A : Type) : Type :=
  | Ok (a : A) : result A
  | Throw (e : exn) : result A.

Arguments Ok {A} a.
Arguments Throw {A} e.

(** A computation on a state [S]: it returns a value or throws, and leaves
    a state in both cases, as a JavaScript function leaves the objects it
    has written to when it throws. *)
Definition comp (S A : Type) : Type := S → result A * S.

Global Instance comp_ret {S : Type} : MRet (comp S) := λ A a s, (Ok a, s).

Global Instance comp_bind {S : Type} : MBind (comp S) := λ A B k m s,
  match m s with
  | (Ok a, s') => k a s'
  | (Throw e, s') => (Throw e, s')
  end.

Definition throw {S A : Type} (e : exn) : comp S A := λ s, (Throw e, s).

Definition modify {S : Type} (f : S → S) : comp S unit := λ s, (Ok tt, f s).

(** A [for] loop over a list; the body may throw, and [a] is what one
    iteration hands to the next. *)
Fixpoint for_each {S X A : Type} (body : X → A → comp S A) (l : list X) (a : A) : comp S A :=
  match l with
  | [] => mret a
  | x :: l' => a' ← body x a; for_each body l' a'
  end.

Module Value.

(** [ToBoolean] *)
Definition truthy (v : val) : bool :=
  match v with
  | Undefined | Null => false
  | Bool b => b
  | Num NaN => false
  | Num (Fin q) => negb (Qc_eq_bool q 0%Qc)
  | Num (Inf _) => true
  | Str s => JsString.truthy s
  | Ref _ => true
  end.

End Value.

(** *** Arithmetic used by the preprocessor *)

Module Number.

Definition of_Z (z : Z) : Qc := Q2Qc (inject_Z z).

(** [n / d] and [n * d]; the second operand of the quotients and of the
    product of the preprocessor is a positive whole constant, 10 or 1024. *)
Definition div (n : num) (d : positive) : num :=
  match n with
  | NaN => NaN
  | Fin q => Fin (q / of_Z (Z.pos d))%Qc
  | Inf s => Inf s
  end.

Definition mul (n : num) (d : positive) : num :=
  match n with
  | NaN => NaN
  | Fin q => Fin (q * of_Z (Z.pos d))%Qc
  | Inf s => Inf s
  end.

(** [Math.round]: the nearest integer, ties towards plus infinity. *)
Definition round (n : num) : num :=
  match n with
  | NaN => NaN
  | Fin q => Fin (of_Z (Qfloor (q + Q2Qc (1 # 2))%Qc))
  | Inf s => Inf s
  end.

End Number.

(** *** Own properties *)

Module Props.
Section Props.
Context {A : Type}.
Implicit Types (k : string) (ps : list (string * A)).

Fixpoint get k ps : option A :=
  match ps with
  | [] => None
  | (k', v) :: ps' => if String.eqb k k' then Some v else get k ps'
  end.

(** [o.hasOwnProperty(k)] *)
Definition has k ps : bool :=
  match get k ps with Some _ => true | None => false end.

Fixpoint replace k (v : A) ps : list (string * A) :=
  match ps with
  | [] => []
  | (k', v') :: ps' =>
      if String.eqb k k' then (k', v) :: ps' else (k', v') :: replace k v ps'
  end.

(** A new array-index key goes among the index keys, in ascending order. *)
Fixpoint insert_index (n : nat) k (v : A) ps : list (string * A) :=
  match ps with
  | [] => [(k, v)]
  | (k', v') :: ps' =>
      match JsString.array_index k' with
      | Some n' => if (n <? n')%nat then (k, v) :: ps else (k', v') :: insert_index n k v ps'
      | None => (k, v) :: ps
      end
  end.

(** [o[k] = v] on the own properties: an existing key keeps its place, a new
    index key is ordered among the index keys, any other new key comes last. *)
Definition set k (v : A) ps : list (string * A) :=
  if has k ps then replace k v ps
  else match JsString.array_index k with
       | Some n => insert_index n k v ps
       | None => ps ++ [(k, v)]
       end.

(** An assignment [o[k] = v] runs the setter of [Object.prototype] rather
    than write an own property: [k] is [__proto__] and [o] has no own
    property of that name. *)
Definition proto_setter k ps : bool := String.eqb k "__proto__" && negb (has k ps).

(** [Object.keys(o)] *)
Definition keys ps : list string := ps.*1.

(** [{...o1, ...o2}] continued from [acc]: each property is defined in turn. *)
Definition spread ps (acc : list (string * A)) : list (string * A) :=
  foldl (λ acc '(k, v), set k v acc) acc ps.

End Props.
End Props.

(** *** The store *)

Module Heap.

Definition alloc (o : object) : comp heap loc := λ h, (Ok (length h), h ++ [o]).

(** [Object.entries(o)] for the object at [l]: a snapshot. *)
Definition entries (h : heap) (l : loc) : list (string * val) :=
  match h !! l with
  | Some o => props o
  | None => []
  end.

(** [o[k]] for the object at [l]. *)
Definition get (h : heap) (l : loc) (k : string) : val :=
  default Undefined (Props.get k (entries h l)).

(** [o[k] = v] for the object at [l]. *)
Definition set (l : loc) (k : string) (v : val) (h : heap) : heap :=
  match h !! l with
  | Some o => <[l := Object (is_array o) (Props.set k v (props o))]> h
  | None => h
  end.

(** [o[k] = v] in strict mode, for any [o]: a primitive receiver throws, and
    the setter of [__proto__] makes no own property (what it does for a [v]
    that is an object or [null], to set the prototype, is not modelled). *)
Definition assign (o : val) (k : string) (v : val) : comp heap unit :=
  match o with
  | Ref l => λ h, (Ok tt, if Props.proto_setter k (entries h l) then h else set l k v h)
  | _ => throw TypeError
  end.

(** [o[k]] for any [o] that is not [undefined] or [null]; own properties of
    primitives are not modelled.  On [null] the read throws a TypeError;
    where the preprocessor reads it assigns to the same object next, and
    that assignment throws the TypeError here. *)
Definition read (h : heap) (o : val) (k : string) : val :=
  match o with
  | Ref l => get h l k
  | _ => Undefined
  end.

End Heap.

(** ** [JSON.parse(JSON.stringify(v))]

    The copy is built in fresh locations.  In an object a property whose
    value is [undefined] is left out; in an array only the index properties
    are kept and [undefined] becomes [null]; NaN and the infinities become
    [null].  A
    reference back to an object being serialised throws a TypeError, and
    nesting deeper than [fuel] calls throws a RangeError. *)

Module Json.

Definition clone_props (rec : val → comp heap val) (array : bool)
    (ps : list (string * val)) : comp heap (list (string * val)) :=
  for_each (λ '(k, v) acc,
      if array then
        match JsString.array_index k with
        | Some _ =>
            v' ← rec (match v with Undefined => Null | _ => v end);
            mret (acc ++ [(k, v')])
        | None => mret acc
        end
      else
        match v with
        | Undefined => mret acc
        | _ => v' ← rec v; mret (acc ++ [(k, v')])
        end)
    ps [].

Fixpoint clone (fuel : nat) (stack : list loc) (v : val) : comp heap val :=
  match v with
  | Ref l =>
      if bool_decide (l ∈ stack) then throw TypeError
      else match fuel with
           | O => throw RangeError
           | S fuel' => λ h,
               match h !! l with
               | Some o =>
                   (ps ← clone_props (clone fuel' (l :: stack)) (is_array o) (props o);
                    l' ← Heap.alloc (Object (is_array o) ps);
                    mret (Ref l')) h
               | None => (Throw TypeError, h)
               end
           end
  | Num NaN | Num (Inf _) => mret Null
  | _ => mret v
  end.

End Json.

(** ** The collaborators of the module *)

(** The elements [MessageParser.parse(msg).elements]: text, or an argument
    with its format, which may carry a style. *)
Module MessageParser.

Record format : Type := Format {
  type : string;
  style : option string
}.

Inductive element : Type :=
  | messageTextElement (value : string) : element
  | argumentElement (id : string) (format : option format) : element.

(** [el.format && el.format.style === s] *)
Definition has_style (s : string) (el : element) : bool :=
  match el with
  | argumentElement _ (Some f) => bool_decide (style f = Some s)
  | _ => false
  end.

(** [el.id] as a property key; a text element has no [id], and the key of
    [undefined] is the name [undefined]. *)
Definition id_of (el : element) : string :=
  match el with
  | argumentElement id _ => id
  | messageTextElement _ => "undefined"
  end.

End MessageParser.

(** One entry of a locale catalog: [{message: string}]. *)
Record localeMessage : Type := LocaleMessage { message : string }.

(** The [formats] argument of [MessageFormat]: per type, per style, options. *)
Abbreviation formats_t := (list (string * list (string * list (string * Z)))).

Class Collaborators : Type := {
  (** [path.relative(from, to)] *)
  path_relative : string → string → string;
  (** [LH_ROOT] and [__filename] *)
  LH_ROOT : string;
  module_filename : string;
  (** [MessageParser.parse(msg).elements]; [None] when the parser throws. *)
  MessageParser_parse : string → option (list MessageParser.element);
  (** [new MessageFormat(template, locale, formats).format(values)] *)
  MessageFormat_format : string → string → formats_t → heap → val → result string;
  (** [MessageFormat.defaultLocale] *)
  MessageFormat_defaultLocale : string;
  (** [require('./locales')] *)
  LOCALES : gmap string (gmap string localeMessage);
  (** [ToNumber] of a string and of an object. *)
  string_to_number : string → num;
  object_to_number : heap → loc → num;
  (** The depth of nested calls at which the engine throws a RangeError. *)
  stack_limit : nat
}.

(** ** The module *)

Definition nbsp : string := String (ascii_of_nat 160) "".

Definition UIStrings : list (string * string) :=
  [ ("ms", "{timeInMs, number, milliseconds}" +:+ nbsp +:+ "ms");
    ("columnURL", "URL");
    ("columnSize", "Size (KB)");
    ("columnWastedTime", "Potential Savings (ms)") ].

Definition formats : formats_t :=
  [ ("number", [ ("milliseconds", [ ("maximumFractionDigits", 0%Z) ]) ]) ].

(** [typedef StringUsage] *)
Record StringUsage : Type := Usage {
  key : string;
  template : string;
  values : val
}.

(** One occurrence and one record of the log of a resolution pass. *)
Record occurrence : Type := Occurrence {
  occ_values : val;
  occ_path : list string
}.

Record logRecord : Type := LogRecord {
  log_template : string;
  log_occurrences : list occurrence
}.

Abbreviation log_t := (list (string * logRecord)).

(** The state of the process: the store, the registry
    [formattedStringUsages] and the module variable [locale]. *)
Record state : Type := State {
  store : heap;
  formattedStringUsages : gmap string (list StringUsage);
  locale : string
}.

Section I18n.
Context `{Collaborators}.

(** [ToNumber] *)
Definition to_number (h : heap) (v : val) : num :=
  match v with
  | Undefined => NaN
  | Null => Fin 0%Qc
  | Bool b => Fin (if b then 1%Qc else 0%Qc)
  | Num n => n
  | Str s => string_to_number s
  | Ref l => object_to_number h l
  end.

(** The body of the two [forEach] loops of the preprocessor:
    [clonedValues[el.id] = f(clonedValues[el.id])]. *)
Definition update_value (f : num → num) (clonedValues : val)
    (el : MessageParser.element) : comp heap unit :=
  let id := MessageParser.id_of el in
  λ h, Heap.assign clonedValues id (Num (f (to_number h (Heap.read h clonedValues id)))) h.

(** Lines 56 and 58, in exact arithmetic. *)
Definition round_to_10 (n : num) : num :=
  Number.mul (Number.round (Number.div n 10)) 10.

Definition bytes_to_KB (n : num) : num := Number.div n 1024.

Definition preprocessMessageValues (msg : string) (values : val) : comp heap val :=
  if negb (Value.truthy values) then mret Undefined
  else
    clonedValues ← Json.clone stack_limit [] values;
    match MessageParser_parse msg with
    | None => throw SyntaxError
    | Some elements =>
        for_each (λ el _, update_value round_to_10 clonedValues el)
          (filter (λ el, MessageParser.has_style "milliseconds" el) elements) tt;;
        for_each (λ el _, update_value bytes_to_KB clonedValues el)
          (filter (λ el, MessageParser.has_style "bytes" el) elements) tt;;
        mret clonedValues
    end.

Definition templateForMessageFormat (locale key template : string) : string :=
  let localeTemplates := default ∅ (LOCALES !! locale) in
  let localeTemplate := message <$> (localeTemplates !! key) in
  match localeTemplate with
  | Some m => if JsString.truthy m then m else template
  | None => template
  end.

Definition localeForMessageFormat (locale : string) : string :=
  if String.eqb locale "en-XA" then "de-DE" else locale.

(** [new MessageFormat(template, locale, formats).format(values)]; the
    formatter reads the values and writes nothing. *)
Definition format_message (template locale : string) (values : val) : comp heap string :=
  λ h, (MessageFormat_format template locale formats h values, h).

(** Returns [{message, template}]; the store grows by the copy of the
    values. *)
Definition formatTemplate (locale key template : string) (values : val)
  : comp heap (string * string) :=
  valuesForMessageFormat ← preprocessMessageValues template values;
  message ← format_message (templateForMessageFormat locale key template)
              (localeForMessageFormat locale) valuesForMessageFormat;
  mret (message, templateForMessageFormat locale key template).

(** *** The recorder *)

(** [createStringFormatter(filename, fileStrings)] returns [formatFn]; here
    [formatFn] takes the two arguments of its creation as well. *)
Definition mergedStrings (fileStrings : list (string * string)) : list (string * string) :=
  Props.spread fileStrings (Props.spread UIStrings []).

(** [Object.keys(mergedStrings).find(key => mergedStrings[key] === template)] *)
Definition locate (fileStrings : list (string * string)) (template : string) : option string :=
  let merged := mergedStrings fileStrings in
  List.find (λ key, bool_decide (Props.get key merged = Some template)) (Props.keys merged).

(** The names that every object inherits from [Object.prototype]. *)
Definition object_prototype_keys : list string :=
  [ "constructor"; "__defineGetter__"; "__defineSetter__"; "hasOwnProperty";
    "__lookupGetter__"; "__lookupSetter__"; "isPrototypeOf"; "propertyIsEnumerable";
    "toString"; "valueOf"; "__proto__"; "toLocaleString" ].

(** [keyname in UIStrings] *)
Definition in_UIStrings (keyname : string) : bool :=
  Props.has keyname UIStrings || bool_decide (keyname ∈ object_prototype_keys).

(** The [key] of a usage: the path of the file that owns the key name,
    [!#] and the key name. *)
Definition fileScopedKey (filename keyname : string) : string :=
  let filenameToLookup := if in_UIStrings keyname then module_filename else filename in
  path_relative LH_ROOT filenameToLookup +:+ "!#" +:+ keyname.

(** [keyUsages.push(usage); formattedStringUsages.set(key, keyUsages)];
    returns [keyUsages.length]. *)
Definition push_usage (key : string) (usage : StringUsage) : comp state nat := λ st,
  let keyUsages := default [] (formattedStringUsages st !! key) ++ [usage] in
  (Ok (length keyUsages),
   State (store st) (<[key := keyUsages]> (formattedStringUsages st)) (locale st)).

Definition formatFn (filename : string) (fileStrings : list (string * string))
    (template : string) (values : val) : comp state string :=
  match locate fileStrings template with
  | Some keyname =>
      if negb (JsString.truthy keyname) then throw (Error ("Could not locate: " +:+ template))
      else
        let key := fileScopedKey filename keyname in
        length ← push_usage key (Usage key template values);
        mret (key +:+ "#" +:+ JsString.of_nat (length - 1))
  | None => throw (Error ("Could not locate: " +:+ template))
  end.

(** [format(template, v)] for each [v] of [vs] in turn; the tokens are
    returned in call order. *)
Fixpoint mint (filename : string) (fileStrings : list (string * string))
    (template : string) (vs : list val) : comp state (list string) :=
  match vs with
  | [] => mret []
  | v :: vs' =>
      token ← formatFn filename fileStrings template v;
      tokens ← mint filename fileStrings template vs';
      mret (token :: tokens)
  end.

(** [setLocale(newLocale)]; [None] is an absent or [null] argument. *)
Definition setLocale (newLocale : option string) (st : state) : state :=
  match newLocale with
  | Some l => if negb (JsString.truthy l) then st else State (store st) (formattedStringUsages st) l
  | None => st
  end.

(** *** The resolver *)

(** [usages[usageIndex]] with a string index. *)
Definition usage_at (usages : list StringUsage) (usageIndex : string) : option StringUsage :=
  match JsString.array_index usageIndex with
  | Some n => usages !! n
  | None => None
  end.

(** The first branch of the loop body of [replaceInObject], for a string
    [value] that passed the pattern: [obj] is the object at [l], and the
    log is handed on as a value. *)
Definition resolveToken (locale : string) (usages : gmap string (list StringUsage))
    (l : loc) (key value : string) (currentPath : list string) (log : log_t)
  : comp heap log_t :=
  match TokenPattern.match_groups value with
  | Some (templateKey, usageIndex) =>
      let templateLogRecord := Props.get templateKey log in
      let usages := default [] (usages !! templateKey) in
      match usage_at usages usageIndex with
      | Some usage =>
          let occurrences := default [] (log_occurrences <$> templateLogRecord) in
          let occurrences := occurrences ++ [Occurrence (values usage) currentPath] in
          '(message, template) ←
            formatTemplate locale templateKey (template usage) (values usage);
          modify (Heap.set l key (Str message));;
          mret (Props.set templateKey (LogRecord template occurrences) log)
      | None => throw TypeError
      end
  | None => throw TypeError
  end.

(** The body of the loop of [replaceInObject] over the entries of the object
    at [l]; [rec] is the recursive call. *)
Definition replaceEntry (rec : val → list string → log_t → comp heap log_t)
    (locale : string) (usages : gmap string (list StringUsage)) (l : loc)
    (path : list string) (entry : string * val) (log : log_t) : comp heap log_t :=
  let '(key, value) := entry in
  let currentPath := path ++ [key] in
  match value with
  | Str str =>
      if TokenPattern.is_token str
      then resolveToken locale usages l key str currentPath log
      else rec value currentPath log
  | _ => rec value currentPath log
  end.

(** [replaceInObject(obj, log, path)]; every call takes one unit of [fuel],
    the depth of the call stack that is left.  The entries are those of the
    object when the loop starts. *)
Fixpoint replaceInObject (fuel : nat) (locale : string)
    (usages : gmap string (list StringUsage)) (obj : val) (path : list string)
    (log : log_t) : comp heap log_t :=
  match fuel with
  | O => throw RangeError
  | S fuel' =>
      match obj with
      | Ref l => λ h,
          for_each (replaceEntry (replaceInObject fuel' locale usages) locale usages l path)
            (Heap.entries h l) log h
      | _ => mret log
      end
  end.

(** The log as objects of the store. *)
Definition alloc_array (vs : list val) : comp heap loc :=
  Heap.alloc (Object true (imap (λ i v, (JsString.of_nat i, v)) vs)).

Definition alloc_each {A : Type} (alloc : A → comp heap loc) (xs : list A)
  : comp heap (list loc) :=
  for_each (λ x ls, l ← alloc x; mret (ls ++ [l])) xs [].

Definition alloc_occurrence (o : occurrence) : comp heap loc :=
  lp ← alloc_array (Str <$> occ_path o);
  Heap.alloc (Object false [("values", occ_values o); ("path", Ref lp)]).

Definition alloc_record (r : logRecord) : comp heap loc :=
  ls ← alloc_each alloc_occurrence (log_occurrences r);
  lo ← alloc_array (Ref <$> ls);
  Heap.alloc (Object false [("template", Str (log_template r)); ("occurrences", Ref lo)]).

Definition alloc_log (log : log_t) : comp heap loc :=
  ls ← alloc_each alloc_record log.*2;
  Heap.alloc (Object false (zip log.*1 (Ref <$> ls))).

(** A computation on the store, run on the store of the process. *)
Definition on_store {A : Type} (m : comp heap A) : comp state A := λ st,
  let '(r, h) := m (store st) in (r, State h (formattedStringUsages st) (locale st)).

(** [replaceLocaleStringReferences(lhr, locale)]; the log is returned for
    the statements about it. *)
Definition replaceLocaleStringReferences (lhr : val) (locale' : string) : comp state log_t :=
  λ st,
    on_store (log ← replaceInObject stack_limit locale' (formattedStringUsages st) lhr [] [];
              llog ← alloc_log log;
              Heap.assign lhr "localeLog" (Ref llog);;
              mret log) st.

(** The state when the module has been loaded. *)
Definition initial (h : heap) : state := State h ∅ MessageFormat_defaultLocale.

End I18n.

(** ** Vocabulary of the statements *)

Module Spec.

(** The token shape in the words of the specification: a [!#] segment
    before a trailing [#] and digits. *)
Definition token_shape (s : string) : Prop :=
  ∃ a b d, s = a +:+ "!#" +:+ b +:+ "#" +:+ d ∧ d ≠ "" ∧ JsString.digits d = true.

(** The record that a token-shaped string refers to, if there is one. *)
Definition record_of (usages : gmap string (list StringUsage)) (s : string)
  : option StringUsage :=
  match TokenPattern.match_groups s with
  | Some (templateKey, usageIndex) => usage_at (default [] (usages !! templateKey)) usageIndex
  | None => None
  end.

(** A leaf that a pass rewrites: a string of the token pattern whose record
    exists. *)
Definition resolvable (usages : gmap string (list StringUsage)) (v : val) : Prop :=
  ∃ s, v = Str s ∧ TokenPattern.is_token s = true ∧ is_Some (record_of usages s).

(** A dangling reference: a string of the token pattern without a record. *)
Definition dangling (usages : gmap string (list StringUsage)) (v : val) : Prop :=
  ∃ s, v = Str s ∧ TokenPattern.is_token s = true ∧ record_of usages s = None.

(** How the objects of a store may differ after resolution: the same keys
    in the same order, and a value differs only where it was a resolvable
    leaf and is a string now. *)
Definition prop_evolves (usages : gmap string (list StringUsage))
    (p p' : string * val) : Prop :=
  p'.1 = p.1 ∧ (p'.2 = p.2 ∨ (resolvable usages p.2 ∧ ∃ m, p'.2 = Str m)).

Definition object_evolves (usages : gmap string (list StringUsage))
    (o o' : object) : Prop :=
  is_array o' = is_array o ∧ Forall2 (prop_evolves usages) (props o) (props o').

Definition heap_evolves (usages : gmap string (list StringUsage))
    (h h' : heap) : Prop :=
  ∀ l o, h !! l = Some o → ∃ o', h' !! l = Some o' ∧ object_evolves usages o o'.

(** The state with another value of the module variable [locale]. *)
Definition with_locale (l : string) (st : state) : state :=
  State (store st) (formattedStringUsages st) l.

(** The catalog entry of a locale for a key. *)
Definition localized `{Collaborators} (locale key : string) : option localeMessage :=
  LOCALES !! locale ≫= (.!! key).

(** An object none of whose properties holds a string of the token
    pattern. *)
Definition token_free (o : object) : Prop :=
  Forall (λ p : string * val, ∀ s, p.2 = Str s → TokenPattern.is_token s = false) (props o).

(** Every reference in the store is to an object of the store. *)
Definition closed (h : heap) : Prop :=
  ∀ l o k l', h !! l = Some o → (k, Ref l') ∈ props o → l' < length h.

(** Resolution passes one after the other, each with its root and locale. *)
Fixpoint passes `{Collaborators} (ps : list (val * string)) : comp state unit :=
  match ps with
  | [] => mret tt
  | (lhr, locale') :: ps' => replaceLocaleStringReferences lhr locale';; passes ps'
  end.

(** A report with one string at [audits.a.displayValue] and one at
    [audits.b.displayValue]; the root is at location 0. *)
Definition two_leaf_report (s1 s2 : string) : heap :=
  [ Object false [("audits", Ref 1)];
    Object false [("a", Ref 2); ("b", Ref 3)];
    Object false [("displayValue", Str s1)];
    Object false [("displayValue", Str s2)] ].

(** An object none of whose properties holds a reference. *)
Definition is_ref (v : val) : bool :=
  match v with Ref _ => true | _ => false end.

Definition flat (o : object) : Prop :=
  Forall (λ p : string * val, is_ref p.2 = false) (props o).

(** The properties of the JSON copy of a flat object or array. *)
Definition json_value (v : val) : val :=
  match v with
  | Num NaN | Num (Inf _) => Null
  | _ => v
  end.

Definition json_props (array : bool) (ps : list (string * val)) : list (string * val) :=
  omap (λ '(k, v),
      if array then
        match JsString.array_index k with
        | Some _ => Some (k, json_value (match v with Undefined => Null | _ => v end))
        | None => None
        end
      else
        match v with
        | Undefined => None
        | _ => Some (k, json_value v)
        end) ps.




(** The ids of the arguments of a style, in the order of the elements. *)
Definition styled_ids (style : string) (els : list MessageParser.element) : list string :=
  MessageParser.id_of <$> filter (λ el, MessageParser.has_style style el) els.

(** The two loops of the preprocessor on the properties of a flat copy. *)
Definition update_props `{Collaborators} (f : num → num) (ids : list string)
    (ps : list (string * val)) : list (string * val) :=
  foldl (λ ps id,
           if Props.proto_setter id ps then ps
           else Props.set id (Num (f (to_number [] (default Undefined (Props.get id ps))))) ps)
    ps ids.

Definition preprocessed_props `{Collaborators} (els : list MessageParser.element)
    (array : bool) (ps : list (string * val)) : list (string * val) :=
  update_props bytes_to_KB (styled_ids "bytes" els)
    (update_props round_to_10 (styled_ids "milliseconds" els) (json_props array ps)).

(** The log after one more occurrence of the key [tk], for the usage [u]
    at [path]. *)
Definition logged `{Collaborators} (locale tk : string) (u : StringUsage)
    (path : list string) (log : log_t) : log_t :=
  Props.set tk
    (LogRecord (templateForMessageFormat locale tk (template u))
       (default [] (log_occurrences <$> Props.get tk log) ++ [Occurrence (values u) path]))
    log.

(** What a copy returns: a primitive, or a reference to an object of the
    part by which the store has grown from [h0] to [h]. *)
Definition fresh_in (h0 h : heap) (v : val) : Prop :=
  match v with
  | Ref l => length h0 ≤ l < length h
  | _ => True
  end.

(** An allocation returns a location of the part by which the store grows. *)
Definition allocates (m : comp heap loc) : Prop :=
  ∀ h, ∃ l h', m h = (Ok l, h') ∧ h `prefix_of` h' ∧ length h ≤ l < length h'.

(** Objects have no two properties of one name. *)
Definition wf_keys (h : heap) : Prop :=
  Forall (λ o, NoDup (Props.keys (props o))) h.

Global Instance wf_keys_dec (h : heap) : Decision (wf_keys h).
Proof. unfold wf_keys. apply _. Defined.

(** The object at [l] is part of the tree under [v]. *)
Inductive reach (h : heap) : val → loc → Prop :=
  | reach_here l o : h !! l = Some o → reach h (Ref l) l
  | reach_child l o k v l' :
      h !! l = Some o → (k, v) ∈ props o → reach h v l' → reach h (Ref l) l'.

End Spec.

(** ** A concrete instance

    Collaborators for running the module on examples.  The parser and the
    formatter are the real ones on the templates they accept here: the core
    template [ms] is parsed into its argument and its text, and a template
    without braces is one text element and formats to itself. *)

Module Demo.

Fixpoint strip_prefix (p s : string) : string :=
  match p, s with
  | String a p', String b s' => if Ascii.eqb a b then strip_prefix p' s' else s
  | _, _ => s
  end.

Definition ms_template : string := "{timeInMs, number, milliseconds}" +:+ nbsp +:+ "ms".

Definition plain (s : string) : bool :=
  JsString.forallb (λ c, negb (Ascii.eqb c "{" || Ascii.eqb c "}")) s.

Definition parse (msg : string) : option (list MessageParser.element) :=
  if String.eqb msg ms_template then
    Some [ MessageParser.argumentElement "timeInMs"
             (Some (MessageParser.Format "numberFormat" (Some "milliseconds")));
           MessageParser.messageTextElement (nbsp +:+ "ms") ]
  else if plain msg then Some [ MessageParser.messageTextElement msg ]
  else None.

Definition format (template locale : string) (fs : formats_t) (h : heap) (v : val)
  : result string :=
  if plain template then Ok template else Throw (Error "unsupported template").

Definition locales : gmap string (gmap string localeMessage) :=
  {[ "en-XA" :=
       {[ "lighthouse-core/lib/i18n.js!#columnURL" := LocaleMessage "[URL one]" ]} ]}.

Definition collaborators : Collaborators := {|
  path_relative := strip_prefix;
  LH_ROOT := "/lh/";
  module_filename := "/lh/lighthouse-core/lib/i18n.js";
  MessageParser_parse := parse;
  MessageFormat_format := format;
  MessageFormat_defaultLocale := "en";
  LOCALES := locales;
  string_to_number := λ _, NaN;
  object_to_number := λ _ _, NaN;
  stack_limit := 64
|}.

(** The registry after [format("URL")] has been called once from [a.js]. *)
Definition url_key : string := "lighthouse-core/lib/i18n.js!#columnURL".
Definition url_token : string := url_key +:+ "#0".

Definition after_url (h : heap) : state :=
  State h {[ url_key := [Usage url_key "URL" Undefined] ]} "en".

(** A report with the token at two paths, a string that only resembles a
    token and a leaf that is not a string. *)
Definition report : heap :=
  [ Object false [("audits", Ref 1)];
    Object false [("a", Ref 2); ("b", Ref 3)];
    Object false [("displayValue", Str url_token)];
    Object false [("displayValue", Str url_token); ("score", Str "x#12"); ("n", Null)] ].

(** A caller whose catalog has an empty message text, and a report with the
    token of that message. *)
Definition empty_strings : list (string * string) := [("empty", "")].
Definition empty_key : string := "a.js!#empty".
Definition empty_report : heap := [ Object false [("title", Str (empty_key +:+ "#0"))] ].

(** The values of the example of the core template [ms]. *)
Definition ms_values : heap := [ Object false [("timeInMs", Num (Fin (Number.of_Z 1234)))] ].

(** A report that holds, under [details], the object that is also the
    values of the usage of [Hello]; the object holds a token. *)
Definition shared_strings : list (string * string) := [("title", "Hello")].
Definition shared_report : heap :=
  [ Object false [("title", Str "a.js!#title#0"); ("details", Ref 1)];
    Object false [("note", Str url_token)] ].

(** A caller whose catalog has a key name with a line feed in it. *)
Definition newline_strings : list (string * string) :=
  [("a" +:+ String (ascii_of_nat 10) "b", "Hello")].
Definition newline_token : string := "a.js!#a" +:+ String (ascii_of_nat 10) "b#0".
Definition newline_report : heap := [ Object false [("title", Str newline_token)] ].

(** One pass over the report in the accented pseudo-locale. *)
Definition pass : result log_t * state :=
  @replaceLocaleStringReferences collaborators (Ref 0) "en-XA" (after_url report).

Definition pass_log : log_t :=
  match pass.1 with Ok log => log | Throw _ => [] end.

(** One pass over a report with the token at two paths. *)
Definition two_leaf_pass : result log_t * state :=
  @replaceLocaleStringReferences collaborators (Ref 0) "fr"
    (after_url (Spec.two_leaf_report url_token url_token)).

End Demo.

(** ** Histories of calls

    What the module exports, as the calls that a process makes one after
    the other; between two calls the code of the caller may change the
    store in any way.  A call that throws leaves its state to the next. *)

Module History.

Inductive call : Type :=
  | Format (filename : string) (fileStrings : list (string * string))
      (template : string) (values : val) : call
  | SetLocale (newLocale : option string) : call
  | Replace (lhr : val) (locale' : string) : call
  | Client (h : heap) : call.

Section History.
Context `{Collaborators}.

Definition step (st : state) (c : call) : state :=
  match c with
  | Format filename fileStrings template values =>
      (formatFn filename fileStrings template values st).2
  | SetLocale newLocale => setLocale newLocale st
  | Replace lhr locale' => (replaceLocaleStringReferences lhr locale' st).2
  | Client h => State h (formattedStringUsages st) (locale st)
  end.

Definition run (cs : list call) (st : state) : state := foldl step st cs.

End History.

(** The locale that a call sets, if it sets one. *)
Definition locale_set (c : call) : option string :=
  match c with
  | SetLocale (Some l) => if JsString.truthy l then Some l else None
  | _ => None
  end.

(** Every record is kept under its own key, which holds the separator, and
    no key is kept without a record. *)
Definition registry_wf (usages : gmap string (list StringUsage)) : Prop :=
  ∀ k us, usages !! k = Some us →
    us ≠ [] ∧ (∃ a b, k = a +:+ "!#" +:+ b) ∧ Forall (λ u, key u = k) us.

End History.

(** ** Shapes of reports and of logs *)

Module Shape.

(** The traversal of [v] nests fewer than [n] calls below its first: [n]
    calls of [replaceInObject] are enough for it. *)
Fixpoint depth_ok (h : heap) (n : nat) (v : val) : bool :=
  match n with
  | O => false
  | S n' =>
      match v with
      | Ref l => forallb (λ p : string * val, depth_ok h n' p.2) (Heap.entries h l)
      | _ => true
      end
  end.

(** The object at [l] is part of a cycle of references. *)
Definition on_cycle (h : heap) (l : loc) : Prop :=
  ∃ o k v, h !! l = Some o ∧ (k, v) ∈ props o ∧ Spec.reach h v l.

(** A report without tokens, with the root at location 0 and two levels
    below it. *)
Definition plain_report : heap :=
  [ Object false [("audits", Ref 1); ("score", Num (Fin 1%Qc))];
    Object false [("a", Ref 2)];
    Object false [("displayValue", Str "x#12"); ("items", Ref 3)];
    Object true [("0", Str "one"); ("1", Null)] ].

(** A report whose object at location 1 refers to the root. *)
Definition cyclic_report : heap :=
  [ Object false [("audits", Ref 1)];
    Object false [("parent", Ref 0)] ].

Section Shape.
Context `{Collaborators}.

(** What holds of the record of a key in a log: there is an occurrence,
    every occurrence has a path and the values of a usage of the key, and
    the template is the one that the formatter uses for a usage of the
    key. *)
Definition record_ok (locale' : string) (usages : gmap string (list StringUsage))
    (p : string * logRecord) : Prop :=
  log_occurrences p.2 ≠ [] ∧
  Forall (λ occ, occ_path occ ≠ [] ∧
                 ∃ u, u ∈ default [] (usages !! p.1) ∧ occ_values occ = values u)
    (log_occurrences p.2) ∧
  ∃ u, u ∈ default [] (usages !! p.1) ∧
       log_template p.2 = templateForMessageFormat locale' p.1 (template u).

Definition log_wf (locale' : string) (usages : gmap string (list StringUsage))
    (log : log_t) : Prop :=
  NoDup (Props.keys log) ∧ Forall (record_ok locale' usages) log.

End Shape.
End Shape.

(** ** Copies of values *)

Module Copy.

(** A value that is not a reference to an object of [h0]. *)
Definition fresh_ref (h0 : heap) (v : val) : Prop :=
  match v with
  | Ref l => length h0 ≤ l
  | _ => True
  end.

(** The objects that [h] has and [h0] has not hold no reference to an
    object of [h0]. *)
Definition fresh_closed (h0 h : heap) : Prop :=
  ∀ l o, length h0 ≤ l → h !! l = Some o →
    Forall (λ p : string * val, fresh_ref h0 p.2) (props o).

(** What the copy of one value keeps: the store grows, the new objects hold
    no reference to an old one, and neither does the result. *)
Definition clone_ok (h0 : heap) (rec : val → comp heap val) : Prop :=
  ∀ v h r h', h0 `prefix_of` h → fresh_closed h0 h → rec v h = (r, h') →
    (h0 `prefix_of` h' ∧ fresh_closed h0 h') ∧ ∀ v', r = Ok v' → fresh_ref h0 v'.

(** The property [k] of [o] is one that [JSON.stringify] writes when it
    holds an object: any property of an object, an element of an array. *)
Definition json_visible (o : object) (k : string) : Prop :=
  is_array o = true → is_Some (JsString.array_index k).

(** Reachability along the properties that [JSON.stringify] follows. *)
Inductive json_reach (h : heap) : val → loc → Prop :=
  | json_here l o : h !! l = Some o → json_reach h (Ref l) l
  | json_child l o k v l' :
      h !! l = Some o → (k, v) ∈ props o → json_visible o k →
      json_reach h v l' → json_reach h (Ref l) l'.

(** The object at [l] is part of a circular structure. *)
Definition circular (h : heap) (l : loc) : Prop :=
  ∃ o k v, h !! l = Some o ∧ (k, v) ∈ props o ∧ json_visible o k ∧ json_reach h v l.

(** Values with an object inside, and values that hold themselves. *)
Definition nested_values : heap :=
  [ Object false [("timeInMs", Num (Fin (Number.of_Z 1234))); ("detail", Ref 1)];
    Object false [("n", Num (Fin 1%Qc))] ].

Definition circular_values : heap :=
  [ Object false [("n", Num (Fin 1%Qc)); ("self", Ref 0)] ].

End Copy.

(** ** A template with sizes

    Collaborators whose parser knows one more template, in which the
    placeholder [size] is written twice with the style [bytes]. *)

Module Sizes.

Definition sizes_template : string := "{size, number, bytes} of {size, number, bytes}".

Definition parse (msg : string) : option (list MessageParser.element) :=
  if String.eqb msg sizes_template then
    Some [ MessageParser.argumentElement "size"
             (Some (MessageParser.Format "numberFormat" (Some "bytes")));
           MessageParser.messageTextElement " of ";
           MessageParser.argumentElement "size"
             (Some (MessageParser.Format "numberFormat" (Some "bytes"))) ]
  else Demo.parse msg.

Definition collaborators : Collaborators := {|
  path_relative := Demo.strip_prefix;
  LH_ROOT := "/lh/";
  module_filename := "/lh/lighthouse-core/lib/i18n.js";
  MessageParser_parse := parse;
  MessageFormat_format := Demo.format;
  MessageFormat_defaultLocale := "en";
  LOCALES := Demo.locales;
  string_to_number := λ _, NaN;
  object_to_number := λ _ _, NaN;
  stack_limit := 64
|}.


End Sizes.

(** ** Paths from the root

    [follow h v path] is [v[k1][k2]...[kn]] for the keys of the path, over
    own properties; the keys of an array are its indices. *)

Module Paths.


Section Paths.
Context (usages : gmap string (list StringUsage)) (h0 : heap) (root : loc).








End Paths.



End Paths.

(** ** The range of exact arithmetic

    Line 56 and line 58 compute on doubles.  For a double [x] of magnitude
    at most [2^53] the quotient [x / 10] rounds to the same side of every
    half-integer as the exact quotient, and the product of its rounding by
    ten is exact, so that [Math.round(x / 10) * 10] is the value that exact
    arithmetic gives; beyond that magnitude the spacing of the doubles
    decides the result.  The quotient [x / 1024] is exact unless it falls
    below the least normal double, [2^-1022]. *)

Module Range.

Definition safe (q : Qc) : Prop :=
  (- inject_Z (2 ^ 53) <= q)%Q ∧ (q <= inject_Z (2 ^ 53))%Q.


End Range.

(** ** The log in the store

    How the objects of a store hold a log; [n] is a bound below which
    none of the objects lies. *)

Module LogStore.

Definition stores_array (n : nat) (h : heap) (l : loc) (vs : list val) : Prop :=
  n ≤ l ∧ h !! l = Some (Object true (imap (λ i v, (JsString.of_nat i, v)) vs)).

Definition stores_occurrence (n : nat) (h : heap) (l : loc) (occ : occurrence) : Prop :=
  n ≤ l ∧
  ∃ lp, h !! l = Some (Object false [("values", occ_values occ); ("path", Ref lp)]) ∧
        stores_array n h lp (Str <$> occ_path occ).

Definition stores_record (n : nat) (h : heap) (l : loc) (r : logRecord) : Prop :=
  n ≤ l ∧
  ∃ lo ls,
    h !! l = Some (Object false [("template", Str (log_template r)); ("occurrences", Ref lo)]) ∧
    stores_array n h lo (Ref <$> ls) ∧
    Forall2 (stores_occurrence n h) ls (log_occurrences r).

Definition stores_log (n : nat) (h : heap) (l : loc) (log : log_t) : Prop :=
  n ≤ l ∧
  ∃ ls, h !! l = Some (Object false (zip log.*1 (Ref <$> ls))) ∧
        Forall2 (stores_record n h) ls log.*2.

(** [h'] has the objects that [h] has from [n] on. *)
Definition keeps_above (n : nat) (h h' : heap) : Prop :=
  ∀ l o, n ≤ l → h !! l = Some o → h' !! l = Some o.

(** An allocation that stores [x] as [R] says, in a store of [n] objects
    or more. *)
Definition allocates_as {A : Type} (R : heap → loc → A → Prop) (n : nat)
    (alloc : A → comp heap loc) : Prop :=
  ∀ x h, n ≤ length h →
    ∃ l h', alloc x h = (Ok l, h') ∧ h `prefix_of` h' ∧ R h' l x.

End LogStore.

(** ** What a pass makes of a report

    [msg] gives the message of each token; the definitions say what a
    store looks like while and after a pass resolves its tokens. *)

Module Resolution.

Section Resolution.
Context `{Collaborators}.
Context (locale' : string) (usages : gmap string (list StringUsage)) (msg : string → string).

Definition resolve_val (v : val) : val :=
  match v with
  | Str s => if TokenPattern.is_token s then Str (msg s) else v
  | _ => v
  end.

Definition resolve_object (o : object) : object :=
  Object (is_array o) ((λ p : string * val, (p.1, resolve_val p.2)) <$> props o).

(** Every token of the store has its record. *)
Definition tokens_recorded (h0 : heap) : Prop :=
  ∀ l o k s, h0 !! l = Some o → (k, Str s) ∈ props o →
    TokenPattern.is_token s = true → is_Some (Spec.record_of usages s).

(** A value that is not a string of the token pattern. *)
Definition quiet (v : val) : Prop := ∀ s, v = Str s → TokenPattern.is_token s = false.

(** A property during a pass: as it was, or resolved. *)
Definition step_rel (p p' : string * val) : Prop :=
  p'.1 = p.1 ∧ (p'.2 = p.2 ∨ p'.2 = resolve_val p.2).

(** A store during a pass over [h0]: the objects of [h0] with some of
    their tokens resolved, and the objects that formatting has added. *)
Definition partly (h0 h : heap) : Prop :=
  length h0 ≤ length h ∧
  ∀ l o, h0 !! l = Some o →
    ∃ o', h !! l = Some o' ∧ is_array o' = is_array o ∧ Forall2 step_rel (props o) (props o').

(** Formatting the usage of a token of the store [h0] returns [msg] of the
    token, in every store of a pass over [h0]; it may add the copy of the
    values to the store.  The message is not of the token pattern itself. *)
Definition formats_to (h0 : heap) : Prop :=
  ∀ l o k s tk idx u (h : heap),
    h0 !! l = Some o → (k, Str s) ∈ props o →
    TokenPattern.is_token s = true →
    TokenPattern.match_groups s = Some (tk, idx) →
    usage_at (default [] (usages !! tk)) idx = Some u →
    partly h0 h →
    ∃ h',
      formatTemplate locale' tk (template u) (values u) h
      = (Ok (msg s, templateForMessageFormat locale' tk (template u)), h') ∧
      TokenPattern.is_token (msg s) = false.

(** From one state of a pass to a later one only tokens change. *)
Definition later_rel (p p' : string * val) : Prop :=
  p'.1 = p.1 ∧ (p'.2 = p.2 ∨ ¬ quiet p.2).

Definition later (h h' : heap) : Prop :=
  ∀ l o, h !! l = Some o →
    ∃ o', h' !! l = Some o' ∧ is_array o' = is_array o ∧ Forall2 later_rel (props o) (props o').

(** The object at [l] has all its tokens resolved. *)
Definition resolved (h0 h : heap) (l : loc) : Prop :=
  ∀ o, h0 !! l = Some o → h !! l = Some (resolve_object o).

(** What a call of [replaceInObject] with [fuel] does in a state of a
    pass over [h0]. *)
Definition walks (h0 : heap) (fuel : nat) : Prop :=
  ∀ obj path log h,
    partly h0 h → Shape.depth_ok h0 fuel obj = true →
    (∀ l, obj = Ref l → l < length h0) →
    ∃ log' h',
      replaceInObject fuel locale' usages obj path log h = (Ok log', h') ∧
      partly h0 h' ∧ later h h' ∧
      ∀ l, Spec.reach h0 obj l → resolved h0 h' l.

End Resolution.

(** A message for the tokens of the examples. *)
Definition url_message (s : string) : string := "URL".

(** A report whose token has a usage with values that are an object of the
    store; the root is at location 0, the values are at location 2. *)
Definition timed_report : heap :=
  [ Object false [("audits", Ref 1)];
    Object false [("title", Str Demo.url_token); ("score", Str "x#12")];
    Object false [("timeInMs", Num (Fin (Number.of_Z 1234)))] ].

Definition timed_usages : gmap string (list StringUsage) :=
  {[ Demo.url_key := [Usage Demo.url_key "URL" (Ref 2)] ]}.

End Resolution.

Module StringFacts.

Lemma string_app_cons (c : ascii) (s1 s2 : string) : String c s1 +:+ s2 = String c (s1 +:+ s2).
Proof. done. Qed.

Lemma string_app_nil_l (s : string) : "" +:+ s = s.
Proof. done. Qed.

Lemma string_app_nil_r (s : string) : s +:+ "" = s.
Proof. induction s as [|c s IH]; [done | by rewrite string_app_cons, IH]. Qed.

Lemma string_app_assoc (s1 s2 s3 : string) : (s1 +:+ s2) +:+ s3 = s1 +:+ (s2 +:+ s3).
Proof. induction s1 as [|c s1 IH]; [done | by rewrite !string_app_cons, IH]. Qed.

Lemma string_forallb_app p (s1 s2 : string) :
  JsString.forallb p (s1 +:+ s2) = JsString.forallb p s1 && JsString.forallb p s2.
Proof.
  induction s1 as [|c s1 IH]; [done|].
  rewrite string_app_cons. cbn. by rewrite IH, andb_assoc.
Qed.

End StringFacts.

Module RegexFacts.
Import Regex StringFacts.

Lemma lang_void_inv s : lang Void s → False.
Proof. inversion 1. Qed.

Lemma lang_eps_inv s : lang Eps s → s = "".
Proof. by inversion 1. Qed.

Lemma lang_class_inv p s : lang (Class p) s → ∃ c, s = String c "" ∧ p c = true.
Proof. inversion 1; subst; eauto. Qed.

Lemma lang_cat_inv r1 r2 s :
  lang (Cat r1 r2) s → ∃ s1 s2, s = s1 +:+ s2 ∧ lang r1 s1 ∧ lang r2 s2.
Proof. inversion 1; subst; eauto. Qed.

Lemma lang_alt_inv r1 r2 s : lang (Alt r1 r2) s → lang r1 s ∨ lang r2 s.
Proof. inversion 1; subst; eauto. Qed.

Lemma lang_star_inv r s :
  lang (Star r) s →
  s = "" ∨ ∃ c s1 s2, s = String c s1 +:+ s2 ∧ lang r (String c s1) ∧ lang (Star r) s2.
Proof. inversion 1; subst; eauto 10. Qed.

Lemma string_app_eq_nil (s1 s2 : string) : s1 +:+ s2 = "" → s1 = "" ∧ s2 = "".
Proof. destruct s1; [done | by rewrite string_app_cons]. Qed.

Lemma nullable_lang r : nullable r = true ↔ lang r "".
Proof.
  split.
  - induction r as [| |p|r1 IH1 r2 IH2|r1 IH1 r2 IH2|r IH]; cbn; intros Hn; try done.
    + constructor.
    + apply andb_prop in Hn as [H1 H2]. apply (lang_cat r1 r2 "" ""); auto.
    + apply orb_prop in Hn as [H1|H2]; [apply lang_alt_l | apply lang_alt_r]; auto.
    + constructor.
  - induction r as [| |p|r1 IH1 r2 IH2|r1 IH1 r2 IH2|r IH]; cbn; intros Hl; try done.
    + by apply lang_void_inv in Hl.
    + apply lang_class_inv in Hl as (c & ? & _). done.
    + apply lang_cat_inv in Hl as (s1 & s2 & Heq & H1 & H2).
      symmetry in Heq. apply string_app_eq_nil in Heq as [-> ->]. by rewrite IH1, IH2.
    + apply lang_alt_inv in Hl as [Hl|Hl]; [rewrite IH1 | rewrite IH2]; auto using orb_true_r.
Qed.

Lemma deriv_lang r c s : lang (deriv c r) s ↔ lang r (String c s).
Proof.
  revert s. induction r as [| |p|r1 IH1 r2 IH2|r1 IH1 r2 IH2|r IH]; intros s; cbn.
  - split; intros Hl; by apply lang_void_inv in Hl.
  - split; intros Hl; [by apply lang_void_inv in Hl | by apply lang_eps_inv in Hl].
  - destruct (p c) eqn:Hp; split; intros Hl.
    + apply lang_eps_inv in Hl as ->. by constructor.
    + apply lang_class_inv in Hl as (c' & ? & _). simplify_eq. constructor.
    + by apply lang_void_inv in Hl.
    + apply lang_class_inv in Hl as (c' & ? & ?). simplify_eq. congruence.
  - assert (Hcat : lang (Cat (deriv c r1) r2) s → lang (Cat r1 r2) (String c s)).
    { intros Hl. apply lang_cat_inv in Hl as (s1 & s2 & -> & H1 & H2).
      apply IH1 in H1. apply (lang_cat r1 r2 (String c s1) s2); auto. }
    destruct (nullable r1) eqn:Hn; split; intros Hl.
    + apply lang_alt_inv in Hl as [Hl|Hl]; [auto|].
      apply IH2 in Hl. apply (lang_cat r1 r2 "" (String c s)); auto.
      by apply nullable_lang.
    + apply lang_cat_inv in Hl as (s1 & s2 & Heq & H1 & H2).
      destruct s1 as [|c' s1]; [rewrite string_app_nil_l in Heq | rewrite string_app_cons in Heq]; simplify_eq.
      * apply lang_alt_r. by apply IH2.
      * apply lang_alt_l. constructor; [by apply IH1 | done].
    + auto.
    + apply lang_cat_inv in Hl as (s1 & s2 & Heq & H1 & H2).
      destruct s1 as [|c' s1]; [rewrite string_app_nil_l in Heq | rewrite string_app_cons in Heq]; simplify_eq.
      * apply nullable_lang in H1. congruence.
      * constructor; [by apply IH1 | done].
  - split; intros Hl.
    + apply lang_alt_inv in Hl as [Hl|Hl]; [apply lang_alt_l; by apply IH1 | apply lang_alt_r; by apply IH2].
    + apply lang_alt_inv in Hl as [Hl|Hl]; [apply lang_alt_l; by apply IH1 | apply lang_alt_r; by apply IH2].
  - split; intros Hl.
    + apply lang_cat_inv in Hl as (s1 & s2 & -> & H1 & H2).
      apply IH in H1. by apply (lang_star_cons r c s1 s2).
    + apply lang_star_inv in Hl as [?|(c' & s1 & s2 & Heq & H1 & H2)]; [done|].
      rewrite string_app_cons in Heq; simplify_eq. constructor; [by apply IH | done].
Qed.

Lemma matches_lang r s : matches r s = true ↔ lang r s.
Proof.
  revert r. induction s as [|c s IH]; intros r; cbn.
  - apply nullable_lang.
  - rewrite IH. apply deriv_lang.
Qed.

End RegexFacts.

Module DecimalFacts'.
Import StringFacts.

Lemma to_uint_nonnil n : Nat.to_uint n ≠ Decimal.Nil.
Proof.
  rewrite <- (DecimalNat.Unsigned.of_to n) at 1.
  rewrite DecimalNat.Unsigned.to_of. apply unorm_nonnil.
Qed.

Lemma array_index_of_nat n : JsString.array_index (JsString.of_nat n) = Some n.
Proof.
  unfold JsString.array_index, JsString.of_nat.
  rewrite NilZero.usu by apply to_uint_nonnil.
  rewrite DecimalNat.Unsigned.of_to. by rewrite String.eqb_refl.
Qed.

Lemma digits_string_of_uint d :
  JsString.forallb JsString.is_digit (NilEmpty.string_of_uint d) = true.
Proof. induction d; cbn; auto. Qed.

Lemma of_nat_digits n : JsString.forallb JsString.is_digit (JsString.of_nat n) = true.
Proof.
  unfold JsString.of_nat, NilZero.string_of_uint.
  destruct (Nat.to_uint n); try apply digits_string_of_uint. done.
Qed.

Lemma of_nat_nonempty n : JsString.of_nat n ≠ "".
Proof.
  unfold JsString.of_nat, NilZero.string_of_uint.
  pose proof (to_uint_nonnil n). destruct (Nat.to_uint n); done.
Qed.

Lemma of_nat_inj n m : JsString.of_nat n = JsString.of_nat m → n = m.
Proof.
  intros Heq. apply (f_equal JsString.array_index) in Heq.
  rewrite !array_index_of_nat in Heq. congruence.
Qed.

End DecimalFacts'.

Module TokenFacts.
Import Regex StringFacts RegexFacts TokenPattern.

Import JsString (no_line_terminator, digits).

Lemma lang_lit w s : lang (Lit w) s ↔ s = w.
Proof.
  revert s. induction w as [|c w IH]; intros s; cbn.
  - split; [apply lang_eps_inv | intros ->; constructor].
  - split.
    + intros Hl. apply lang_cat_inv in Hl as (s1 & s2 & -> & H1 & H2).
      apply lang_class_inv in H1 as (c' & -> & Hc). apply IH in H2 as ->.
      apply Ascii.eqb_eq in Hc as ->. done.
    + intros ->. apply (lang_cat _ _ (String c "") w).
      * constructor. apply Ascii.eqb_refl.
      * by apply IH.
Qed.

Lemma lang_star_class p s : lang (Star (Class p)) s ↔ JsString.forallb p s = true.
Proof.
  split.
  - remember (Star (Class p)) as r eqn:Hr. induction 1 as [| | | | | |r c s1 s2 H1 _ H2 IH]; try done.
    simplify_eq. apply lang_class_inv in H1 as (c' & ? & Hc). simplify_eq.
    rewrite string_app_cons, string_app_nil_l. cbn. rewrite Hc. by apply IH.
  - induction s as [|c s IH]; cbn; intros Hp; [constructor|].
    apply andb_prop in Hp as [Hc Hs].
    apply (lang_star_cons (Class p) c "" s); [by constructor | auto].
Qed.

Lemma lang_plus_class p s :
  lang (Plus (Class p)) s ↔ s ≠ "" ∧ JsString.forallb p s = true.
Proof.
  unfold Plus. split.
  - intros Hl. apply lang_cat_inv in Hl as (s1 & s2 & -> & H1 & H2).
    apply lang_class_inv in H1 as (c & -> & Hc). apply lang_star_class in H2.
    split; [done|]. rewrite string_app_cons, string_app_nil_l. cbn. by rewrite Hc, H2.
  - intros [Hne Hp]. destruct s as [|c s]; [done|]. cbn in Hp.
    apply andb_prop in Hp as [Hc Hs].
    apply (lang_cat _ _ (String c "") s); [by constructor | by apply lang_star_class].
Qed.

Lemma test_lang r s : test r s = true ↔ ∃ a b, s = a +:+ b ∧ lang r b.
Proof.
  unfold test. rewrite matches_lang. split.
  - intros Hl. apply lang_cat_inv in Hl as (a & b & -> & _ & Hb). eauto.
  - intros (a & b & -> & Hb). constructor; [|done].
    apply lang_star_class. by induction a.
Qed.

Lemma lang_tail s : lang tail s ↔ ∃ d, s = "#" +:+ d ∧ d ≠ "" ∧ digits d = true.
Proof.
  unfold tail. split.
  - intros Hl. apply lang_cat_inv in Hl as (s1 & d & -> & H1 & H2).
    apply lang_lit in H1 as ->. apply lang_plus_class in H2. eauto.
  - intros (d & -> & Hd). constructor; [by apply lang_lit | by apply lang_plus_class].
Qed.

(** The pattern of the test in words: a [!#], then no line terminator up to
    a [#] that is followed by one or more digits and the end of the string. *)
Lemma is_token_iff s :
  is_token s = true ↔
  ∃ a c d, s = a +:+ "!#" +:+ c +:+ "#" +:+ d ∧
           no_line_terminator c = true ∧ d ≠ "" ∧ digits d = true.
Proof.
  unfold is_token. rewrite test_lang. unfold shape. split.
  - intros (a & b & -> & Hl).
    apply lang_cat_inv in Hl as (b1 & b2 & -> & _ & Hl).
    apply lang_cat_inv in Hl as (b3 & b4 & -> & Hb3 & Hl).
    apply lang_lit in Hb3 as ->.
    apply lang_cat_inv in Hl as (c & t & -> & Hc & Ht).
    apply lang_star_class in Hc. apply lang_tail in Ht as (d & -> & Hne & Hd).
    exists (a +:+ b1), c, d. by rewrite !string_app_assoc.
  - intros (a & c & d & -> & Hc & Hne & Hd). exists a, ("!#" +:+ c +:+ "#" +:+ d).
    split; [reflexivity|]. apply (lang_cat _ _ ""); [constructor|].
    apply (lang_cat _ _ "!#"); [by apply lang_lit|].
    apply lang_cat; [by apply lang_star_class|]. apply lang_tail; eauto.
Qed.

Lemma greedy_split_sound r1 r2 s p q :
  greedy_split r1 r2 s = Some (p, q) → s = p +:+ q ∧ lang r1 p ∧ lang r2 q.
Proof.
  revert r1 p q. induction s as [|c s IH]; intros r1 p q; cbn.
  - destruct (nullable r1 && nullable r2) eqn:Hn; [|done]. intros [= <- <-].
    apply andb_prop in Hn as [H1 H2]. split; [done|]. split; by apply nullable_lang.
  - destruct (greedy_split (deriv c r1) r2 s) as [[p' q']|] eqn:Hg.
    + intros [= <- <-]. apply IH in Hg as (-> & H1 & H2).
      split; [done|]. split; [by apply deriv_lang | done].
    + destruct (nullable r1 && matches (deriv c r2) s) eqn:Hn; [|done]. intros [= <- <-].
      apply andb_prop in Hn as [H1 H2].
      split; [done|]. split; [by apply nullable_lang | by apply matches_lang].
Qed.

Lemma greedy_split_complete r1 r2 p q :
  lang r1 p → lang r2 q → is_Some (greedy_split r1 r2 (p +:+ q)).
Proof.
  revert r1. induction p as [|c p IH]; intros r1 H1 H2.
  - rewrite string_app_nil_l. apply nullable_lang in H1. destruct q as [|c q]; cbn.
    + apply nullable_lang in H2. by rewrite H1, H2.
    + destruct (greedy_split (deriv c r1) r2 q) as [[??]|]; [done|].
      apply matches_lang in H2. cbn in H2. by rewrite H1, H2.
  - rewrite string_app_cons. cbn. apply deriv_lang in H1.
    destruct (IH _ H1 H2) as [[p' q'] ->]. done.
Qed.

Lemma leftmost_hit r s : matches r s = true → leftmost r s = Some s.
Proof. destruct s; cbn; by intros ->. Qed.

Lemma digits_no_hash a d : digits (a +:+ String "#"%char d) = false.
Proof.
  unfold digits. rewrite string_forallb_app. cbn. apply andb_false_r.
Qed.

Lemma last_hash_unique p d p' d' :
  p +:+ String "#"%char d = p' +:+ String "#"%char d' →
  digits d = true → digits d' = true →
  p = p' ∧ d = d'.
Proof.
  revert p'. induction p as [|c p IH]; intros [|c' p'] Heq Hd Hd'.
  - rewrite !string_app_nil_l in Heq. by simplify_eq.
  - rewrite string_app_nil_l, !string_app_cons in Heq. injection Heq as <- ->.
    by rewrite digits_no_hash in Hd.
  - rewrite string_app_nil_l, !string_app_cons in Heq. injection Heq as -> <-.
    by rewrite digits_no_hash in Hd'.
  - rewrite !string_app_cons in Heq. injection Heq as -> Heq. destruct (IH p') as [-> ->]; auto.
Qed.

(** What [match] returns on a key followed by [#] and digits. *)
Lemma match_groups_token k d :
  no_line_terminator k = true → d ≠ "" → digits d = true →
  match_groups (k +:+ "#" +:+ d) = Some (k, d).
Proof.
  intros Hk Hne Hd. unfold match_groups.
  assert (Hk' : lang (Star Dot) k) by by apply lang_star_class.
  assert (Ht : lang tail ("#" +:+ d)) by (apply lang_tail; eauto).
  rewrite leftmost_hit by (apply matches_lang; by constructor).
  destruct (greedy_split_complete _ _ _ _ Hk' Ht) as [[p q] Hg]. rewrite Hg.
  apply greedy_split_sound in Hg as (Heq & Hp & Hq).
  apply lang_tail in Hq as (d' & -> & Hne' & Hd').
  apply (last_hash_unique k d p d') in Heq as [-> ->]; auto.
Qed.

Lemma is_token_minted a kn d :
  no_line_terminator kn = true → d ≠ "" → digits d = true →
  is_token ((a +:+ "!#" +:+ kn) +:+ "#" +:+ d) = true.
Proof.
  intros. apply is_token_iff. exists a, kn, d. by rewrite !string_app_assoc.
Qed.

(** The patterns on a few strings: a minted token, a string that ends in
    [#12] without [!#], a key that holds a [#], and a line feed after the
    [!#]. *)
Example token_of_core_string :
  is_token "lighthouse-core/lib/i18n.js!#columnURL#0" = true ∧
  match_groups "lighthouse-core/lib/i18n.js!#columnURL#0"
    = Some ("lighthouse-core/lib/i18n.js!#columnURL", "0").
Proof. split; reflexivity. Qed.

Example token_needs_separator : is_token "x#12" = false.
Proof. reflexivity. Qed.

Example token_last_hash_splits : match_groups "a.js!#k#1#23" = Some ("a.js!#k#1", "23").
Proof. reflexivity. Qed.

Example token_on_one_line :
  is_token ("a.js!#a" +:+ String (ascii_of_nat 10) "b#0") = false ∧
  is_token ("x" +:+ String (ascii_of_nat 10) "a.js!#k#0") = true ∧
  match_groups ("x" +:+ String (ascii_of_nat 10) "a.js!#k#0") = Some ("a.js!#k", "0").
Proof. repeat split; reflexivity. Qed.

End TokenFacts.

(** ** Computations and loops *)

Module CompFacts.

Lemma bind_run {S A B : Type} (m : comp S A) (k : A → comp S B) (s : S) :
  (m ≫= k) s = match m s with
               | (Ok a, s') => k a s'
               | (Throw e, s') => (Throw e, s')
               end.
Proof. done. Qed.

(** A sequence ends where its first part throws or where its second part
    ends. *)
Lemma bind_cases {S A B : Type} (m : comp S A) (k : A → comp S B) (s : S) r s' :
  (m ≫= k) s = (r, s') →
  (∃ e, m s = (Throw e, s') ∧ r = Throw e) ∨
  (∃ a s1, m s = (Ok a, s1) ∧ k a s1 = (r, s')).
Proof.
  rewrite bind_run. destruct (m s) as [[a|e] s1].
  - intros Hk. right. eauto.
  - intros [= <- <-]. left. eauto.
Qed.

Lemma bind_Ok {S A B : Type} (m : comp S A) (k : A → comp S B) (s : S) b s' :
  (m ≫= k) s = (Ok b, s') → ∃ a s1, m s = (Ok a, s1) ∧ k a s1 = (Ok b, s').
Proof. intros Hb. by apply bind_cases in Hb as [(e & _ & ?)|?]. Qed.

Lemma for_each_app {S X A : Type} (body : X → A → comp S A) (l1 l2 : list X) (a : A) s :
  for_each body (l1 ++ l2) a s = (for_each body l1 a ≫= for_each body l2) s.
Proof.
  revert a s. induction l1 as [|x l1 IH]; intros a s; [done|].
  cbn [app for_each]. rewrite !bind_run. destruct (body x a s) as [[a'|e] s1]; [|done].
  by rewrite IH, bind_run.
Qed.

(** An invariant of the state that every iteration keeps, however it ends,
    holds when the loop ends. *)
Lemma for_each_invariant {S X A : Type} (Inv : S → Prop) (body : X → A → comp S A)
    (l : list X) (a : A) (s : S) r s' :
  (∀ x a1 s1 r1 s2, x ∈ l → Inv s1 → body x a1 s1 = (r1, s2) → Inv s2) →
  Inv s → for_each body l a s = (r, s') → Inv s'.
Proof.
  revert a s. induction l as [|x l IH]; intros a s Hbody Hs; cbn [for_each].
  - by intros [= <- <-].
  - intros Hl. apply bind_cases in Hl as [(e & Hx & _)|(a1 & s1 & Hx & Hl)].
    + apply (Hbody x a s (Throw e) s'); [by left | done..].
    + apply (IH a1 s1); [| |done].
      * intros x' a' s2 r2 s3 Hx'. apply Hbody. by right.
      * apply (Hbody x a s (Ok a1) s1); [by left | done..].
Qed.

(** The same for a loop that ends normally, with what the iterations hand
    on. *)
Lemma for_each_Ok_invariant {S X A : Type} (Inv : A → S → Prop) (body : X → A → comp S A)
    (l : list X) (a : A) (s : S) a' s' :
  (∀ x a1 s1 a2 s2, x ∈ l → Inv a1 s1 → body x a1 s1 = (Ok a2, s2) → Inv a2 s2) →
  Inv a s → for_each body l a s = (Ok a', s') → Inv a' s'.
Proof.
  revert a s. induction l as [|x l IH]; intros a s Hbody Hs; cbn [for_each].
  - by intros [= <- <-].
  - intros Hl. apply bind_Ok in Hl as (a1 & s1 & Hx & Hl).
    apply (IH a1 s1); [| |done].
    + intros x' a2 s2 a3 s3 Hx'. apply Hbody. by right.
    + apply (Hbody x a s a1 s1); [by left | done..].
Qed.

(** The loop stops at the first iteration that throws. *)
Lemma for_each_throw {S X A : Type} (Inv : S → Prop) (body : X → A → comp S A)
    (pre post : list X) (x : X) (a : A) (s : S) :
  (∀ y a1 s1 r1 s2, y ∈ pre → Inv s1 → body y a1 s1 = (r1, s2) → Inv s2) →
  (∀ a1 s1, Inv s1 → ∃ e s2, body x a1 s1 = (Throw e, s2)) →
  Inv s → ∃ e s', for_each body (pre ++ x :: post) a s = (Throw e, s').
Proof.
  intros Hpre Hx Hs. rewrite for_each_app, bind_run.
  destruct (for_each body pre a s) as [[a1|e] s1] eqn:Hl; [|by eauto].
  apply (for_each_invariant Inv) in Hl; [|done..].
  cbn [for_each]. rewrite bind_run. destruct (Hx a1 s1 Hl) as (e & s2 & ->). eauto.
Qed.

End CompFacts.

(** ** The store *)

Module HeapFacts.

Lemma prefix_insert_ge (h0 h : heap) (l : loc) (o : object) :
  h0 `prefix_of` h → length h0 ≤ l → h0 `prefix_of` <[l := o]> h.
Proof.
  intros [k ->] Hl. exists (<[l - length h0 := o]> k).
  by rewrite insert_app_r_alt.
Qed.

Lemma heap_set_prefix (h0 h : heap) (l : loc) (k : string) (v : val) :
  h0 `prefix_of` h → length h0 ≤ l → h0 `prefix_of` Heap.set l k v h.
Proof.
  intros Hp Hl. unfold Heap.set. destruct (h !! l); [|done]. by apply prefix_insert_ge.
Qed.

Lemma heap_set_length (h : heap) (l : loc) (k : string) (v : val) :
  length (Heap.set l k v h) = length h.
Proof. unfold Heap.set. destruct (h !! l); [|done]. apply length_insert. Qed.

Lemma heap_set_lookup_ne (h : heap) (l l' : loc) (k : string) (v : val) :
  l ≠ l' → Heap.set l k v h !! l' = h !! l'.
Proof.
  intros Hne. unfold Heap.set. destruct (h !! l); [|done]. by apply list_lookup_insert_ne.
Qed.

Lemma heap_set_lookup_eq (h : heap) (l : loc) (k : string) (v : val) (o : object) :
  h !! l = Some o →
  Heap.set l k v h !! l = Some (Object (is_array o) (Props.set k v (props o))).
Proof.
  intros Ho. unfold Heap.set. rewrite Ho. apply list_lookup_insert_eq.
  by eapply lookup_lt_Some.
Qed.

End HeapFacts.

(** ** The copy and the preprocessor leave every existing object alone *)

Module FrameFacts.
Import CompFacts HeapFacts Spec.

Lemma clone_props_prefix (rec : val → comp heap val) array ps (h0 h : heap) r h' :
  (∀ v h1 r1 h2, h0 `prefix_of` h1 → rec v h1 = (r1, h2) → h0 `prefix_of` h2) →
  h0 `prefix_of` h →
  Json.clone_props rec array ps h = (r, h') → h0 `prefix_of` h'.
Proof.
  intros Hrec Hh. unfold Json.clone_props. intros Hl.
  apply (for_each_invariant (λ s, h0 `prefix_of` s)) in Hl; [done| |done].
  intros [k v] acc h1 r1 h2 _ Hinv Hbody.
  assert (Hstep : ∀ v1,
    ((v' ← rec v1; mret (acc ++ [(k, v')])) : comp heap _) h1 = (r1, h2) →
    h0 `prefix_of` h2).
  { intros v1 Hb. apply bind_cases in Hb as [(e & Hr & _)|(v' & h3 & Hr & Hok)]; [by eauto|].
    injection Hok as _ <-. eauto. }
  destruct array.
  - destruct (JsString.array_index k); [by eauto | by injection Hbody as _ <-].
  - destruct v; try (by eapply Hstep). by injection Hbody as _ <-.
Qed.

Lemma clone_prefix fuel stack v (h0 h : heap) r h' :
  h0 `prefix_of` h → Json.clone fuel stack v h = (r, h') →
  h0 `prefix_of` h' ∧ ∀ v', r = Ok v' → fresh_in h0 h' v'.
Proof.
  revert stack v h r h'. induction fuel as [|fuel IH]; intros stack v h r h' Hh Hc.
  - destruct v as [| | |[]| |l]; cbn in Hc;
      try (injection Hc as <- <-; split; [done | by intros ? [= <-]]).
    destruct (bool_decide (l ∈ stack)); injection Hc as <- <-; by split.
  - destruct v as [| | |[]| |l]; cbn [Json.clone] in Hc;
      try (injection Hc as <- <-; split; [done | by intros ? [= <-]]).
    destruct (bool_decide (l ∈ stack)); [injection Hc as <- <-; by split|].
    destruct (h !! l) as [o|]; [|injection Hc as <- <-; by split].
    assert (Hrec : ∀ v1 hx r1 hy, h0 `prefix_of` hx →
              Json.clone fuel (l :: stack) v1 hx = (r1, hy) → h0 `prefix_of` hy).
    { intros v1 hx r1 hy Hhx Hr. by eapply IH. }
    apply bind_cases in Hc as [(e & Hps & ->)|(ps & h1 & Hps & Hc)].
    + split; [|done]. by eapply clone_props_prefix.
    + apply (clone_props_prefix _ _ _ h0) in Hps; [|done..].
      cbn in Hc. injection Hc as <- <-.
      split; [by etrans; [|by exists [Object (is_array o) ps]]|].
      intros v' [= <-]. cbn. apply prefix_length in Hps. rewrite length_app. cbn. lia.
Qed.

Section Frame.
Context `{Collaborators}.

Lemma update_value_prefix f (h0 h : heap) cloned el r h' :
  h0 `prefix_of` h → fresh_in h0 h cloned →
  update_value f cloned el h = (r, h') → h0 `prefix_of` h' ∧ length h' = length h.
Proof.
  intros Hh Hf. unfold update_value.
  destruct cloned; try by intros [= <- <-]. cbn. intros [= <- <-].
  destruct (Props.proto_setter _ _); [done|].
  split; [apply heap_set_prefix; [done | cbn in Hf; lia] | apply heap_set_length].
Qed.

Lemma update_loop_prefix f els (h0 h : heap) cloned r h' :
  h0 `prefix_of` h ∧ fresh_in h0 h cloned →
  for_each (λ el _, update_value f cloned el) els tt h = (r, h') →
  h0 `prefix_of` h' ∧ fresh_in h0 h' cloned.
Proof.
  intros Hs Hl.
  apply (for_each_invariant (λ s, h0 `prefix_of` s ∧ fresh_in h0 s cloned)) in Hl; [done| |done].
  intros el a1 s1 r1 s2 _ [Hs1 Hf1] Hb.
  apply (update_value_prefix _ h0) in Hb as [? Hlen]; [|done..].
  split; [done|]. destruct cloned; try done. cbn in *. lia.
Qed.

Lemma preprocessMessageValues_prefix msg values (h0 h : heap) r h' :
  h0 `prefix_of` h → preprocessMessageValues msg values h = (r, h') →
  h0 `prefix_of` h' ∧ ∀ v', r = Ok v' → fresh_in h0 h' v'.
Proof.
  intros Hh. unfold preprocessMessageValues.
  destruct (Value.truthy values); cbn [negb]; [|by intros [= <- <-]; split; [|intros ? [= <-]]].
  intros Hp. apply bind_cases in Hp as [(e & Hc & ->)|(c & h1 & Hc & Hp)].
  { split; [|done]. by eapply clone_prefix. }
  apply (clone_prefix _ _ _ h0) in Hc as [Hh1 Hfresh]; [|done].
  specialize (Hfresh c eq_refl).
  destruct (MessageParser_parse msg) as [els|]; [|by injection Hp as <- <-].
  apply bind_cases in Hp as [(e & H2 & ->)|([] & h2 & H2 & Hp)].
  { split; [|done]. by eapply (update_loop_prefix _ _ h0 h1 c). }
  apply (update_loop_prefix _ _ h0 h1 c) in H2; [|done].
  apply bind_cases in Hp as [(e & H3 & ->)|([] & h3 & H3 & Hp)].
  { split; [|done]. by eapply (update_loop_prefix _ _ h0 h2 c). }
  apply (update_loop_prefix _ _ h0 h2 c) in H3 as [? ?]; [|done].
  injection Hp as <- <-. split; [done|]. by intros ? [= <-].
Qed.

Lemma formatTemplate_prefix locale key template values (h0 h : heap) r h' :
  h0 `prefix_of` h → formatTemplate locale key template values h = (r, h') →
  h0 `prefix_of` h' ∧
  ∀ m t, r = Ok (m, t) → t = templateForMessageFormat locale key template.
Proof.
  intros Hh. unfold formatTemplate. intros Hf.
  apply bind_cases in Hf as [(e & Hp & ->)|(v & h1 & Hp & Hf)].
  { split; [|done]. by eapply preprocessMessageValues_prefix. }
  apply (preprocessMessageValues_prefix _ _ h0) in Hp as [Hp _]; [|done].
  unfold format_message in Hf. rewrite bind_run in Hf.
  destruct (MessageFormat_format _ _ _ h1 v) as [m|e]; injection Hf as <- <-; [|done].
  split; [done|]. by intros ? ? [= _ <-].
Qed.

End Frame.
End FrameFacts.

(** ** Own properties *)

Module PropsFacts.
Section PropsFacts.
Context {A : Type}.
Implicit Types (k : string) (ps : list (string * A)).

Lemma get_Some_elem k ps v : Props.get k ps = Some v → (k, v) ∈ ps.
Proof.
  induction ps as [|[k' v'] ps IH]; cbn; [done|].
  destruct (String.eqb_spec k k') as [->|Hne].
  - intros [= ->]. by left.
  - intros Hg. right. auto.
Qed.

Lemma get_None k ps : Props.get k ps = None ↔ k ∉ Props.keys ps.
Proof.
  unfold Props.keys. induction ps as [|[k' v'] ps IH]; cbn.
  - split; [intros _; apply not_elem_of_nil | done].
  - rewrite not_elem_of_cons. destruct (String.eqb_spec k k') as [->|Hne].
    + split; [done | by intros [? _]].
    + rewrite IH. split; [done | by intros [_ ?]].
Qed.

Lemma get_lookup k ps i v :
  NoDup (Props.keys ps) → ps !! i = Some (k, v) → Props.get k ps = Some v.
Proof.
  unfold Props.keys. revert i. induction ps as [|[k' v'] ps IH]; intros i Hnd Hi; [done|].
  cbn in *. apply NoDup_cons in Hnd as [Hk' Hnd]. destruct i as [|i]; cbn in Hi.
  - simplify_eq. by rewrite String.eqb_refl.
  - destruct (String.eqb_spec k k') as [->|Hne]; [|by eapply IH].
    destruct Hk'. apply list_elem_of_fmap. exists (k', v). split; [done|].
    by eapply list_elem_of_lookup_2.
Qed.

Lemma replace_lookup k ps i v w :
  NoDup (Props.keys ps) → ps !! i = Some (k, v) →
  Props.replace k w ps = <[i := (k, w)]> ps.
Proof.
  unfold Props.keys. revert i. induction ps as [|[k' v'] ps IH]; intros i Hnd Hi; [done|].
  cbn in *. apply NoDup_cons in Hnd as [Hk' Hnd]. destruct i as [|i]; cbn in Hi.
  - simplify_eq. by rewrite String.eqb_refl.
  - destruct (String.eqb_spec k k') as [->|Hne]; [|by rewrite (IH i Hnd Hi)].
    destruct Hk'. apply list_elem_of_fmap. exists (k', v). split; [done|].
    by eapply list_elem_of_lookup_2.
Qed.

(** Writing a property that exists replaces its value in place. *)
Lemma props_set_lookup k ps i v w :
  NoDup (Props.keys ps) → ps !! i = Some (k, v) →
  Props.set k w ps = <[i := (k, w)]> ps.
Proof.
  intros Hnd Hi. unfold Props.set, Props.has.
  rewrite (get_lookup k ps i v) by done. by apply (replace_lookup k ps i v).
Qed.

Lemma replace_keys k w ps : Props.keys (Props.replace k w ps) = Props.keys ps.
Proof.
  unfold Props.keys. induction ps as [|[k' v'] ps IH]; cbn; [done|].
  destruct (String.eqb k k'); cbn; by rewrite ?IH.
Qed.

End PropsFacts.
End PropsFacts.

(** ** Resolution changes resolvable leaves only *)

Module EvolveFacts.
Import CompFacts HeapFacts FrameFacts PropsFacts Spec.

Section Evolve.
Context (usages : gmap string (list StringUsage)).

Lemma prop_evolves_refl p : prop_evolves usages p p.
Proof. split; auto. Qed.

Lemma object_evolves_refl o : object_evolves usages o o.
Proof. split; [done|]. apply Forall_Forall2_diag, Forall_forall. intros; apply prop_evolves_refl. Qed.

Lemma heap_evolves_refl h : heap_evolves usages h h.
Proof. intros l o Ho. exists o. split; [done | apply object_evolves_refl]. Qed.

Lemma heap_evolves_prefix h0 h h' :
  heap_evolves usages h0 h → h `prefix_of` h' → heap_evolves usages h0 h'.
Proof.
  intros Hev Hp l o Ho. destruct (Hev l o Ho) as (o' & Ho' & Hoe).
  exists o'. split; [by eapply prefix_lookup_Some | done].
Qed.

Lemma object_evolves_keys o o' :
  object_evolves usages o o' → Props.keys (props o') = Props.keys (props o).
Proof.
  intros [_ Hf]. unfold Props.keys. induction Hf as [|p p' ps ps' [Hk _] _ IH]; [done|].
  cbn. by rewrite Hk, IH.
Qed.

(** Writing a string over a leaf that was resolvable at the start. *)
Lemma object_evolves_set o0 o i k v0 m :
  NoDup (Props.keys (props o0)) →
  object_evolves usages o0 o →
  props o0 !! i = Some (k, v0) → resolvable usages v0 →
  object_evolves usages o0 (Object (is_array o) (Props.set k (Str m) (props o))).
Proof.
  intros Hnd Hoe Hi Hr. pose proof (object_evolves_keys _ _ Hoe) as Hkeys.
  destruct Hoe as [Harr Hf]. split; [done|]. cbn.
  destruct (Forall2_lookup_l _ _ _ _ _ Hf Hi) as ([k' v'] & Hi' & Hk' & _).
  cbn in Hk'. subst k'.
  rewrite (props_set_lookup k (props o) i v') by (by rewrite ?Hkeys).
  rewrite <- (list_insert_id (props o0) i (k, v0)) by done.
  apply Forall2_insert; [done|]. split; [done|]. right. eauto.
Qed.

Lemma object_evolves_trans o0 o1 o2 :
  object_evolves usages o0 o1 → object_evolves usages o1 o2 →
  object_evolves usages o0 o2.
Proof.
  intros [Ha1 Hf1] [Ha2 Hf2]. split; [congruence|].
  revert Hf2. generalize (props o2). induction Hf1 as [|p0 p1 l0 l1 Hp _ IH];
    intros l2 Hf2; inversion Hf2 as [|? p2 ? l2' Hp' Hf2']; subst; constructor; [|by apply IH].
  destruct Hp as [Hk1 Hv1], Hp' as [Hk2 Hv2]. split; [congruence|].
  destruct Hv1 as [Hv1|[Hr (m & Hm)]].
  - rewrite Hv1 in Hv2. done.
  - right. split; [done|]. destruct Hv2 as [->|[_ Hm']]; eauto.
Qed.

Lemma heap_evolves_trans h0 h1 h2 :
  heap_evolves usages h0 h1 → heap_evolves usages h1 h2 → heap_evolves usages h0 h2.
Proof.
  intros H1 H2 l o Ho. destruct (H1 l o Ho) as (o1 & Ho1 & He1).
  destruct (H2 l o1 Ho1) as (o2 & Ho2 & He2). exists o2. split; [done|].
  by eapply object_evolves_trans.
Qed.

End Evolve.
End EvolveFacts.

Module ResolverFacts.
Import CompFacts HeapFacts FrameFacts PropsFacts Spec EvolveFacts.

Section Resolver.
Context `{Collaborators}.
Context (locale : string) (usages : gmap string (list StringUsage)).

(** The three ways in which [resolveToken] ends. *)
Lemma resolveToken_cases l key str path log h r h' :
  resolveToken locale usages l key str path log h = (r, h') →
  (record_of usages str = None ∧ r = Throw TypeError ∧ h' = h) ∨
  ∃ tk idx u,
    TokenPattern.match_groups str = Some (tk, idx) ∧
    usage_at (default [] (usages !! tk)) idx = Some u ∧
    ((∃ e, formatTemplate locale tk (template u) (values u) h = (Throw e, h') ∧ r = Throw e) ∨
     (∃ m h1,
        formatTemplate locale tk (template u) (values u) h
          = (Ok (m, templateForMessageFormat locale tk (template u)), h1) ∧
        h' = Heap.set l key (Str m) h1 ∧ r = Ok (logged locale tk u path log))).
Proof.
  unfold resolveToken, record_of.
  destruct (TokenPattern.match_groups str) as [[tk idx]|]; [|intros [= <- <-]; by left].
  destruct (usage_at _ idx) as [u|] eqn:Hu; [|intros [= <- <-]; by left].
  intros Hb. right. exists tk, idx, u. split; [done|]. split; [done|].
  apply bind_cases in Hb as [(e & Hf & ->)|([m t] & h1 & Hf & Hok)]; [left; eauto|].
  right. pose proof Hf as Hf'.
  apply (formatTemplate_prefix _ _ _ _ h) in Hf' as [_ Ht]; [|done].
  rewrite (Ht m t eq_refl) in *. cbn in Hok. injection Hok as <- <-. by exists m, h1.
Qed.

Lemma resolveToken_Ok l key str path log h log' h' :
  resolveToken locale usages l key str path log h = (Ok log', h') →
  ∃ tk idx u m h1,
    TokenPattern.match_groups str = Some (tk, idx) ∧
    usage_at (default [] (usages !! tk)) idx = Some u ∧
    formatTemplate locale tk (template u) (values u) h
      = (Ok (m, templateForMessageFormat locale tk (template u)), h1) ∧
    h' = Heap.set l key (Str m) h1 ∧ log' = logged locale tk u path log.
Proof.
  intros Hr. apply resolveToken_cases in Hr as [(_ & ? & _)|(tk & idx & u & Hm & Hu & Hr)];
    [done|].
  destruct Hr as [(e & _ & ?)|(m & h1 & Hf & -> & [= ->])]; [done|].
  by exists tk, idx, u, m, h1.
Qed.

(** A dangling reference throws a TypeError and writes nothing. *)
Lemma resolveToken_dangling l key str path log h :
  record_of usages str = None →
  resolveToken locale usages l key str path log h = (Throw TypeError, h).
Proof.
  unfold record_of, resolveToken.
  destruct (TokenPattern.match_groups str) as [[tk idx]|]; [|done].
  by intros ->.
Qed.

Section Pass.
Context (h0 : heap) (Hwf : wf_keys h0).

Lemma resolveToken_evolves hs l key str path log h r h' :
  heap_evolves usages h0 hs → (key, Str str) ∈ Heap.entries hs l →
  TokenPattern.is_token str = true →
  heap_evolves usages h0 h →
  resolveToken locale usages l key str path log h = (r, h') →
  heap_evolves usages h0 h'.
Proof using Hwf.
  intros Hs Hin Htok Hh Hr.
  apply resolveToken_cases in Hr as [(_ & _ & ->)|(tk & idx & u & Hm & Hu & Hr)]; [done|].
  destruct Hr as [(e & Hf & _)|(m & h1 & Hf & -> & _)];
    apply (formatTemplate_prefix _ _ _ _ h) in Hf as [Hp _]; try done;
    pose proof (heap_evolves_prefix _ _ _ _ Hh Hp) as Hh'; [done|].
  intros l0 o0 Ho0. destruct (decide (l = l0)) as [->|Hne].
  2: { rewrite heap_set_lookup_ne by done. by apply Hh'. }
  destruct (Hh' l0 o0 Ho0) as (oc & Hoc & Hec).
  rewrite (heap_set_lookup_eq _ _ _ _ oc) by done. eexists. split; [done|].
  destruct (Hs l0 o0 Ho0) as (os & Hos & Hes).
  unfold Heap.entries in Hin. rewrite Hos in Hin.
  apply list_elem_of_lookup in Hin as [i Hi].
  destruct (Forall2_lookup_r _ _ _ _ _ (proj2 Hes) Hi) as ([k0 v0] & Hi0 & Hk & Hv).
  cbn in Hk, Hv. subst k0.
  apply (object_evolves_set _ _ _ i key v0);
    [by eapply (Forall_lookup_1 _ _ _ _ Hwf) | done..|].
  destruct Hv as [<-|[Hr _]]; [|done]. exists str. split; [done|]. split; [done|].
  unfold record_of. by rewrite Hm, Hu.
Qed.

(** The loop body keeps the invariant when the recursive call does. *)
Lemma replaceEntry_evolves (rec : val → list string → log_t → comp heap log_t)
    hs l path entry log h r h' :
  (∀ v p a s1 r1 s2, heap_evolves usages h0 s1 → rec v p a s1 = (r1, s2) →
                     heap_evolves usages h0 s2) →
  heap_evolves usages h0 hs → entry ∈ Heap.entries hs l →
  heap_evolves usages h0 h →
  replaceEntry rec locale usages l path entry log h = (r, h') →
  heap_evolves usages h0 h'.
Proof using Hwf.
  intros Hrec Hs Hin Hinv. destruct entry as [key value]. unfold replaceEntry.
  destruct value as [| | | |str|]; eauto.
  destruct (TokenPattern.is_token str) eqn:Htok; eauto.
  by apply (resolveToken_evolves hs l key str).
Qed.

(** Whatever way [replaceInObject] ends, the store differs from the first
    one in resolved leaves only. *)
Lemma replaceInObject_evolves fuel obj path log h r h' :
  heap_evolves usages h0 h →
  replaceInObject fuel locale usages obj path log h = (r, h') →
  heap_evolves usages h0 h'.
Proof using Hwf.
  revert obj path log h r h'.
  induction fuel as [|fuel IH]; intros obj path log h r h' Hinv; [by intros [= <- <-]|].
  cbn. destruct obj as [| | | | |l]; try by intros [= <- <-].
  intros Hl. apply (for_each_invariant (heap_evolves usages h0)) in Hl; [done| |done].
  intros entry a1 s1 r1 s2 Hin Hs1. apply (replaceEntry_evolves _ h); [|done..].
  intros v p a sa ra sb. apply IH.
Qed.

End Pass.
End Resolver.
End ResolverFacts.

(** ** The log is stored in fresh objects *)

Module LogFacts.
Import CompFacts HeapFacts FrameFacts PropsFacts Spec EvolveFacts ResolverFacts.

Lemma alloc_allocates o : allocates (Heap.alloc o).
Proof.
  intros h. exists (length h), (h ++ [o]). split; [done|].
  split; [by exists [o]|]. rewrite length_app. cbn. lia.
Qed.

Lemma alloc_array_allocates vs : allocates (alloc_array vs).
Proof. apply alloc_allocates. Qed.

Lemma alloc_each_grows {A : Type} (alloc : A → comp heap loc) xs h :
  (∀ x, allocates (alloc x)) →
  ∃ ls h', alloc_each alloc xs h = (Ok ls, h') ∧ h `prefix_of` h'.
Proof.
  intros Ha. unfold alloc_each.
  cut (∀ ls0 h, ∃ ls h',
         for_each (λ x ls, l ← alloc x; mret (ls ++ [l])) xs ls0 h = (Ok ls, h') ∧
         h `prefix_of` h'); [by intros Hc; apply Hc|].
  clear h. induction xs as [|x xs IH]; intros ls0 h; cbn [for_each].
  - by exists ls0, h.
  - rewrite !bind_run. destruct (Ha x h) as (l & h1 & -> & Hp & _). cbn.
    destruct (IH (ls0 ++ [l]) h1) as (ls & h' & -> & Hp'). exists ls, h'.
    split; [done | by etrans].
Qed.

Lemma alloc_occurrence_allocates o : allocates (alloc_occurrence o).
Proof.
  intros h. unfold alloc_occurrence. rewrite bind_run.
  destruct (alloc_array_allocates (Str <$> occ_path o) h) as (lp & h1 & -> & Hp & _).
  destruct (alloc_allocates (Object false [("values", occ_values o); ("path", Ref lp)]) h1)
    as (l & h2 & -> & Hp' & Hl).
  exists l, h2. split; [done|]. split; [by etrans|]. apply prefix_length in Hp. lia.
Qed.

Lemma alloc_record_allocates r : allocates (alloc_record r).
Proof.
  intros h. unfold alloc_record. rewrite bind_run.
  destruct (alloc_each_grows alloc_occurrence (log_occurrences r) h
              alloc_occurrence_allocates) as (ls & h1 & -> & Hp).
  rewrite bind_run.
  destruct (alloc_array_allocates (Ref <$> ls) h1) as (lo & h2 & -> & Hp1 & _).
  destruct (alloc_allocates
              (Object false [("template", Str (log_template r)); ("occurrences", Ref lo)]) h2)
    as (l & h3 & -> & Hp2 & Hl).
  exists l, h3. split; [done|]. split; [by etrans; [|etrans]|].
  apply prefix_length in Hp, Hp1. lia.
Qed.

Lemma alloc_log_allocates log : allocates (alloc_log log).
Proof.
  intros h. unfold alloc_log. rewrite bind_run.
  destruct (alloc_each_grows alloc_record log.*2 h alloc_record_allocates)
    as (ls & h1 & -> & Hp).
  destruct (alloc_allocates (Object false (zip log.*1 (Ref <$> ls))) h1)
    as (l & h2 & -> & Hp1 & Hl).
  exists l, h2. split; [done|]. split; [by etrans|]. apply prefix_length in Hp. lia.
Qed.

Section Pass.
Context `{Collaborators}.

(** The ways in which a pass ends: the walk throws; or the walk ends, the
    log is stored, and the root gets its [localeLog] or, not being an
    object, makes the assignment throw. *)
Lemma replaceLocaleStringReferences_cases lhr locale' st r st' :
  replaceLocaleStringReferences lhr locale' st = (r, st') →
  ∃ h', st' = State h' (formattedStringUsages st) (locale st) ∧
    ((∃ e, replaceInObject stack_limit locale' (formattedStringUsages st) lhr [] [] (store st)
             = (Throw e, h') ∧ r = Throw e) ∨
     (∃ log h1 llog h2,
        replaceInObject stack_limit locale' (formattedStringUsages st) lhr [] [] (store st)
          = (Ok log, h1) ∧
        alloc_log log h1 = (Ok llog, h2) ∧ h1 `prefix_of` h2 ∧ length h1 ≤ llog ∧
        ((∃ l, lhr = Ref l ∧ h' = Heap.set l "localeLog" (Ref llog) h2 ∧ r = Ok log) ∨
         ((∀ l, lhr ≠ Ref l) ∧ h' = h2 ∧ r = Throw TypeError)))).
Proof.
  unfold replaceLocaleStringReferences, on_store. rewrite bind_run.
  destruct (replaceInObject _ _ _ _ _ _ _) as [[log|e] h1] eqn:Hwalk.
  - rewrite bind_run. destruct (alloc_log_allocates log h1) as (llog & h2 & Ha & Hp & Hl).
    rewrite Ha. rewrite bind_run.
    destruct lhr as [| | | | |l]; cbn; intros [= <- <-]; eexists; (split; [done|]); right;
      exists log, h1, llog, h2; (do 4 (split; [done || lia|])); try (by right).
    left. by exists l.
  - intros [= <- <-]. eexists. split; [done|]. left. by exists e.
Qed.

Lemma replaceLocaleStringReferences_Ok lhr locale' st log st' :
  replaceLocaleStringReferences lhr locale' st = (Ok log, st') →
  ∃ l h1 llog h2,
    lhr = Ref l ∧
    replaceInObject stack_limit locale' (formattedStringUsages st) lhr [] [] (store st)
      = (Ok log, h1) ∧
    alloc_log log h1 = (Ok llog, h2) ∧ h1 `prefix_of` h2 ∧ length h1 ≤ llog ∧
    st' = State (Heap.set l "localeLog" (Ref llog) h2)
            (formattedStringUsages st) (locale st).
Proof.
  intros Hr. apply replaceLocaleStringReferences_cases in Hr as (h' & -> & Hr).
  destruct Hr as [(e & _ & ?)|(log' & h1 & llog & h2 & Hw & Ha & Hp & Hl & Hr)]; [done|].
  destruct Hr as [(l & -> & -> & [= ->])|(_ & _ & ?)]; [|done].
  by exists l, h1, llog, h2.
Qed.

End Pass.
End LogFacts.

(** ** Writing a property that is not an array index *)

Module PropsSetFacts.
Section PropsSetFacts.
Context {A : Type}.
Implicit Types (k : string) (ps : list (string * A)).

Lemma replace_lookup_ne k w ps i k' v :
  k' ≠ k → Props.replace k w ps !! i = Some (k', v) ↔ ps !! i = Some (k', v).
Proof.
  intros Hne. revert i. induction ps as [|[k0 v0] ps IH]; intros i; [done|].
  cbn. destruct (String.eqb_spec k k0) as [->|Hk].
  - destruct i as [|i]; cbn; [|done]. split; intros [= ? ?]; simplify_eq.
  - destruct i as [|i]; cbn; [done | apply IH].
Qed.

Lemma get_replace k w ps : Props.has k ps = true → Props.get k (Props.replace k w ps) = Some w.
Proof.
  unfold Props.has. induction ps as [|[k0 v0] ps IH]; cbn; [done|].
  destruct (String.eqb_spec k k0) as [->|Hk]; cbn.
  - by rewrite String.eqb_refl.
  - intros Hh. apply String.eqb_neq in Hk. rewrite Hk. by apply IH.
Qed.

Lemma get_snoc k w ps : Props.has k ps = false → Props.get k (ps ++ [(k, w)]) = Some w.
Proof.
  unfold Props.has. induction ps as [|[k0 v0] ps IH]; cbn.
  - by rewrite String.eqb_refl.
  - destruct (String.eqb k k0); [done | apply IH].
Qed.

Lemma get_set k w ps :
  JsString.array_index k = None → Props.get k (Props.set k w ps) = Some w.
Proof.
  intros Hk. unfold Props.set. rewrite Hk.
  destruct (Props.has k ps) eqn:Hh; [by apply get_replace | by apply get_snoc].
Qed.

Lemma props_set_lookup_ne k w ps i k' v :
  JsString.array_index k = None → k' ≠ k →
  ps !! i = Some (k', v) → Props.set k w ps !! i = Some (k', v).
Proof.
  intros Hk Hne Hi. unfold Props.set. rewrite Hk. destruct (Props.has k ps).
  - by apply replace_lookup_ne.
  - by apply lookup_app_l_Some.
Qed.

Lemma props_set_lookup_inv k w ps i k' v :
  JsString.array_index k = None → k' ≠ k →
  Props.set k w ps !! i = Some (k', v) → ps !! i = Some (k', v).
Proof.
  intros Hk Hne. unfold Props.set. rewrite Hk. destruct (Props.has k ps).
  - by apply replace_lookup_ne.
  - intros Hi. apply lookup_app_Some in Hi as [Hi|[_ Hi]]; [done|].
    apply list_lookup_singleton_Some in Hi as [_ ?]. by simplify_eq.
Qed.

End PropsSetFacts.
End PropsSetFacts.

(** ** The frame of a resolution pass *)

Module FrameOfPass.
Import CompFacts HeapFacts FrameFacts PropsFacts PropsSetFacts Spec EvolveFacts
  ResolverFacts LogFacts TokenFacts.

Lemma is_token_shape s : TokenPattern.is_token s = true → token_shape s.
Proof.
  intros Ht. apply is_token_iff in Ht as (a & c & d & -> & _ & Hne & Hd).
  by exists a, c, d.
Qed.

Lemma not_resolvable usages v :
  (∀ s, v = Str s → TokenPattern.is_token s = false) → ¬ resolvable usages v.
Proof. intros Hv (s & -> & Ht & _). rewrite (Hv s) in Ht; done. Qed.

Lemma heap_evolves_length usages (h0 h : heap) :
  heap_evolves usages h0 h → length h0 ≤ length h.
Proof.
  intros Hev. apply Nat.nlt_ge. intros Hlt.
  destruct (lookup_lt_is_Some_2 h0 (length h)) as [o Ho]; [done|].
  destruct (Hev _ _ Ho) as (o' & Ho' & _). apply lookup_lt_Some in Ho'. lia.
Qed.

Section Pass.
Context `{Collaborators}.

(** The store after a pass, however the pass ends: it differs from the
    first store in resolved leaves, in new objects and, when the pass
    returns, in the [localeLog] of the root. *)
Lemma pass_evolves lhr locale' st r st' :
  wf_keys (store st) →
  replaceLocaleStringReferences lhr locale' st = (r, st') →
  formattedStringUsages st' = formattedStringUsages st ∧ locale st' = locale st ∧
  ∃ h2,
    heap_evolves (formattedStringUsages st) (store st) h2 ∧
    ((store st' = h2 ∧ ∃ e, r = Throw e) ∨
     (∃ root llog log,
        lhr = Ref root ∧ r = Ok log ∧ length (store st) ≤ llog ∧
        store st' = Heap.set root "localeLog" (Ref llog) h2)).
Proof.
  intros Hwf Hr. apply replaceLocaleStringReferences_cases in Hr as (h' & -> & Hr). cbn.
  split; [done|]. split; [done|].
  destruct Hr as [(e & Hw & ->)|(log & h1 & llog & h2 & Hw & Ha & Hp & Hl & Hr)];
    apply (replaceInObject_evolves _ _ (store st) Hwf) in Hw; try apply heap_evolves_refl.
  - exists h'. split; [done|]. left. eauto.
  - exists h2. split; [by eapply heap_evolves_prefix|].
    destruct Hr as [(l & -> & -> & ->)|(_ & -> & ->)]; [right | left; eauto].
    exists l, llog, log. split; [done|]. split; [done|]. split; [|done].
    apply heap_evolves_length in Hw. lia.
Qed.

End Pass.
End FrameOfPass.

(** ** The frame of resolution *)

Module ResolutionFrame.
Import CompFacts HeapFacts FrameFacts PropsFacts PropsSetFacts Spec EvolveFacts
  ResolverFacts LogFacts TokenFacts FrameOfPass.

Section Pass.
Context `{Collaborators}.

(** C7.  A pass, whether it returns or throws, changes the store in two
    ways only: a property whose value was a string of the token pattern
    (which has a [!#] before a trailing [#] and digits) may hold another
    string, and, when the pass returns, the root has its [localeLog]
    property, a reference to a fresh object.  Every other property of every
    object keeps its place and its value: a string that is not of the
    pattern, such as one that ends in [#12] without [!#], and every value
    that is not a string.  The registry is not changed. *)
Theorem resolution_changes_only_tokens lhr locale' st r st' :
  wf_keys (store st) →
  replaceLocaleStringReferences lhr locale' st = (r, st') →
  (∀ s, TokenPattern.is_token s = true → token_shape s) ∧
  formattedStringUsages st' = formattedStringUsages st ∧
  (∀ log, r = Ok log →
     ∃ root llog,
       lhr = Ref root ∧ length (store st) ≤ llog ∧
       ∀ o, store st !! root = Some o →
         ∃ o', store st' !! root = Some o' ∧
               Props.get "localeLog" (props o') = Some (Ref llog)) ∧
  ∀ l o, store st !! l = Some o →
    ∃ o', store st' !! l = Some o' ∧ is_array o' = is_array o ∧
      (∀ i k v, props o !! i = Some (k, v) →
         (∀ s, v = Str s → TokenPattern.is_token s = false) →
         ¬ (lhr = Ref l ∧ k = "localeLog") →
         props o' !! i = Some (k, v)) ∧
      (∀ i k v', props o' !! i = Some (k, v') →
         (lhr = Ref l ∧ k = "localeLog") ∨
         ∃ v, props o !! i = Some (k, v) ∧
              (v' = v ∨
               ∃ s m, v = Str s ∧ TokenPattern.is_token s = true ∧ v' = Str m)).
Proof.
  intros Hwf Hr. split; [apply is_token_shape|].
  apply pass_evolves in Hr as (Hus & _ & h2 & Hev & Hst); [|done].
  split; [done|].
  assert (Hobj : ∀ l o o1, store st !! l = Some o → h2 !! l = Some o1 →
    object_evolves (formattedStringUsages st) o o1 →
    (∀ i k v, props o !! i = Some (k, v) →
       (∀ s, v = Str s → TokenPattern.is_token s = false) →
       props o1 !! i = Some (k, v)) ∧
    (∀ i k v', props o1 !! i = Some (k, v') →
       ∃ v, props o !! i = Some (k, v) ∧
            (v' = v ∨ ∃ s m, v = Str s ∧ TokenPattern.is_token s = true ∧ v' = Str m))).
  { intros l o o1 Ho Ho1 [_ Hf]. split.
    - intros i k v Hi Hv.
      destruct (Forall2_lookup_l _ _ _ _ _ Hf Hi) as ([k1 v1] & Hi1 & Hk & Hv1).
      cbn in Hk, Hv1. subst k1.
      destruct Hv1 as [->|[Hres _]]; [done|]. by apply not_resolvable in Hres.
    - intros i k v' Hi.
      destruct (Forall2_lookup_r _ _ _ _ _ Hf Hi) as ([k0 v0] & Hi0 & Hk & Hv0).
      cbn in Hk, Hv0. subst k0. exists v0. split; [done|].
      destruct Hv0 as [->|[(s & -> & Ht & _) [m ->]]]; [by left|]. right. by exists s, m. }
  destruct Hst as [[Hst (e & ->)]|(root & llog & log & -> & -> & Hllog & Hst)]; rewrite Hst.
  - split; [done|]. intros l o Ho. destruct (Hev l o Ho) as (o1 & Ho1 & Hoe).
    destruct (Hobj l o o1 Ho Ho1 Hoe) as [Hold Hnew].
    exists o1. split; [done|]. split; [by destruct Hoe|].
    split; [by intros i k v Hi Hv _; apply Hold|].
    intros i k v' Hi. right. by apply Hnew.
  - split.
    + intros ? [= <-]. exists root, llog. split; [done|]. split; [done|].
      intros o Ho. destruct (Hev root o Ho) as (o1 & Ho1 & Hoe).
      rewrite (heap_set_lookup_eq _ _ _ _ o1) by done. eexists. split; [done|].
      by apply get_set.
    + intros l o Ho. destruct (Hev l o Ho) as (o1 & Ho1 & Hoe).
      destruct (Hobj l o o1 Ho Ho1 Hoe) as [Hold Hnew].
      destruct (decide (root = l)) as [->|Hne].
      * rewrite (heap_set_lookup_eq _ _ _ _ o1) by done. eexists. split; [done|]. cbn.
        split; [by destruct Hoe|]. split.
        -- intros i k v Hi Hv Hk. apply props_set_lookup_ne; [done| |by apply Hold].
           intros ->. by apply Hk.
        -- intros i k v' Hi. destruct (decide (k = "localeLog")) as [->|Hk]; [by left|].
           right. apply props_set_lookup_inv in Hi; [|done..]. by apply Hnew.
      * rewrite heap_set_lookup_ne by done. exists o1. split; [done|].
        split; [by destruct Hoe|]. split; [by intros i k v Hi Hv _; apply Hold|].
        intros i k v' Hi. right. by apply Hnew.
Qed.

End Pass.

Lemma resolution_changes_only_tokens_witness :
  wf_keys (store (Demo.after_url Demo.report)) ∧
  (@replaceLocaleStringReferences Demo.collaborators (Ref 0) "en-XA"
     (Demo.after_url Demo.report)).1 = Ok Demo.pass_log ∧
  ∃ o', store Demo.pass.2 !! 3 = Some o' ∧ props o' !! 1 = Some ("score", Str "x#12").
Proof.
  assert (Hwf : wf_keys (store (Demo.after_url Demo.report))).
  { apply (bool_decide_unpack _). by vm_compute. }
  split; [exact Hwf|]. split; [by vm_compute|].
  destruct (@resolution_changes_only_tokens Demo.collaborators (Ref 0) "en-XA"
              (Demo.after_url Demo.report) Demo.pass.1 Demo.pass.2 Hwf)
    as (_ & _ & _ & Hframe); [apply surjective_pairing|].
  destruct (Hframe 3 _ eq_refl) as (o' & Ho' & _ & Hkeep & _).
  exists o'. split; [exact Ho'|]. apply Hkeep; [done| |].
  - intros s [= <-]. reflexivity.
  - intros [[=] _].
Defined.

End ResolutionFrame.

(** ** Dangling references *)

Module Dangling.
Import CompFacts HeapFacts FrameFacts PropsFacts PropsSetFacts Spec EvolveFacts
  ResolverFacts LogFacts TokenFacts FrameOfPass.

Section Pass.
Context `{Collaborators}.
Context (locale : string) (usages : gmap string (list StringUsage)).

Lemma dangling_not_resolvable v : dangling usages v → ¬ resolvable usages v.
Proof.
  intros (s & -> & _ & Hnone) (s' & [= <-] & _ & Hsome). rewrite Hnone in Hsome.
  by destruct Hsome.
Qed.

(** The loop body throws at a dangling reference, in any state, and writes
    nothing. *)
Lemma replaceEntry_dangling rec l path key v log h :
  dangling usages v →
  replaceEntry rec locale usages l path (key, v) log h = (Throw TypeError, h).
Proof.
  intros (str & -> & Htok & Hnone). cbn. rewrite Htok. by apply resolveToken_dangling.
Qed.

(** An entry that resolution cannot change is in every later snapshot. *)
Lemma entry_kept h0 h l o k v :
  heap_evolves usages h0 h → h0 !! l = Some o → (k, v) ∈ props o →
  ¬ resolvable usages v → (k, v) ∈ Heap.entries h l.
Proof.
  intros Hev Ho Hin Hnr. destruct (Hev l o Ho) as (o' & Ho' & _ & Hf).
  unfold Heap.entries. rewrite Ho'. apply list_elem_of_lookup in Hin as [i Hi].
  destruct (Forall2_lookup_l _ _ _ _ _ Hf Hi) as ([k' v'] & Hi' & Hk & Hv).
  cbn in Hk, Hv. subst k'. destruct Hv as [->|[? _]]; [|done].
  by eapply list_elem_of_lookup_2.
Qed.

Lemma reach_dangling_throws h0 fuel obj path log h l o k v :
  wf_keys h0 → heap_evolves usages h0 h →
  reach h0 obj l → h0 !! l = Some o → (k, v) ∈ props o → dangling usages v →
  ∃ e h', replaceInObject fuel locale usages obj path log h = (Throw e, h').
Proof.
  intros Hwf. revert obj path log h.
  induction fuel as [|fuel IH]; intros obj path log h Hev Hreach Ho Hin Hd;
    [by eexists _, _|].
  assert (Hloop : ∀ ob x,
    obj = Ref ob → x ∈ Heap.entries h ob →
    (∀ a1 s1, heap_evolves usages h0 s1 →
       ∃ e s2, replaceEntry (replaceInObject fuel locale usages) locale usages ob path x a1 s1
               = (Throw e, s2)) →
    ∃ e h', replaceInObject (S fuel) locale usages obj path log h = (Throw e, h')).
  { intros ob x -> Hx Hthrow. cbn.
    apply list_elem_of_split in Hx as (pre & post & Hsplit). rewrite Hsplit.
    apply (for_each_throw (heap_evolves usages h0)); [|done..].
    intros y a1 s1 r1 s2 Hy Hs1. apply (replaceEntry_evolves _ _ h0 Hwf _ h); [|done| |done].
    - intros v' p a sa ra sb. by apply replaceInObject_evolves.
    - rewrite Hsplit. apply elem_of_app. by left. }
  inversion Hreach as [l' o' Hl'|l' o' k' v' l'' Hl' Hin' Hreach']; subst.
  - apply (Hloop l (k, v)); [done| |].
    + apply (entry_kept h0 _ _ o); [done..|]. by apply dangling_not_resolvable.
    + intros a1 s1 _. eexists _, _. by apply replaceEntry_dangling.
  - apply (Hloop l' (k', v')); [done| |].
    + apply (entry_kept h0 _ _ o'); [done..|].
      intros (str & -> & _). inversion Hreach'.
    + intros a1 s1 Hs1. destruct v' as [| | | | |l1]; try by inversion Hreach'.
      cbn. by eapply IH.
Qed.

End Pass.

Section Claim.
Context `{Collaborators}.

(** C8.  If the tree under [lhr] holds a string of the token pattern whose
    key and index have no record in the registry, the pass throws: the loop
    body throws a TypeError at that entry in whatever state it is reached,
    and the pass as a whole ends in an exception instead of a result.  The
    dangling reference is still in its place afterwards. *)
Theorem dangling_reference_throws lhr locale' st l o k v :
  wf_keys (store st) →
  reach (store st) lhr l → store st !! l = Some o → (k, v) ∈ props o →
  dangling (formattedStringUsages st) v →
  (∀ rec l' path log h,
     replaceEntry rec locale' (formattedStringUsages st) l' path (k, v) log h
     = (Throw TypeError, h)) ∧
  ∃ e st', replaceLocaleStringReferences lhr locale' st = (Throw e, st') ∧
           (k, v) ∈ Heap.entries (store st') l.
Proof.
  intros Hwf Hreach Ho Hin Hd. split.
  - intros. by apply replaceEntry_dangling.
  - destruct (replaceLocaleStringReferences lhr locale' st) as [r st'] eqn:Hr.
    pose proof Hr as Hcases.
    apply replaceLocaleStringReferences_cases in Hcases as (h' & -> & Hcases).
    destruct (reach_dangling_throws locale' (formattedStringUsages st) (store st) stack_limit
                lhr [] [] (store st) l o k v) as (e & h1 & Hthrow); try done.
    { apply heap_evolves_refl. }
    rewrite Hthrow in Hcases.
    destruct Hcases as [(e' & [= <- <-] & ->)|(? & ? & ? & ? & ? & _)]; [|done].
    exists e, (State h1 (formattedStringUsages st) (locale st)). split; [done|]. cbn.
    apply (entry_kept (formattedStringUsages st) (store st) _ _ o); [|done..|].
    + apply (replaceInObject_evolves _ _ (store st) Hwf) in Hthrow; [done|].
      apply heap_evolves_refl.
    + by apply dangling_not_resolvable.
Qed.

End Claim.

Lemma dangling_reference_throws_witness :
  wf_keys Demo.report ∧
  reach Demo.report (Ref 0) 2 ∧
  Demo.report !! 2 = Some (Object false [("displayValue", Str Demo.url_token)]) ∧
  dangling ∅ (Str Demo.url_token) ∧
  ∃ e st', @replaceLocaleStringReferences Demo.collaborators (Ref 0) "fr"
             (@initial Demo.collaborators Demo.report) = (Throw e, st') ∧
           ("displayValue", Str Demo.url_token) ∈ Heap.entries (store st') 2.
Proof.
  assert (Hwf : wf_keys Demo.report) by (apply (bool_decide_unpack _); by vm_compute).
  assert (Hreach : reach Demo.report (Ref 0) 2).
  { eapply (reach_child _ 0 _ "audits" (Ref 1)); [reflexivity | by left |].
    eapply (reach_child _ 1 _ "a" (Ref 2)); [reflexivity | by left |].
    by eapply reach_here. }
  assert (Hd : dangling ∅ (Str Demo.url_token)).
  { exists Demo.url_token. split; [done|]. split; by vm_compute. }
  split; [exact Hwf|]. split; [exact Hreach|]. split; [reflexivity|]. split; [exact Hd|].
  eapply (@dangling_reference_throws Demo.collaborators (Ref 0) "fr"
            (@initial Demo.collaborators Demo.report) 2 _ "displayValue" (Str Demo.url_token));
    [exact Hwf | exact Hreach | reflexivity | by left | exact Hd].
Defined.

End Dangling.

(** ** The module variable [locale] *)

Module LocaleVariable.
Import Spec CompFacts.

Section Claim.
Context `{Collaborators}.

(** C10.  [setLocale] changes the module variable [locale] and nothing else,
    and neither the recorder nor a resolution pass reads that variable: run
    from a state with any other value of it, each ends the same way, with
    the same token, log or exception, and leaves the same store and
    registry. *)
Theorem setLocale_not_observed newLocale st :
  (∃ l, setLocale newLocale st = with_locale l st) ∧
  (∀ l filename fileStrings template values,
     formatFn filename fileStrings template values (with_locale l st) =
     let '(r, st') := formatFn filename fileStrings template values st in
     (r, with_locale l st')) ∧
  (∀ l lhr locale',
     replaceLocaleStringReferences lhr locale' (with_locale l st) =
     let '(r, st') := replaceLocaleStringReferences lhr locale' st in
     (r, with_locale l st')).
Proof.
  split; [|split].
  - destruct st as [h us l0]. destruct newLocale as [l|]; cbn.
    + destruct (JsString.truthy l); cbn; by eexists.
    + by exists l0.
  - intros l filename fileStrings template values. unfold formatFn.
    destruct (locate _ _) as [keyname|]; [|done].
    by destruct (JsString.truthy keyname).
  - intros l lhr locale'. unfold replaceLocaleStringReferences, on_store. cbn.
    match goal with |- context [let '(r, h) := ?m in _] => by destruct m end.
Qed.

End Claim.
End LocaleVariable.

(** ** The formatter *)

Module FormatterFacts.
Import Spec.

Section Claim.
Context `{Collaborators}.

(** C6.  For the pseudo-locale [en-XA] the formatter hands [de-DE] to
    [MessageFormat] while the template text is the one that the catalog of
    [en-XA] has for the key (the default template when it has none); for
    every other locale [MessageFormat] receives the requested locale. *)
Theorem pseudo_locale_formats_as_de_DE key template values h :
  formatTemplate "en-XA" key template values h =
    (v ← preprocessMessageValues template values;
     m ← format_message (templateForMessageFormat "en-XA" key template) "de-DE" v;
     mret (m, templateForMessageFormat "en-XA" key template)) h ∧
  templateForMessageFormat "en-XA" key template =
    match localized "en-XA" key with
    | Some e => if JsString.truthy (message e) then message e else template
    | None => template
    end ∧
  (∀ t l v h', format_message t l v h' = (MessageFormat_format t l formats h' v, h')) ∧
  ∀ locale, locale ≠ "en-XA" →
    formatTemplate locale key template values h =
      (v ← preprocessMessageValues template values;
       m ← format_message (templateForMessageFormat locale key template) locale v;
       mret (m, templateForMessageFormat locale key template)) h.
Proof.
  split; [done|]. split; [|split; [done|]].
  - unfold templateForMessageFormat, localized.
    destruct (LOCALES !! "en-XA") as [c|]; cbn; [|done]. by destruct (c !! key).
  - intros locale Hne. unfold formatTemplate, localeForMessageFormat.
    apply String.eqb_neq in Hne. by rewrite Hne.
Qed.

End Claim.

Lemma pseudo_locale_formats_as_de_DE_witness :
  "fr" ≠ "en-XA" ∧
  @formatTemplate Demo.collaborators "fr" Demo.url_key "URL" Undefined []
    = (Ok ("URL", "URL"), []) ∧
  @formatTemplate Demo.collaborators "en-XA" Demo.url_key "URL" Undefined []
    = (Ok ("[URL one]", "[URL one]"), []).
Proof.
  destruct (@pseudo_locale_formats_as_de_DE Demo.collaborators Demo.url_key "URL" Undefined [])
    as (Hxa & _ & _ & Hother).
  split; [done|]. split.
  - rewrite (Hother "fr") by done. reflexivity.
  - rewrite Hxa. reflexivity.
Defined.

End FormatterFacts.

(** ** Reading a property after a write *)

Module PropsGetSet.
Import PropsSetFacts.
Section PropsGetSet.
Context {A : Type}.
Implicit Types (k : string) (ps : list (string * A)).

Lemma get_insert_index n k w ps :
  Props.has k ps = false → Props.get k (Props.insert_index n k w ps) = Some w.
Proof.
  unfold Props.has. induction ps as [|[k0 v0] ps IH]; cbn [Props.get Props.insert_index].
  - by rewrite String.eqb_refl.
  - destruct (String.eqb k k0) eqn:Hk; [done|]. intros Hh.
    destruct (JsString.array_index k0) as [n'|]; [destruct (n <? n')%nat|];
      cbn [Props.get]; rewrite ?String.eqb_refl, ?Hk; auto.
Qed.

Lemma get_insert_index_ne n k w ps k' :
  k' ≠ k → Props.get k' (Props.insert_index n k w ps) = Props.get k' ps.
Proof.
  intros Hne. apply String.eqb_neq in Hne.
  induction ps as [|[k0 v0] ps IH]; cbn [Props.get Props.insert_index]; [by rewrite Hne|].
  destruct (JsString.array_index k0) as [n'|]; [destruct (n <? n')%nat|];
    cbn [Props.get]; rewrite ?Hne; try done.
  by rewrite IH.
Qed.

Lemma get_replace_ne k w ps k' :
  k' ≠ k → Props.get k' (Props.replace k w ps) = Props.get k' ps.
Proof.
  intros Hne. induction ps as [|[k0 v0] ps IH]; cbn; [done|].
  destruct (String.eqb_spec k k0) as [->|Hk]; cbn.
  - apply String.eqb_neq in Hne. by rewrite Hne.
  - by rewrite IH.
Qed.

Lemma get_snoc_ne k w ps k' :
  k' ≠ k → Props.get k' (ps ++ [(k, w)]) = Props.get k' ps.
Proof.
  intros Hne. apply String.eqb_neq in Hne.
  induction ps as [|[k0 v0] ps IH]; cbn; [by rewrite Hne|]. by rewrite IH.
Qed.

Lemma props_get_set_eq k w ps : Props.get k (Props.set k w ps) = Some w.
Proof.
  unfold Props.set. destruct (Props.has k ps) eqn:Hh; [by apply get_replace|].
  destruct (JsString.array_index k); [by apply get_insert_index | by apply get_snoc].
Qed.

Lemma props_get_set_ne k w ps k' :
  k' ≠ k → Props.get k' (Props.set k w ps) = Props.get k' ps.
Proof.
  intros Hne. unfold Props.set. destruct (Props.has k ps); [by apply get_replace_ne|].
  destruct (JsString.array_index k); [by apply get_insert_index_ne | by apply get_snoc_ne].
Qed.

End PropsGetSet.
End PropsGetSet.

(** ** The template that the formatter uses *)

Module TemplateFallback.
Import Spec CompFacts ResolverFacts PropsGetSet.

Section Claim.
Context `{Collaborators}.

(** C5, as amended.  The formatter uses the text of the catalog entry for
    the locale and key when there is one and its text is not empty, and the
    default template otherwise; the lookup never throws, so formatting fails
    only if preprocessing or [MessageFormat] fails on the text that is used.
    That text is what the formatter returns and what a resolved token leaves
    in the [template] field of the log record of its key; it is not empty
    when the default template is not empty. *)
Theorem template_fallback locale key dflt values h :
  let used := templateForMessageFormat locale key dflt in
  (∀ e, localized locale key = Some e → message e ≠ "" → used = message e) ∧
  (∀ e, localized locale key = Some e → message e = "" → used = dflt) ∧
  (localized locale key = None → used = dflt) ∧
  (dflt ≠ "" → used ≠ "") ∧
  formatTemplate locale key dflt values h =
    (v ← preprocessMessageValues dflt values;
     m ← format_message used (localeForMessageFormat locale) v;
     mret (m, used)) h ∧
  ∀ usages l k str path log log1 h1,
    resolveToken locale usages l k str path log h = (Ok log1, h1) →
    ∃ tk idx u,
      TokenPattern.match_groups str = Some (tk, idx) ∧
      usage_at (default [] (usages !! tk)) idx = Some u ∧
      log_template <$> Props.get tk log1
        = Some (templateForMessageFormat locale tk (template u)).
Proof.
  assert (Hused : templateForMessageFormat locale key dflt =
            match localized locale key with
            | Some e => if JsString.truthy (message e) then message e else dflt
            | None => dflt
            end).
  { unfold templateForMessageFormat, localized.
    destruct (LOCALES !! locale) as [c|]; cbn; [|done]. by destruct (c !! key). }
  cbn zeta. split; [|split; [|split; [|split; [|split; [done|]]]]].
  - rewrite Hused. intros e -> Hne. by destruct (message e).
  - rewrite Hused. by intros e -> ->.
  - rewrite Hused. by intros ->.
  - rewrite Hused. intros Hne. destruct (localized locale key) as [e|]; [|done].
    by destruct (message e).
  - intros usages l k str path log log1 h1 Hr.
    apply resolveToken_Ok in Hr as (tk & idx & u & m & h' & Hm & Hu & _ & _ & ->).
    exists tk, idx, u. unfold logged. by rewrite props_get_set_eq.
Qed.

End Claim.

Lemma template_fallback_witness :
  "URL" ≠ "" ∧ @localized Demo.collaborators "fr" Demo.url_key = None ∧
  @templateForMessageFormat Demo.collaborators "fr" Demo.url_key "URL" = "URL" ∧
  @templateForMessageFormat Demo.collaborators "fr" Demo.url_key "URL" ≠ "".
Proof.
  destruct (@template_fallback Demo.collaborators "fr" Demo.url_key "URL" Undefined [])
    as (_ & _ & Hnone & Hne & _).
  split; [done|]. split; [reflexivity|]. split.
  - apply Hnone. reflexivity.
  - apply Hne. done.
Defined.

(** C5 as stated fails: a caller may register an empty message text, and
    then the template that is used and recorded in the log is empty. *)
Lemma template_field_may_be_empty :
  match @formatFn Demo.collaborators "/lh/a.js" Demo.empty_strings "" Undefined
          (@initial Demo.collaborators Demo.empty_report) with
  | (Ok token, st) =>
      token = Demo.empty_key +:+ "#0" ∧
      match @replaceLocaleStringReferences Demo.collaborators (Ref 0) "fr" st with
      | (Ok log, _) => log_template <$> Props.get Demo.empty_key log = Some ""
      | (Throw _, _) => False
      end
  | (Throw _, _) => False
  end.
Proof. by vm_compute. Qed.

End TemplateFallback.

(** ** The recorder and the empty key name *)

Module RecorderSlip.
Import Spec PropsFacts.

Section Claim.
Context `{Collaborators}.

(** [find] returns nothing exactly when no key of the merged catalog holds
    the text. *)
Lemma locate_None fileStrings template :
  locate fileStrings template = None ↔
  ∀ k, Props.get k (mergedStrings fileStrings) ≠ Some template.
Proof.
  unfold locate. generalize (mergedStrings fileStrings) as merged. intros merged.
  assert (Hfind : ∀ ks : list string,
            List.find (λ key, bool_decide (Props.get key merged = Some template)) ks = None ↔
            ∀ k, k ∈ ks → Props.get k merged ≠ Some template).
  { induction ks as [|k0 ks IH]; cbn.
    - split; [by intros _ k Hk; apply elem_of_nil in Hk | done].
    - case_bool_decide as Hk0.
      + split; [done|]. intros Hall. destruct (Hall k0); [by left | done].
      + rewrite IH. split.
        * intros Hall k [->|Hk]%elem_of_cons; [done | by apply Hall].
        * intros Hall k Hk. apply Hall. by right. }
  rewrite Hfind. split.
  - intros Hall k Hget. apply (Hall k); [|done].
    apply get_Some_elem in Hget. unfold Props.keys.
    apply list_elem_of_fmap. by exists (k, template).
  - intros Hall k _. apply Hall.
Qed.

(** The recorder throws in two cases only, always with the same message,
    and then leaves the registry and the store as they were. *)
Lemma formatFn_throws filename fileStrings template values st e st' :
  formatFn filename fileStrings template values st = (Throw e, st') →
  e = Error ("Could not locate: " +:+ template) ∧ st' = st ∧
  ((∀ k, Props.get k (mergedStrings fileStrings) ≠ Some template) ∨
   locate fileStrings template = Some "").
Proof.
  unfold formatFn. destruct (locate fileStrings template) as [keyname|] eqn:Hloc.
  - destruct keyname as [|c keyname]; cbn; [|done].
    intros [= <- <-]. split; [done|]. split; [done|]. by right.
  - intros [= <- <-]. split; [done|]. split; [done|]. left. by apply locate_None.
Qed.

(** C2 at the failing input.  The caller's catalog has the text [foo] under
    the empty key name: the text is registered, and the recorder throws
    [Could not locate: foo] all the same (leaving the state as it was). *)
Theorem format_rejects_text_under_empty_key filename values st :
  Props.get "" (mergedStrings [("", "foo")]) = Some "foo" ∧
  formatFn filename [("", "foo")] "foo" values st
  = (Throw (Error "Could not locate: foo"), st).
Proof. split; reflexivity. Qed.

End Claim.
End RecorderSlip.

(** ** The loop body at a token *)

Module OccurrenceFacts.
Import Spec CompFacts HeapFacts FrameFacts ResolverFacts LogFacts PropsGetSet.

#[local] Arguments resolveToken : simpl never.
#[local] Arguments replaceInObject : simpl never.

Section Claim.
Context `{Collaborators}.
Context (locale : string) (usages : gmap string (list StringUsage)).



End Claim.

End OccurrenceFacts.

(** ** Minting tokens *)

Module Minting.
Import Spec StringFacts DecimalFacts' TokenFacts CompFacts.

#[local] Arguments resolveToken : simpl never.

Section Claim.
Context `{Collaborators}.
Context (filename : string) (fileStrings : list (string * string)) (template : string).

Lemma truthy_nonempty s : s ≠ "" → JsString.truthy s = true.
Proof. by destruct s. Qed.

(** One call of the recorder on a template that it locates. *)
Lemma formatFn_Ok keyname v st :
  locate fileStrings template = Some keyname → keyname ≠ "" →
  let key := fileScopedKey filename keyname in
  let old := default [] (formattedStringUsages st !! key) in
  formatFn filename fileStrings template v st =
    (Ok (key +:+ "#" +:+ JsString.of_nat (length old)),
     State (store st) (<[key := old ++ [Usage key template v]]> (formattedStringUsages st))
       (locale st)).
Proof.
  intros Hloc Hne. cbn. unfold formatFn. rewrite Hloc, (truthy_nonempty _ Hne). cbn.
  rewrite bind_run. unfold push_usage. cbn.
  rewrite length_app. cbn. by replace (_ + 1 - 1) with
    (length (default [] (formattedStringUsages st !! fileScopedKey filename keyname))) by lia.
Qed.

Lemma mint_Ok keyname vs st :
  locate fileStrings template = Some keyname → keyname ≠ "" →
  let key := fileScopedKey filename keyname in
  let old := default [] (formattedStringUsages st !! key) in
  ∃ st',
    mint filename fileStrings template vs st =
      (Ok (imap (λ i _, key +:+ "#" +:+ JsString.of_nat (length old + i)) vs), st') ∧
    store st' = store st ∧ locale st' = locale st ∧
    default [] (formattedStringUsages st' !! key) = old ++ (Usage key template <$> vs) ∧
    ∀ key', key' ≠ key → formattedStringUsages st' !! key' = formattedStringUsages st !! key'.
Proof.
  intros Hloc Hne. cbn. revert st. induction vs as [|v vs IH]; intros st.
  - exists st. by rewrite app_nil_r.
  - cbn [mint]. rewrite bind_run, (formatFn_Ok keyname) by done. cbn [fst snd].
    set (key := fileScopedKey filename keyname).
    set (old := default [] (formattedStringUsages st !! key)).
    destruct (IH (State (store st) (<[key := old ++ [Usage key template v]]>
                                     (formattedStringUsages st)) (locale st)))
      as (st' & Hm & Hs & Hl & Hu & Ho).
    cbn in Hm, Hs, Hl, Hu, Ho. fold key in Hm, Hu, Ho.
    rewrite lookup_insert_eq in Hm, Hu. cbn in Hm, Hu.
    exists st'. rewrite bind_run, Hm. cbn. split; [|split; [done|split; [done|split]]].
    + unfold mret, comp_ret. do 3 f_equal.
      * by rewrite Nat.add_0_r.
      * apply imap_ext. intros i x _. cbn. rewrite length_app. cbn.
        do 3 f_equal. lia.
    + by rewrite Hu, <- (assoc_L (++)).
    + intros key' Hk. rewrite Ho by done. by apply lookup_insert_ne.
Qed.

Lemma no_line_terminator_keyname keyname :
  JsString.no_line_terminator (fileScopedKey filename keyname) = true →
  JsString.no_line_terminator keyname = true.
Proof.
  unfold fileScopedKey, JsString.no_line_terminator. rewrite !string_forallb_app.
  intros Hk. by repeat (apply andb_prop in Hk as [_ Hk]).
Qed.

(** C1, as amended.  Let the recorder locate the template under a key name
    that is not empty, and let the key of its usages have no line
    terminator.  Then [format], called once for each of the values [vs],
    returns the tokens [key#n], [key#n+1], ... in call order, where [n] is
    the number of records that the registry held under the key (the indices
    are 0, 1, ... when it held none); the registry holds the new records
    after the old ones in call order and is unchanged under other keys; and
    each token is of the token pattern, refers to its own record, and is
    resolved by formatting the template with the values of that record. *)
Theorem mint_round_trip keyname vs st :
  locate fileStrings template = Some keyname → keyname ≠ "" →
  let key := fileScopedKey filename keyname in
  let old := default [] (formattedStringUsages st !! key) in
  JsString.no_line_terminator key = true →
  ∃ st',
    mint filename fileStrings template vs st =
      (Ok (imap (λ i _, key +:+ "#" +:+ JsString.of_nat (length old + i)) vs), st') ∧
    default [] (formattedStringUsages st' !! key) = old ++ (Usage key template <$> vs) ∧
    (∀ key', key' ≠ key →
       formattedStringUsages st' !! key' = formattedStringUsages st !! key') ∧
    ∀ i v, vs !! i = Some v →
      let token := key +:+ "#" +:+ JsString.of_nat (length old + i) in
      TokenPattern.is_token token = true ∧
      record_of (formattedStringUsages st') token = Some (Usage key template v) ∧
      ∀ rec locale l path k log h,
        replaceEntry rec locale (formattedStringUsages st') l path (k, Str token) log h =
          ('(m, t) ← formatTemplate locale key template v;
           modify (Heap.set l k (Str m));;
           mret (Props.set key
                   (LogRecord t (default [] (log_occurrences <$> Props.get key log)
                                   ++ [Occurrence v (path ++ [k])])) log)) h.
Proof.
  intros Hloc Hne key old Hnl.
  destruct (mint_Ok keyname vs st Hloc Hne) as (st' & Hm & _ & _ & Hu & Ho).
  fold key in Hm, Hu, Ho. fold old in Hm, Hu.
  exists st'. split; [done|]. split; [done|]. split; [done|].
  intros i v Hi token.
  assert (Hmatch : TokenPattern.match_groups token
                   = Some (key, JsString.of_nat (length old + i))).
  { apply match_groups_token; [done | apply of_nat_nonempty | apply of_nat_digits]. }
  assert (Hrec : usage_at (default [] (formattedStringUsages st' !! key))
                   (JsString.of_nat (length old + i)) = Some (Usage key template v)).
  { unfold usage_at. rewrite array_index_of_nat, Hu.
    rewrite lookup_app_r by lia. replace (length old + i - length old) with i by lia.
    by rewrite list_lookup_fmap, Hi. }
  assert (Htok : TokenPattern.is_token token = true).
  { apply is_token_minted;
      [by apply no_line_terminator_keyname | apply of_nat_nonempty | apply of_nat_digits]. }
  split; [done|]. split; [by unfold record_of; rewrite Hmatch|].
  intros rec locale l path k log h. cbn [replaceEntry]. rewrite Htok.
  unfold resolveToken. by rewrite Hmatch, Hrec.
Qed.

End Claim.

Lemma mint_round_trip_witness :
  @locate [] "URL" = Some "columnURL" ∧ "columnURL" ≠ "" ∧
  JsString.no_line_terminator (@fileScopedKey Demo.collaborators "/lh/a.js" "columnURL") = true ∧
  ∃ st', @mint Demo.collaborators "/lh/a.js" [] "URL" [Undefined; Null]
           (@initial Demo.collaborators [])
         = (Ok [Demo.url_key +:+ "#0"; Demo.url_key +:+ "#1"], st') ∧
         default [] (formattedStringUsages st' !! Demo.url_key)
         = [Usage Demo.url_key "URL" Undefined; Usage Demo.url_key "URL" Null].
Proof.
  split; [reflexivity|]. split; [done|]. split; [reflexivity|].
  destruct (@mint_round_trip Demo.collaborators "/lh/a.js" [] "URL" "columnURL"
              [Undefined; Null] (@initial Demo.collaborators []) eq_refl ltac:(done) eq_refl)
    as (st' & Hm & Hu & _).
  exists st'. split; [exact Hm | exact Hu].
Defined.

(** C1 as stated fails: the recorder accepts a template whose key name has
    a line feed, and the token that it returns is not of the token pattern,
    so a pass leaves it in the report and logs nothing. *)
Lemma minted_token_left_unresolved :
  match @formatFn Demo.collaborators "/lh/a.js" Demo.newline_strings "Hello" Undefined
          (@initial Demo.collaborators Demo.newline_report) with
  | (Ok token, st) =>
      token = Demo.newline_token ∧ TokenPattern.is_token token = false ∧
      match @replaceLocaleStringReferences Demo.collaborators (Ref 0) "fr" st with
      | (Ok log, st') =>
          log = [] ∧ Heap.get (store st') 0 "title" = Str Demo.newline_token
      | (Throw _, _) => False
      end
  | (Throw _, _) => False
  end.
Proof. by vm_compute. Qed.

End Minting.

(** ** The preprocessor on a flat object *)

Module FlatFacts.
Import Spec CompFacts HeapFacts.

Lemma clone_not_ref fuel stack v h :
  is_ref v = false → Json.clone fuel stack v h = (Ok (json_value v), h).
Proof. destruct fuel, v as [| | |[]| |]; done. Qed.

Lemma json_props_app array ps1 ps2 :
  json_props array (ps1 ++ ps2) = json_props array ps1 ++ json_props array ps2.
Proof. apply omap_app. Qed.

Lemma clone_props_flat fuel stack array ps h :
  Forall (λ p : string * val, is_ref p.2 = false) ps →
  Json.clone_props (Json.clone fuel stack) array ps h = (Ok (json_props array ps), h).
Proof.
  unfold Json.clone_props. induction ps as [|[k v] ps IH] using rev_ind; intros Hflat; [done|].
  apply Forall_app in Hflat as [Hps Hv]. rewrite Forall_singleton in Hv. cbn in Hv.
  rewrite for_each_app, bind_run, IH by done. cbn [for_each].
  rewrite json_props_app. generalize (json_props array ps) as J. intros J.
  unfold json_props. cbn [omap list_omap]. rewrite !bind_run.
  destruct array.
  - destruct (JsString.array_index k); cbn; [|by rewrite app_nil_r].
    rewrite bind_run, clone_not_ref by (by destruct v). done.
  - destruct v as [| | | | |l]; try done; cbn; rewrite ?app_nil_r; try done;
      by rewrite ?bind_run, ?clone_not_ref by done.
Qed.

Lemma clone_flat fuel l o h :
  h !! l = Some o → flat o →
  Json.clone (S fuel) [] (Ref l) h
  = (Ok (Ref (length h)), h ++ [Object (is_array o) (json_props (is_array o) (props o))]).
Proof.
  intros Ho Hflat. cbn. rewrite bool_decide_false by set_solver. rewrite Ho, !bind_run.
  rewrite (clone_props_flat fuel [l] (is_array o) (props o) h Hflat). done.
Qed.

Lemma json_props_not_ref array ps :
  Forall (λ p : string * val, is_ref p.2 = false) ps →
  Forall (λ p : string * val, is_ref p.2 = false) (json_props array ps).
Proof.
  intros Hflat. induction Hflat as [|[k v] ps Hv _ IH]; [constructor|].
  unfold json_props. cbn [omap list_omap]. fold (json_props array ps). cbn in Hv.
  destruct array.
  - destruct (JsString.array_index k); [|done]. constructor; [|done].
    by destruct v as [| | |[]| |].
  - destruct v as [| | |[]| |]; try done; by constructor.
Qed.

Section Flat.
Context `{Collaborators}.

Lemma to_number_not_ref h v : is_ref v = false → to_number h v = to_number [] v.
Proof. by destruct v. Qed.

Lemma props_set_not_ref k n (ps : list (string * val)) :
  Forall (λ p : string * val, is_ref p.2 = false) ps →
  Forall (λ p : string * val, is_ref p.2 = false) (Props.set k (Num n) ps).
Proof.
  intros Hps. unfold Props.set. destruct (Props.has k ps).
  - induction Hps as [|[k' v'] ps Hv Hps IH]; cbn; [constructor|].
    destruct (String.eqb k k'); by constructor.
  - destruct (JsString.array_index k) as [i|].
    + induction Hps as [|[k' v'] ps Hv Hps IH]; cbn [Props.insert_index];
        [by repeat constructor|].
      destruct (JsString.array_index k') as [i'|]; [destruct (i <? i')%nat|];
        repeat (apply Forall_cons; split); done.
    + apply Forall_app. by repeat constructor.
Qed.

Lemma get_not_ref k (ps : list (string * val)) :
  Forall (λ p : string * val, is_ref p.2 = false) ps →
  is_ref (default Undefined (Props.get k ps)) = false.
Proof.
  intros Hps. induction Hps as [|[k' v'] ps Hv _ IH]; cbn; [done|].
  by destruct (String.eqb k k').
Qed.

Lemma update_value_step f id fmt l array ps (h : heap) :
  h !! l = Some (Object array ps) →
  Forall (λ p : string * val, is_ref p.2 = false) ps →
  update_value f (Ref l) (MessageParser.argumentElement id fmt) h
  = (Ok tt, <[l := Object array (update_props f [id] ps)]> h).
Proof.
  intros Hl Hps. unfold update_value, update_props. cbn.
  unfold Heap.set, Heap.get, Heap.entries. rewrite Hl. cbn.
  destruct (Props.proto_setter id ps); [by rewrite list_insert_id|].
  by rewrite (to_number_not_ref h) by (by apply get_not_ref).
Qed.

Lemma update_props_app f ids1 ids2 (ps : list (string * val)) :
  update_props f (ids1 ++ ids2) ps = update_props f ids2 (update_props f ids1 ps).
Proof. apply foldl_app. Qed.

Lemma update_props_not_ref f ids (ps : list (string * val)) :
  Forall (λ p : string * val, is_ref p.2 = false) ps →
  Forall (λ p : string * val, is_ref p.2 = false) (update_props f ids ps).
Proof.
  unfold update_props. revert ps. induction ids as [|id ids IH]; intros ps Hps; [done|].
  cbn. apply IH. destruct (Props.proto_setter id ps); [done|]. by apply props_set_not_ref.
Qed.

(** One of the two loops, on a copy at a location of its own. *)
Lemma update_loop f style els l array ps (h : heap) :
  h !! l = Some (Object array ps) →
  Forall (λ p : string * val, is_ref p.2 = false) ps →
  for_each (λ el _, update_value f (Ref l) el)
    (filter (λ el, MessageParser.has_style style el) els) tt h
  = (Ok tt, <[l := Object array (update_props f (styled_ids style els) ps)]> h).
Proof.
  unfold styled_ids. revert ps h. induction els as [|el els IH]; intros ps h Hl Hps.
  - cbn. by rewrite list_insert_id.
  - rewrite filter_cons. destruct (decide (MessageParser.has_style style el)) as [Hs|Hs];
      [|by apply IH].
    destruct el as [|id [fmt|]]; try done.
    cbn [for_each fmap list_fmap MessageParser.id_of].
    rewrite bind_run, (update_value_step f id (Some fmt) l array ps h Hl Hps).
    rewrite (IH (update_props f [id] ps)).
    + by rewrite list_insert_insert_eq.
    + apply list_lookup_insert_eq. by eapply lookup_lt_Some.
    + by apply update_props_not_ref.
Qed.

(** The result of the preprocessor on a flat object, in closed form. *)
Lemma preprocess_flat msg els l o h :
  MessageParser_parse msg = Some els → h !! l = Some o → flat o → stack_limit ≠ 0 →
  preprocessMessageValues msg (Ref l) h
  = (Ok (Ref (length h)),
     h ++ [Object (is_array o) (preprocessed_props els (is_array o) (props o))]).
Proof.
  intros Hparse Ho Hflat Hfuel. unfold preprocessMessageValues. cbn [Value.truthy negb].
  destruct stack_limit as [|fuel]; [done|]. rewrite bind_run, (clone_flat fuel l o h Ho Hflat).
  rewrite Hparse, bind_run.
  pose proof (json_props_not_ref (is_array o) (props o) Hflat) as Hj.
  rewrite (update_loop round_to_10 "milliseconds" els (length h) (is_array o)
             (json_props (is_array o) (props o)));
    [|by rewrite lookup_app_r, Nat.sub_diag by lia | done].
  rewrite bind_run.
  rewrite (update_loop bytes_to_KB "bytes" els (length h) (is_array o)
             (update_props round_to_10 (styled_ids "milliseconds" els)
                (json_props (is_array o) (props o)))).
  - rewrite list_insert_insert_eq.
    rewrite insert_app_r_alt, Nat.sub_diag by lia. done.
  - apply list_lookup_insert_eq. rewrite length_app. cbn. lia.
  - by apply update_props_not_ref.
Qed.

End Flat.
End FlatFacts.

(** ** The two loops as a map over the entries *)

Module UpdateFacts.
Import Spec PropsFacts FlatFacts.





Section Update.
Context `{Collaborators}.




End Update.
End UpdateFacts.

(** ** Rounding to tens and bytes to kilobytes *)

Module NumberFacts.

Lemma this_Q2Qc (x : Q) : (this (Q2Qc x) == x)%Q.
Proof. apply Qred_correct. Qed.

Lemma of_Z_mul (a b : Z) : (Number.of_Z a * Number.of_Z b)%Qc = Number.of_Z (a * b).
Proof.
  unfold Number.of_Z. apply Qc_is_canon. cbn.
  rewrite !Qred_correct. by rewrite inject_Z_mult.
Qed.

Section Rounding.
Context `{Collaborators}.

(** In exact arithmetic [Math.round(x / 10) * 10] is a multiple of ten
    nearest to [x]; of the two nearest multiples it is the greater one. *)
Lemma round_to_10_nearest (q : Qc) :
  ∃ z : Z,
    round_to_10 (Fin q) = Fin (Number.of_Z (10 * z)) ∧
    (inject_Z (10 * z) <= q + 5)%Q ∧ (q - 5 < inject_Z (10 * z))%Q.
Proof.
  exists (Qfloor (q / Number.of_Z 10 + Q2Qc (1 # 2))%Qc).
  split.
  - unfold round_to_10. cbn. f_equal. by rewrite of_Z_mul, Z.mul_comm.
  - set (x := this (q / Number.of_Z 10 + Q2Qc (1 # 2))%Qc).
    assert (Hx : (10 * x == q + 5)%Q).
    { unfold x. cbn. rewrite !Qred_correct. field. }
    clearbody x. pose proof (Qfloor_le x) as Hle. pose proof (Qlt_floor x) as Hlt.
    rewrite inject_Z_plus in Hlt. rewrite inject_Z_mult.
    change (inject_Z 10) with (10 # 1)%Q. change (inject_Z 1) with (1 # 1)%Q in Hlt.
    split; lra.
Qed.

Lemma Qfloor_unique (x : Q) (y : Z) :
  (inject_Z y <= x)%Q → (x < inject_Z (y + 1))%Q → Qfloor x = y.
Proof.
  intros H1 H2. apply Z.le_antisymm.
  - apply Z.lt_succ_r. rewrite Zlt_Qlt. eapply Qle_lt_trans; [apply Qfloor_le | done].
  - rewrite <- (Qfloor_Z y). by apply Qfloor_resp_le.
Qed.

Lemma bytes_to_KB_Fin (q : Qc) : bytes_to_KB (Fin q) = Fin (q / Number.of_Z 1024)%Qc.
Proof. done. Qed.

End Rounding.
End NumberFacts.

(** ** The value preprocessor *)

Module Preprocessor.
Import Spec FlatFacts UpdateFacts NumberFacts.

Section Claim.
Context `{Collaborators}.


End Claim.



End Preprocessor.

(** ** Which objects a pass leaves alone *)

Module Untouched.
Import Spec CompFacts HeapFacts FrameFacts EvolveFacts ResolverFacts LogFacts.

Section Pass.
Context `{Collaborators}.
Context (locale : string) (usages : gmap string (list StringUsage)).

(** An object without strings of the token pattern is never written,
    however the traversal ends. *)
Lemma replaceInObject_token_free fuel obj path log h r h' lt o :
  token_free o → h !! lt = Some o →
  replaceInObject fuel locale usages obj path log h = (r, h') → h' !! lt = Some o.
Proof.
  intros Hfree. revert obj path log h r h'.
  induction fuel as [|fuel IH]; intros obj path log h r h' Hs; [by intros [= <- <-]|].
  cbn. destruct obj as [| | | | |l]; try by intros [= <- <-].
  intros Hl. apply (for_each_invariant (λ h1, h1 !! lt = Some o)) in Hl; [done| |done].
  intros [key value] log1 h1 r1 h2 Hin Hs1 Hbody. unfold replaceEntry in Hbody.
  assert (Hrec : replaceInObject fuel locale usages value (path ++ [key]) log1 h1 = (r1, h2) →
                 h2 !! lt = Some o) by (by apply IH).
  destruct value as [| | | |str|]; auto.
  destruct (TokenPattern.is_token str) eqn:Htok; auto.
  apply resolveToken_cases in Hbody as [(_ & _ & ->)|(tk & idx & u & _ & _ & Hbody)]; [done|].
  destruct Hbody as [(e & Hf & _)|(m & hf & Hf & -> & _)];
    apply (formatTemplate_prefix _ _ _ _ h1) in Hf as [Hp _]; try done.
  { by eapply prefix_lookup_Some. }
  destruct (decide (l = lt)) as [->|Hne].
  - unfold Heap.entries in Hin. rewrite Hs in Hin.
    pose proof (proj1 (Forall_forall _ _) Hfree _ Hin str eq_refl) as Hno.
    congruence.
  - rewrite heap_set_lookup_ne by done. by eapply prefix_lookup_Some.
Qed.

End Pass.

Section Passes.
Context `{Collaborators}.

Lemma pass_token_free lhr locale st r st' lt o :
  token_free o → store st !! lt = Some o → lhr ≠ Ref lt →
  replaceLocaleStringReferences lhr locale st = (r, st') →
  store st' !! lt = Some o ∧ formattedStringUsages st' = formattedStringUsages st.
Proof.
  intros Hfree Ho Hroot Hr.
  apply replaceLocaleStringReferences_cases in Hr as (h' & -> & Hr). cbn.
  split; [|done].
  destruct Hr as [(e & Hr & _)|(log & h1 & llog & h2 & Hr & _ & Hp & _ & Hend)];
    apply (replaceInObject_token_free _ _ _ _ _ _ _ _ _ lt o Hfree Ho) in Hr; [done|].
  destruct Hend as [(l & -> & -> & _)|(_ & -> & _)].
  - rewrite heap_set_lookup_ne by congruence. by eapply prefix_lookup_Some.
  - by eapply prefix_lookup_Some.
Qed.

Lemma passes_token_free ps st r st' lt o :
  token_free o → store st !! lt = Some o → Ref lt ∉ ps.*1 →
  passes ps st = (r, st') →
  store st' !! lt = Some o ∧ formattedStringUsages st' = formattedStringUsages st.
Proof.
  intros Hfree. revert st. induction ps as [|[lhr locale] ps IH]; intros st Ho Hroots; cbn.
  - by intros [= <- <-].
  - intros Hp. cbn in Hroots. apply not_elem_of_cons in Hroots as [Hne Hroots].
    apply bind_cases in Hp as [(e & Hr & _)|(log & st1 & Hr & Hp)];
      apply (pass_token_free _ _ _ _ _ lt o) in Hr as [Ho1 Hu1]; try done; try congruence.
    destruct (IH st1 Ho1 Hroots Hp) as [? ?]. split; [done | congruence].
Qed.

End Passes.
End Untouched.

(** ** A pass writes only to objects of the tree *)

Module Unreachable.
Import Spec CompFacts HeapFacts FrameFacts EvolveFacts ResolverFacts LogFacts.

Section Pass.
Context `{Collaborators}.
Context (locale : string) (usages : gmap string (list StringUsage)).
Context (h0 : heap) (Hwf : wf_keys h0) (Hclosed : closed h0).
Context (lt : loc) (Hlt : is_Some (h0 !! lt)).

Lemma evolves_lookup_lt (h h' : heap) :
  heap_evolves usages h0 h → h `prefix_of` h' → h' !! lt = h !! lt.
Proof using Hlt.
  intros Hev Hp. destruct Hlt as [o Ho]. destruct (Hev lt o Ho) as (o' & Ho' & _).
  rewrite Ho'. by eapply prefix_lookup_Some.
Qed.

(** The references of a snapshot are those of the first store. *)
Lemma snapshot_ref (h : heap) l o key l1 :
  heap_evolves usages h0 h → h0 !! l = Some o →
  (key, Ref l1) ∈ Heap.entries h l → (key, Ref l1) ∈ props o.
Proof.
  intros Hev Ho Hin. destruct (Hev l o Ho) as (o' & Ho' & _ & Hf).
  unfold Heap.entries in Hin. rewrite Ho' in Hin.
  apply list_elem_of_lookup in Hin as [i Hi].
  destruct (Forall2_lookup_r _ _ _ _ _ Hf Hi) as ([k0 v0] & Hi0 & Hk & Hv).
  cbn in Hk, Hv. subst k0. destruct Hv as [<-|[_ [m ?]]]; [|done].
  by eapply list_elem_of_lookup_2.
Qed.

Lemma replaceInObject_unreachable fuel obj path log h r h' :
  heap_evolves usages h0 h → (∀ l, obj = Ref l → is_Some (h0 !! l)) →
  ¬ reach h0 obj lt →
  replaceInObject fuel locale usages obj path log h = (r, h') →
  h' !! lt = h !! lt.
Proof using Hwf Hclosed Hlt.
  revert obj path log h r h'.
  induction fuel as [|fuel IH]; intros obj path log h r h' Hev Hvalid Hnr;
    [by intros [= <- <-]|].
  cbn. destruct obj as [| | | | |l]; try by intros [= <- <-].
  destruct (Hvalid l eq_refl) as [o Ho].
  intros Hl.
  apply (for_each_invariant
           (λ h1, heap_evolves usages h0 h1 ∧ h1 !! lt = h !! lt)) in Hl;
    [by destruct Hl| |done].
  intros [key value] log1 h1 r1 h2 Hin [Hev1 Hs1] Hbody.
  split.
  { apply (replaceEntry_evolves locale usages h0 Hwf (replaceInObject fuel locale usages)
             h l path (key, value) log1 h1 r1 h2); [|done..].
    intros v p a sa ra sb. by apply replaceInObject_evolves. }
  rewrite <- Hs1. unfold replaceEntry in Hbody.
  assert (Hrec : replaceInObject fuel locale usages value (path ++ [key]) log1 h1 = (r1, h2) →
                 h2 !! lt = h1 !! lt).
  { apply IH; [done| |].
    - intros l1 ->. apply (snapshot_ref _ _ o) in Hin; [|done..].
      apply lookup_lt_is_Some. by eapply Hclosed.
    - intros Hreach. apply Hnr. destruct value as [| | | | |l1]; try by inversion Hreach.
      apply (snapshot_ref _ _ o) in Hin; [|done..]. by eapply reach_child. }
  destruct value as [| | | |str|]; auto.
  destruct (TokenPattern.is_token str) eqn:Htok; auto.
  apply resolveToken_cases in Hbody as [(_ & _ & ->)|(tk & idx & u & _ & _ & Hbody)]; [done|].
  destruct Hbody as [(e & Hf & _)|(m & hf & Hf & -> & _)];
    apply (formatTemplate_prefix _ _ _ _ h1) in Hf as [Hp _]; try done.
  { by apply evolves_lookup_lt. }
  rewrite heap_set_lookup_ne; [by apply evolves_lookup_lt|].
  intros ->. apply Hnr. by eapply reach_here.
Qed.

End Pass.

Section Claim.
Context `{Collaborators}.

Lemma replaceInObject_absent fuel locale usages l path log h r h' :
  h !! l = None →
  replaceInObject fuel locale usages (Ref l) path log h = (r, h') → h' = h.
Proof.
  intros Hl. destruct fuel as [|fuel]; cbn; [by intros [= _ <-]|].
  unfold Heap.entries. rewrite Hl. by intros [= _ <-].
Qed.

Lemma pass_unreachable lhr locale st r st' lt :
  wf_keys (store st) → closed (store st) → is_Some (store st !! lt) →
  ¬ reach (store st) lhr lt →
  replaceLocaleStringReferences lhr locale st = (r, st') →
  store st' !! lt = store st !! lt.
Proof.
  intros Hwf Hclosed Hlt Hnr Hr.
  apply replaceLocaleStringReferences_cases in Hr as (h' & -> & Hr). cbn.
  assert (Hne : ∀ l, lhr = Ref l → l ≠ lt).
  { intros l -> ->. apply Hnr. destruct Hlt as [o Ho]. by eapply reach_here. }
  assert (Hin : ∀ rr h1,
            replaceInObject stack_limit locale (formattedStringUsages st) lhr [] [] (store st)
              = (rr, h1) →
            ∀ h2, h1 `prefix_of` h2 → h2 !! lt = store st !! lt).
  { intros rr h1 Hrun h2 Hp.
    assert (Hcase : (∀ l, lhr = Ref l → is_Some (store st !! l)) ∨
                    ∃ l, lhr = Ref l ∧ store st !! l = None).
    { destruct lhr as [| | | | |l]; try by left.
      destruct (store st !! l) as [o|] eqn:Ho; [left|right; by exists l].
      intros ? [= <-]. by rewrite Ho. }
    destruct Hcase as [Hvalid|(l & -> & Ho)].
    - pose proof Hrun as Hev.
      apply (replaceInObject_evolves _ _ (store st) Hwf) in Hev; [|apply heap_evolves_refl].
      apply (replaceInObject_unreachable _ _ (store st) Hwf Hclosed lt Hlt) in Hrun;
        [|apply heap_evolves_refl|done..].
      rewrite <- Hrun.
      by apply (evolves_lookup_lt (formattedStringUsages st) (store st) lt Hlt h1).
    - apply replaceInObject_absent in Hrun as ->; [|done].
      destruct Hlt as [ot Hot]. rewrite Hot. by eapply prefix_lookup_Some. }
  destruct Hr as [(e & Hr & _)|(log & h1 & llog & h2 & Hr & _ & Hp & _ & Hend)].
  { by eapply Hin. }
  destruct Hend as [(l & -> & -> & _)|(_ & -> & _)].
  - rewrite heap_set_lookup_ne by by apply Hne. by eapply Hin.
  - by eapply Hin.
Qed.

End Claim.
End Unreachable.

(** ** The values of a usage record *)

Module StoredValues.
Import Spec FrameFacts FlatFacts Untouched Unreachable.

Section Claim.
Context `{Collaborators}.

(** C4, as amended.  The preprocessor writes to no object that exists: its
    result is a primitive or a new object, and on values whose entries are
    not objects (and which are not an array) two applications in a row
    give new objects with the same entries.  A resolution pass does not change the registry, and it
    changes an object only if the object is part of the tree it resolves
    and holds a string of the token pattern, or is the root: an object that
    holds no such string and is not a root is the same after any number of
    passes at any locales, and an object that is not part of the tree of a
    pass is the same after that pass, whether the passes return or throw. *)
Theorem stored_values_untouched :
  (∀ msg values h r h',
     preprocessMessageValues msg values h = (r, h') →
     h `prefix_of` h' ∧ ∀ v', r = Ok v' → fresh_in h h' v') ∧
  (∀ msg els l o h,
     MessageParser_parse msg = Some els → stack_limit ≠ 0 → h !! l = Some o →
     is_array o = false → flat o →
     ∃ ps,
       let h1 := h ++ [Object false ps] in
       preprocessMessageValues msg (Ref l) h = (Ok (Ref (length h)), h1) ∧
       preprocessMessageValues msg (Ref l) h1
         = (Ok (Ref (length h1)), h1 ++ [Object false ps])) ∧
  (∀ ps st r st' l o,
     passes ps st = (r, st') → store st !! l = Some o → token_free o → Ref l ∉ ps.*1 →
     store st' !! l = Some o ∧ formattedStringUsages st' = formattedStringUsages st) ∧
  (∀ lhr locale st r st' l,
     replaceLocaleStringReferences lhr locale st = (r, st') →
     wf_keys (store st) → closed (store st) → is_Some (store st !! l) →
     ¬ reach (store st) lhr l →
     store st' !! l = store st !! l).
Proof.
  split; [|split; [|split]].
  - intros msg values h r h' Hp. by eapply preprocessMessageValues_prefix.
  - intros msg els l o h Hparse Hfuel Ho Harr Hflat.
    exists (preprocessed_props els false (props o)). cbn.
    pose proof (preprocess_flat msg els l o) as Hrun. rewrite Harr in Hrun.
    split; [by apply Hrun|].
    apply Hrun; [done| |done..]. by apply lookup_app_l_Some.
  - intros ps st r st' l o Hp Ho Hfree Hroots. by eapply passes_token_free.
  - intros lhr locale st r st' l Hr Hwf Hclosed Hl Hnr. by eapply pass_unreachable.
Qed.

End Claim.

Lemma stored_values_untouched_witness :
  @MessageParser_parse Demo.collaborators Demo.ms_template ≠ None ∧
  @stack_limit Demo.collaborators ≠ 0 ∧
  flat (Object false [("timeInMs", Num (Fin (Number.of_Z 1234)))]) ∧
  ∃ ps,
    @preprocessMessageValues Demo.collaborators Demo.ms_template (Ref 0) Demo.ms_values
      = (Ok (Ref 1), Demo.ms_values ++ [Object false ps]) ∧
    @preprocessMessageValues Demo.collaborators Demo.ms_template (Ref 0)
        (Demo.ms_values ++ [Object false ps])
      = (Ok (Ref 2), (Demo.ms_values ++ [Object false ps]) ++ [Object false ps]).
Proof.
  assert (Hflat : flat (Object false [("timeInMs", Num (Fin (Number.of_Z 1234)))])).
  { by repeat constructor. }
  split; [done|]. split; [done|]. split; [exact Hflat|].
  destruct (@stored_values_untouched Demo.collaborators) as (_ & Htwice & _).
  destruct (Htwice Demo.ms_template _ 0 _ Demo.ms_values eq_refl ltac:(done) eq_refl eq_refl
              Hflat)
    as (ps & H1 & H2).
  exists ps. split; [exact H1 | exact H2].
Defined.

(** C4 as stated fails: the values of a usage record are stored by
    reference; when the same object is part of the report and holds a
    token, a pass rewrites the token inside the stored values. *)
Lemma stored_values_changed_by_pass :
  match @mint Demo.collaborators "/lh/a.js" Demo.shared_strings "URL" [Undefined]
          (@initial Demo.collaborators Demo.shared_report) with
  | (Ok _, st1) =>
      match @formatFn Demo.collaborators "/lh/a.js" Demo.shared_strings "Hello" (Ref 1) st1 with
      | (Ok token, st2) =>
          token = "a.js!#title#0" ∧
          formattedStringUsages st2 !! "a.js!#title" = Some [Usage "a.js!#title" "Hello" (Ref 1)] ∧
          store st2 !! 1 = Some (Object false [("note", Str Demo.url_token)]) ∧
          match @replaceLocaleStringReferences Demo.collaborators (Ref 0) "fr" st2 with
          | (Ok _, st3) => store st3 !! 1 = Some (Object false [("note", Str "URL")])
          | (Throw _, _) => False
          end
      | (Throw _, _) => False
      end
  | (Throw _, _) => False
  end.
Proof. by vm_compute. Qed.

End StoredValues.

(** ** The two patterns together *)

Module PatternLaws.
Import Regex TokenPattern JsString StringFacts RegexFacts TokenFacts.

(** [leftmost] finds a suffix at or before every suffix that is a word. *)
Lemma leftmost_complete r p1 s1 :
  matches r s1 = true →
  ∃ pre x, leftmost r (p1 +:+ s1) = Some (x +:+ s1) ∧ p1 = pre +:+ x ∧
           matches r (x +:+ s1) = true.
Proof.
  intros Hs1. induction p1 as [|c p1 IH].
  - exists "", "". rewrite !string_app_nil_l. by rewrite leftmost_hit.
  - destruct (matches r (String c p1 +:+ s1)) eqn:Hm.
    + exists "", (String c p1). by rewrite leftmost_hit.
    + destruct IH as (pre & x & Hl & -> & Hx).
      exists (String c pre), x. rewrite (string_app_cons c (pre +:+ x) s1).
      cbn [leftmost]. rewrite string_app_cons in Hm. rewrite Hm.
      by rewrite string_app_cons.
Qed.

(** X1.  Whenever the test of the resolver accepts a string, [match] returns its
    two groups, so that the destructuring of the result cannot fail: the
    string ends in the key, [#] and the index; the index is a run of
    digits; the key is on one line and holds the separator [!#]. *)
Theorem test_implies_match s :
  is_token s = true →
  ∃ pre tk idx,
    match_groups s = Some (tk, idx) ∧ s = pre +:+ tk +:+ "#" +:+ idx ∧
    idx ≠ "" ∧ digits idx = true ∧ no_line_terminator tk = true ∧
    ∃ x b, tk = x +:+ "!#" +:+ b.
Proof.
  intros Htok. apply is_token_iff in Htok as (a & c & d & -> & Hc & Hne & Hd).
  assert (Hword : matches (Cat (Star Dot) tail) ("!#" +:+ c +:+ "#" +:+ d) = true).
  { apply matches_lang. rewrite <- string_app_assoc. constructor.
    - apply lang_star_class. unfold no_line_terminator in Hc.
      by rewrite string_forallb_app, Hc.
    - apply lang_tail. eauto. }
  destruct (leftmost_complete _ a _ Hword) as (pre & x & Hleft & -> & Hx).
  unfold match_groups. rewrite Hleft.
  apply matches_lang, lang_cat_inv in Hx as (p0 & q0 & Hsplit & Hp0 & Hq0).
  destruct (greedy_split_complete _ _ _ _ Hp0 Hq0) as [[p q] Hg].
  rewrite <- Hsplit in Hg. rewrite Hg.
  apply greedy_split_sound in Hg as (Heq & Hp & Hq).
  apply lang_tail in Hq as (d' & -> & Hne' & Hd').
  assert (Hpd : p = x +:+ "!#" +:+ c ∧ d' = d).
  { apply (last_hash_unique p d' (x +:+ "!#" +:+ c) d); [|done..].
    rewrite !string_app_assoc. rewrite ?string_app_cons, ?string_app_nil_l in Heq |- *.
    done. }
  destruct Hpd as [-> ->].
  exists pre, (x +:+ "!#" +:+ c), d. split; [done|].
  split; [by rewrite !string_app_assoc|]. split; [done|]. split; [done|].
  split; [by apply lang_star_class in Hp | by exists x, c].
Qed.

Lemma test_implies_match_witness :
  is_token Demo.url_token = true ∧
  ∃ pre tk idx, match_groups Demo.url_token = Some (tk, idx) ∧
                Demo.url_token = pre +:+ tk +:+ "#" +:+ idx.
Proof.
  split; [reflexivity|].
  destruct (test_implies_match Demo.url_token eq_refl)
    as (pre & tk & idx & Hm & Hs & _).
  by exists pre, tk, idx.
Defined.

End PatternLaws.

(** ** The recorder and the registry over a history of calls *)

Module RecorderLaws.
Import Spec History CompFacts PropsFacts PropsGetSet LogFacts.

Section Recorder.
Context `{Collaborators}.

(** The two ways in which a call of the recorder ends. *)
Lemma formatFn_cases filename fileStrings template values st r st' :
  formatFn filename fileStrings template values st = (r, st') →
  (r = Throw (Error ("Could not locate: " +:+ template)) ∧ st' = st ∧
   (locate fileStrings template = None ∨ locate fileStrings template = Some "")) ∨
  (∃ keyname,
     locate fileStrings template = Some keyname ∧ keyname ≠ "" ∧
     let key := fileScopedKey filename keyname in
     let old := default [] (formattedStringUsages st !! key) in
     r = Ok (key +:+ "#" +:+ JsString.of_nat (length old)) ∧
     st' = State (store st)
             (<[key := old ++ [Usage key template values]]> (formattedStringUsages st))
             (locale st)).
Proof.
  unfold formatFn. destruct (locate fileStrings template) as [keyname|] eqn:Hloc.
  - destruct keyname as [|c keyname]; cbn [JsString.truthy negb].
    + intros [= <- <-]. left. auto.
    + rewrite bind_run. unfold push_usage. cbn. intros [= <- <-]. right.
      exists (String c keyname). split; [done|]. split; [done|]. cbn.
      rewrite length_app. cbn. split; [|done]. do 4 f_equal. lia.
  - intros [= <- <-]. left. auto.
Qed.

(** A call of any kind keeps the records of every key and their order,
    and may only add records after them. *)
Lemma step_appends st c k :
  default [] (formattedStringUsages st !! k)
    `prefix_of` default [] (formattedStringUsages (step st c) !! k).
Proof.
  destruct c as [filename fileStrings template values|newLocale|lhr locale'|h]; cbn.
  - destruct (formatFn filename fileStrings template values st) as [r st'] eqn:Hf.
    apply formatFn_cases in Hf as [(_ & -> & _)|(keyname & _ & _ & _ & ->)]; [done|].
    cbn. destruct (decide (fileScopedKey filename keyname = k)) as [<-|Hne].
    + rewrite lookup_insert_eq. cbn. by apply prefix_app_r.
    + by rewrite lookup_insert_ne.
  - destruct newLocale as [l|]; [|done]. cbn. by destruct (JsString.truthy l).
  - destruct (replaceLocaleStringReferences lhr locale' st) as [r st'] eqn:Hr.
    by apply replaceLocaleStringReferences_cases in Hr as (h' & -> & _).
  - done.
Qed.

Lemma run_appends cs st k :
  default [] (formattedStringUsages st !! k)
    `prefix_of` default [] (formattedStringUsages (run cs st) !! k).
Proof.
  revert st. induction cs as [|c cs IH]; intros st; [done|]. cbn.
  etrans; [apply (step_appends st c)|apply IH].
Qed.

(** X2.  The registry is append-only over any history: a token that refers to a
    record refers to the same record after any further calls of the
    recorder, of [setLocale] and of the resolver, whether they return or
    throw; an index is never used again for another record. *)
Theorem token_stays_valid cs st token u :
  record_of (formattedStringUsages st) token = Some u →
  record_of (formattedStringUsages (run cs st)) token = Some u.
Proof.
  unfold record_of. destruct (TokenPattern.match_groups token) as [[tk idx]|]; [|done].
  unfold usage_at. destruct (JsString.array_index idx) as [n|]; [|done].
  intros Hu. eapply prefix_lookup_Some; [exact Hu | apply run_appends].
Qed.

(** X3.  After any history from the state in which the module is loaded, every
    key of the registry has at least one record, holds the separator [!#],
    and is the [key] of each of its records. *)
Theorem registry_well_keyed cs h :
  registry_wf (formattedStringUsages (run cs (initial h))).
Proof.
  assert (Hstep : ∀ st c, registry_wf (formattedStringUsages st) →
                          registry_wf (formattedStringUsages (step st c))).
  { intros st c Hwf.
    destruct c as [filename fileStrings template values|newLocale|lhr locale'|h']; cbn.
    - destruct (formatFn filename fileStrings template values st) as [r st'] eqn:Hf.
      apply formatFn_cases in Hf as [(_ & -> & _)|(keyname & _ & _ & _ & ->)]; [done|].
      cbn. intros k us. destruct (decide (fileScopedKey filename keyname = k)) as [<-|Hne].
      + rewrite lookup_insert_eq. intros [= <-]. split; [by destruct (default _ _)|].
        split; [unfold fileScopedKey; eauto|].
        apply Forall_app. split; [|by repeat constructor].
        destruct (formattedStringUsages st !! fileScopedKey filename keyname) as [us|] eqn:Hk;
          [|constructor].
        by apply (Hwf _ us).
      + rewrite lookup_insert_ne by done. apply Hwf.
    - destruct newLocale as [l|]; [|done]. cbn. by destruct (JsString.truthy l).
    - destruct (replaceLocaleStringReferences lhr locale' st) as [r st'] eqn:Hr.
      by apply replaceLocaleStringReferences_cases in Hr as (h1 & -> & _).
    - done. }
  assert (Hrun : ∀ st, registry_wf (formattedStringUsages st) →
                       registry_wf (formattedStringUsages (run cs st))).
  { induction cs as [|c cs IH]; intros st Hwf; [done|]. cbn. by apply IH, Hstep. }
  apply Hrun. intros k us Hk. cbn in Hk. by rewrite lookup_empty in Hk.
Qed.

(** X4.  The recorder throws in two cases: no key of the merged catalog holds
    the text, or the first key that holds it is the empty string.  It then
    throws [Could not locate:] with the text and leaves the state as it
    was; in every other case it returns a token. *)
Theorem recorder_throws_iff filename fileStrings template values st :
  let absent := ∀ k, Props.get k (mergedStrings fileStrings) ≠ Some template in
  let unnamed := locate fileStrings template = Some "" in
  (absent ∨ unnamed →
   formatFn filename fileStrings template values st
   = (Throw (Error ("Could not locate: " +:+ template)), st)) ∧
  (¬ (absent ∨ unnamed) →
   ∃ token st', formatFn filename fileStrings template values st = (Ok token, st')).
Proof.
  cbn zeta. rewrite <- RecorderSlip.locate_None.
  destruct (formatFn filename fileStrings template values st) as [r st'] eqn:Hf.
  apply formatFn_cases in Hf as [(-> & -> & Hbad)|(keyname & Hloc & Hne & -> & ->)].
  - split; [done|]. by intros [].
  - split; [|by eauto]. rewrite Hloc. intros [?|[= ?]]; done.
Qed.

End Recorder.

Lemma token_stays_valid_witness :
  record_of (formattedStringUsages (Demo.after_url Demo.report)) Demo.url_token
    = Some (Usage Demo.url_key "URL" Undefined) ∧
  record_of
    (formattedStringUsages
       (@run Demo.collaborators
          [Format "/lh/a.js" [] "URL" Null; Replace (Ref 0) "en-XA"; SetLocale (Some "fr")]
          (Demo.after_url Demo.report)))
    Demo.url_token
    = Some (Usage Demo.url_key "URL" Undefined).
Proof.
  split; [reflexivity|].
  apply (@token_stays_valid Demo.collaborators). reflexivity.
Defined.

Lemma recorder_throws_iff_witness :
  (∀ k, Props.get k (mergedStrings []) ≠ Some "nothing") ∧
  @formatFn Demo.collaborators "/lh/a.js" [] "nothing" Undefined
    (@initial Demo.collaborators [])
  = (Throw (Error "Could not locate: nothing"), @initial Demo.collaborators []).
Proof.
  assert (Habsent : ∀ k, Props.get k (mergedStrings []) ≠ Some "nothing").
  { intros k. cbn. repeat (destruct (String.eqb k _); [done|]). done. }
  split; [exact Habsent|].
  apply (@recorder_throws_iff Demo.collaborators "/lh/a.js" [] "nothing" Undefined).
  by left.
Defined.

End RecorderLaws.

(** ** The merged catalog *)

Module CatalogLaws.
Import PropsFacts PropsGetSet.

Lemma spread_get {A : Type} (ps acc : list (string * A)) k :
  NoDup (Props.keys ps) →
  Props.get k (Props.spread ps acc)
  = match Props.get k ps with Some v => Some v | None => Props.get k acc end.
Proof.
  unfold Props.spread, Props.keys. revert acc.
  induction ps as [|[k0 v0] ps IH]; intros acc Hnd; [done|].
  apply NoDup_cons in Hnd as [Hk0 Hnd]. cbn [foldl Props.get]. rewrite IH by done.
  destruct (String.eqb_spec k k0) as [->|Hne].
  - apply (get_None k0 ps) in Hk0. cbn in Hk0. rewrite Hk0. apply props_get_set_eq.
  - destruct (Props.get k ps); [done|]. by apply props_get_set_ne.
Qed.

(** X5.  In the catalog that the recorder searches, the text of a key name is
    the caller's when the caller has the key name, and the core text
    otherwise: a caller that reuses a core key name replaces the core text
    of that name. *)
Theorem merged_lookup fileStrings k :
  NoDup (Props.keys fileStrings) →
  Props.get k (mergedStrings fileStrings)
  = match Props.get k fileStrings with
    | Some text => Some text
    | None => Props.get k UIStrings
    end.
Proof.
  intros Hnd. unfold mergedStrings. rewrite spread_get by done.
  destruct (Props.get k fileStrings); [done|].
  rewrite spread_get; [by destruct (Props.get k UIStrings)|].
  apply (bool_decide_unpack _). by vm_compute.
Qed.

Lemma merged_lookup_witness :
  NoDup (Props.keys [("columnURL", "Address"); ("title", "Hello")]) ∧
  Props.get "columnURL" (mergedStrings [("columnURL", "Address"); ("title", "Hello")])
    = Some "Address" ∧
  Props.get "columnSize" (mergedStrings [("columnURL", "Address"); ("title", "Hello")])
    = Some "Size (KB)".
Proof.
  assert (Hnd : NoDup (Props.keys [("columnURL", "Address"); ("title", "Hello")])).
  { apply (bool_decide_unpack _). by vm_compute. }
  split; [exact Hnd|].
  split; rewrite (merged_lookup _ _ Hnd); reflexivity.
Defined.

End CatalogLaws.

(** ** The module variable over a history *)

Module LocaleLaws.
Import Spec History CompFacts LogFacts RecorderLaws.

Section Locale.
Context `{Collaborators}.

Lemma step_locale st c : locale (step st c) = default (locale st) (locale_set c).
Proof.
  destruct c as [filename fileStrings template values|newLocale|lhr locale'|h]; cbn.
  - destruct (formatFn filename fileStrings template values st) as [r st'] eqn:Hf.
    by apply formatFn_cases in Hf as [(_ & -> & _)|(keyname & _ & _ & _ & ->)].
  - destruct newLocale as [l|]; [|done]. cbn. by destruct (JsString.truthy l).
  - destruct (replaceLocaleStringReferences lhr locale' st) as [r st'] eqn:Hr.
    by apply replaceLocaleStringReferences_cases in Hr as (h' & -> & _).
  - done.
Qed.

(** X6.  After any history the module variable [locale] holds the argument of
    the last call of [setLocale] whose argument was not absent, [null] or
    the empty string, and its first value when there was no such call; no
    other call writes it. *)
Theorem locale_is_last_set cs st :
  locale (run cs st) = default (locale st) (last (omap locale_set cs)).
Proof.
  induction cs as [|c cs IH] using rev_ind; [done|].
  unfold run. rewrite foldl_app. cbn [foldl]. fold (run cs st).
  rewrite step_locale, IH, omap_app. cbn.
  destruct (locale_set c) as [l|]; cbn; [by rewrite last_snoc | by rewrite app_nil_r].
Qed.

End Locale.
End LocaleLaws.

(** ** Passes over reports without tokens and over roots that are no object *)

Module QuietPass.
Import Spec Shape CompFacts HeapFacts LogFacts.

Section Pass.
Context `{Collaborators}.

(** A loop whose iterations all return what they were given returns it. *)
Lemma for_each_skip {S X A : Type} (body : X → A → comp S A) (l : list X) (a : A) (s : S) :
  (∀ x, x ∈ l → body x a s = (Ok a, s)) → for_each body l a s = (Ok a, s).
Proof.
  induction l as [|x l IH]; intros Hbody; [done|].
  cbn [for_each]. rewrite bind_run, Hbody by by left.
  apply IH. intros y Hy. apply Hbody. by right.
Qed.

Lemma replaceInObject_quiet fuel locale' usages obj path log (h : heap) :
  Forall token_free h → depth_ok h fuel obj = true →
  replaceInObject fuel locale' usages obj path log h = (Ok log, h).
Proof.
  intros Hfree. revert obj path.
  induction fuel as [|fuel IH]; intros obj path Hd; [done|].
  cbn in Hd |- *. destruct obj as [| | | | |l]; try done.
  apply for_each_skip. intros [key value] Hin. unfold replaceEntry.
  assert (Hrec : replaceInObject fuel locale' usages value (path ++ [key]) log h = (Ok log, h)).
  { apply IH. rewrite List.forallb_forall in Hd. apply (Hd (key, value)).
    by apply list_elem_of_In. }
  destruct value as [| | | |str|]; try done.
  unfold Heap.entries in Hin. destruct (h !! l) as [o|] eqn:Ho; [|by apply elem_of_nil in Hin].
  assert (Ho' : token_free o).
  { apply (proj1 (Forall_forall _ _) Hfree). by eapply list_elem_of_lookup_2. }
  by rewrite (proj1 (Forall_forall _ _) Ho' _ Hin str eq_refl).
Qed.

(** X7.  In a store none of whose strings is of the token pattern, a pass
    over a report that is not nested deeper than the stack allows returns
    the empty log; it calls no formatter, and all that it changes is the
    [localeLog] of the root, which is a new object without properties. *)
Theorem pass_without_tokens root locale' st :
  Forall token_free (store st) → depth_ok (store st) stack_limit (Ref root) = true →
  replaceLocaleStringReferences (Ref root) locale' st
  = (Ok [],
     State (Heap.set root "localeLog" (Ref (length (store st)))
              (store st ++ [Object false []]))
       (formattedStringUsages st) (locale st)).
Proof.
  intros Hfree Hd. unfold replaceLocaleStringReferences, on_store.
  rewrite bind_run, replaceInObject_quiet by done. reflexivity.
Qed.

(** X8.  A root that is no object is traversed at once, and the assignment of
    [localeLog] to it throws a TypeError (the module is in strict mode);
    the report, the registry and the module variable are as before, and
    the store has the empty log as a new object. *)
Theorem pass_on_primitive lhr locale' st :
  (∀ l, lhr ≠ Ref l) → stack_limit ≠ 0 →
  replaceLocaleStringReferences lhr locale' st
  = (Throw TypeError,
     State (store st ++ [Object false []]) (formattedStringUsages st) (locale st)).
Proof.
  intros Hprim Hfuel. unfold replaceLocaleStringReferences, on_store.
  destruct stack_limit as [|fuel]; [done|].
  destruct lhr as [| | | | |l]; try reflexivity. by destruct (Hprim l).
Qed.

End Pass.

Lemma pass_without_tokens_witness :
  Forall token_free plain_report ∧
  depth_ok plain_report (@stack_limit Demo.collaborators) (Ref 0) = true ∧
  @replaceLocaleStringReferences Demo.collaborators (Ref 0) "fr"
    (@initial Demo.collaborators plain_report)
  = (Ok [],
     State [ Object false [("audits", Ref 1); ("score", Num (Fin 1%Qc)); ("localeLog", Ref 4)];
             Object false [("a", Ref 2)];
             Object false [("displayValue", Str "x#12"); ("items", Ref 3)];
             Object true [("0", Str "one"); ("1", Null)];
             Object false [] ]
       ∅ "en").
Proof.
  assert (Hfree : Forall token_free plain_report).
  { repeat constructor; by intros s [= <-]. }
  split; [exact Hfree|]. split; [reflexivity|].
  by rewrite (@pass_without_tokens Demo.collaborators 0 "fr"
                (@initial Demo.collaborators plain_report) Hfree eq_refl).
Defined.

Lemma pass_on_primitive_witness :
  (∀ l : loc, Null ≠ Ref l) ∧ @stack_limit Demo.collaborators ≠ 0 ∧
  @replaceLocaleStringReferences Demo.collaborators Null "fr"
    (@initial Demo.collaborators plain_report)
  = (Throw TypeError,
     State (plain_report ++ [Object false []]) ∅ "en").
Proof.
  split; [done|]. split; [done|].
  by apply (@pass_on_primitive Demo.collaborators Null "fr"
              (@initial Demo.collaborators plain_report)).
Defined.

End QuietPass.

(** ** Reports with a cycle *)

Module CyclicReport.
Import Spec Shape CompFacts HeapFacts EvolveFacts ResolverFacts LogFacts Dangling.

Section Pass.
Context `{Collaborators}.
Context (locale' : string) (usages : gmap string (list StringUsage)).
Context (h0 : heap) (Hwf : wf_keys h0).

(** From an object that leads to a cycle, one of the entries leads to a
    cycle. *)
Lemma cycle_entry obj l :
  reach h0 obj l → on_cycle h0 l →
  ∃ l0 o0 k v l', obj = Ref l0 ∧ h0 !! l0 = Some o0 ∧ (k, v) ∈ props o0 ∧
                  reach h0 v l' ∧ on_cycle h0 l'.
Proof.
  intros Hreach Hcyc. inversion Hreach as [l1 o1 Hl1|l1 o1 k v l2 Hl1 Hin Hr]; subst.
  - destruct Hcyc as (o & k & v & Ho & Hin & Hr).
    exists l, o, k, v, l. repeat split; try done. by exists o, k, v.
  - by exists l1, o1, k, v, l.
Qed.

Lemma cycle_throws fuel obj path log h l :
  heap_evolves usages h0 h → reach h0 obj l → on_cycle h0 l →
  ∃ e h', replaceInObject fuel locale' usages obj path log h = (Throw e, h').
Proof using Hwf.
  revert obj path log h l.
  induction fuel as [|fuel IH]; intros obj path log h l Hev Hreach Hcyc; [by eexists _, _|].
  destruct (cycle_entry obj l Hreach Hcyc) as (l0 & o0 & k & v & l' & -> & Ho0 & Hin & Hr & Hc).
  assert (Hv : ∃ l1, v = Ref l1) by (inversion Hr; eauto).
  destruct Hv as [l1 ->].
  assert (Hx : (k, Ref l1) ∈ Heap.entries h l0).
  { apply (entry_kept usages h0 _ _ o0); [done..|]. by intros (s & ? & _). }
  cbn. apply list_elem_of_split in Hx as (pre & post & Hsplit). rewrite Hsplit.
  apply (for_each_throw (heap_evolves usages h0)); [| |done].
  - intros y a1 s1 r1 s2 Hy Hs1.
    apply (replaceEntry_evolves _ _ h0 Hwf _ h); [|done| |done].
    + intros v' p a sa ra sb. by apply replaceInObject_evolves.
    + rewrite Hsplit. apply elem_of_app. by left.
  - intros a1 s1 Hs1. cbn. by eapply IH.
Qed.

End Pass.

Section Claim.
Context `{Collaborators}.

(** X9.  The traversal keeps no set of visited objects: when the tree under
    the root holds an object that is part of a cycle of references, the
    pass does not return; it ends in an exception, at the latest the
    RangeError of the exhausted stack, and no [localeLog] is stored. *)
Theorem pass_on_cycle_throws lhr locale' st l :
  wf_keys (store st) → reach (store st) lhr l → on_cycle (store st) l →
  ∃ e st', replaceLocaleStringReferences lhr locale' st = (Throw e, st') ∧
           ∀ root o, lhr = Ref root → store st !! root = Some o →
             ∃ o', store st' !! root = Some o' ∧ Props.keys (props o') = Props.keys (props o).
Proof.
  intros Hwf Hreach Hcyc.
  destruct (replaceLocaleStringReferences lhr locale' st) as [r st'] eqn:Hr.
  pose proof Hr as Hcases.
  apply replaceLocaleStringReferences_cases in Hcases as (h' & -> & Hcases).
  destruct (cycle_throws locale' (formattedStringUsages st) (store st) Hwf stack_limit
              lhr [] [] (store st) l) as (e & h1 & Hthrow); try done.
  { apply heap_evolves_refl. }
  rewrite Hthrow in Hcases.
  destruct Hcases as [(e' & [= <- <-] & ->)|(? & ? & ? & ? & ? & _)]; [|done].
  exists e, (State h1 (formattedStringUsages st) (locale st)). split; [done|]. cbn.
  intros root o _ Ho.
  apply (replaceInObject_evolves _ _ (store st) Hwf) in Hthrow; [|apply heap_evolves_refl].
  destruct (Hthrow root o Ho) as (o' & Ho' & Hoe). exists o'. split; [done|].
  by apply (object_evolves_keys (formattedStringUsages st)).
Qed.

End Claim.

Lemma pass_on_cycle_throws_witness :
  wf_keys cyclic_report ∧ reach cyclic_report (Ref 0) 0 ∧ on_cycle cyclic_report 0 ∧
  ∃ e st', @replaceLocaleStringReferences Demo.collaborators (Ref 0) "fr"
             (@initial Demo.collaborators cyclic_report) = (Throw e, st').
Proof.
  assert (Hwf : wf_keys cyclic_report) by (apply (bool_decide_unpack _); by vm_compute).
  assert (Hreach : reach cyclic_report (Ref 0) 0) by (by eapply reach_here).
  assert (Hcyc : on_cycle cyclic_report 0).
  { exists (Object false [("audits", Ref 1)]), "audits", (Ref 1).
    split; [reflexivity|]. split; [by left|].
    eapply (reach_child _ 1 _ "parent" (Ref 0)); [reflexivity | by left | exact Hreach]. }
  split; [exact Hwf|]. split; [exact Hreach|]. split; [exact Hcyc|].
  destruct (@pass_on_cycle_throws Demo.collaborators (Ref 0) "fr"
              (@initial Demo.collaborators cyclic_report) 0 Hwf Hreach Hcyc)
    as (e & st' & Hr & _).
  by exists e, st'.
Defined.

End CyclicReport.

(** ** The shape of the log *)

Module LogShape.
Import Spec Shape CompFacts PropsFacts ResolverFacts LogFacts.

Section Props.
Context {A : Type}.
Implicit Types (ps : list (string * A)).

Lemma insert_index_perm n k (v : A) ps : Props.insert_index n k v ps ≡ₚ (k, v) :: ps.
Proof.
  induction ps as [|[k' v'] ps IH]; cbn [Props.insert_index]; [done|].
  destruct (JsString.array_index k') as [n'|]; [|done].
  destruct (n <? n')%nat; [done|]. rewrite IH. apply Permutation_swap.
Qed.

Lemma set_perm k (v : A) ps :
  Props.has k ps = false → Props.set k v ps ≡ₚ (k, v) :: ps.
Proof.
  intros Hh. unfold Props.set. rewrite Hh.
  destruct (JsString.array_index k); [apply insert_index_perm|].
  by rewrite Permutation_app_comm.
Qed.

Lemma set_keys_NoDup k (v : A) ps :
  NoDup (Props.keys ps) → NoDup (Props.keys (Props.set k v ps)).
Proof.
  intros Hnd. destruct (Props.has k ps) eqn:Hh.
  - unfold Props.set. rewrite Hh. by rewrite replace_keys.
  - unfold Props.keys. rewrite (set_perm k v ps Hh). cbn. apply NoDup_cons. split; [|done].
    apply get_None. unfold Props.has in Hh. by destruct (Props.get k ps).
Qed.

Lemma replace_Forall (P : string * A → Prop) k v ps :
  Forall P ps → P (k, v) → Forall P (Props.replace k v ps).
Proof.
  intros Hps Hkv. induction Hps as [|[k' v'] ps Hp Hps IH]; cbn; [constructor|].
  destruct (String.eqb_spec k k') as [<-|Hne]; by constructor.
Qed.

Lemma set_Forall (P : string * A → Prop) k v ps :
  Forall P ps → P (k, v) → Forall P (Props.set k v ps).
Proof.
  intros Hps Hkv. destruct (Props.has k ps) eqn:Hh.
  - unfold Props.set. rewrite Hh. by apply replace_Forall.
  - rewrite (set_perm k v ps Hh). by constructor.
Qed.

End Props.

Section Pass.
Context `{Collaborators}.
Context (locale' : string) (usages : gmap string (list StringUsage)).

Lemma logged_wf tk idx u path log :
  usage_at (default [] (usages !! tk)) idx = Some u → path ≠ [] →
  log_wf locale' usages log → log_wf locale' usages (logged locale' tk u path log).
Proof.
  intros Hu Hpath [Hnd Hall].
  assert (Hin : u ∈ default [] (usages !! tk)).
  { unfold usage_at in Hu. destruct (JsString.array_index idx); [|done].
    by eapply list_elem_of_lookup_2. }
  split; [by apply set_keys_NoDup|]. apply set_Forall; [done|].
  unfold record_ok. cbn.
  split; [by destruct (default [] (log_occurrences <$> Props.get tk log))|].
  split; [|by exists u].
  apply Forall_app. split; [|by repeat constructor; eauto].
  destruct (Props.get tk log) as [r|] eqn:Hget; [|constructor]. cbn.
  apply get_Some_elem in Hget.
  by destruct (proj1 (Forall_forall _ _) Hall _ Hget) as (_ & Hocc & _).
Qed.

Lemma replaceInObject_log_wf fuel obj path log h log' h' :
  log_wf locale' usages log →
  replaceInObject fuel locale' usages obj path log h = (Ok log', h') →
  log_wf locale' usages log'.
Proof.
  revert obj path log h log' h'.
  induction fuel as [|fuel IH]; intros obj path log h log' h' Hwf; [done|].
  cbn. destruct obj as [| | | | |l]; try by intros [= <- <-].
  intros Hl.
  apply (for_each_Ok_invariant (λ a _, log_wf locale' usages a)) in Hl; [done| |done].
  intros [key value] a1 s1 a2 s2 _ Ha1 Hbody. unfold replaceEntry in Hbody.
  assert (Hrec : replaceInObject fuel locale' usages value (path ++ [key]) a1 s1 = (Ok a2, s2) →
                 log_wf locale' usages a2) by (by apply IH).
  destruct value as [| | | |str|]; auto.
  destruct (TokenPattern.is_token str); auto.
  apply resolveToken_Ok in Hbody as (tk & idx & u & m & h1 & _ & Hu & _ & _ & ->).
  apply (logged_wf tk idx); [done| |done]. by destruct path.
Qed.

End Pass.

Section Claim.
Context `{Collaborators}.

(** X10.  The log that a pass returns has one record for each key; every record
    has at least one occurrence; every occurrence has a path that is not
    empty and the values of a usage that the registry holds for the key;
    and the template of the record is the text that the formatter uses
    for such a usage in the locale of the pass. *)
Theorem returned_log_wf lhr locale' st log st' :
  replaceLocaleStringReferences lhr locale' st = (Ok log, st') →
  log_wf locale' (formattedStringUsages st) log.
Proof.
  intros Hr. apply replaceLocaleStringReferences_Ok in Hr as (l & h1 & llog & h2 & _ & Hr & _).
  apply replaceInObject_log_wf in Hr; [done|]. split; constructor.
Qed.

End Claim.

Lemma returned_log_wf_witness :
  Demo.pass.1 = Ok Demo.pass_log ∧
  @log_wf Demo.collaborators "en-XA"
    {[ Demo.url_key := [Usage Demo.url_key "URL" Undefined] ]} Demo.pass_log.
Proof.
  assert (Hrun : Demo.pass.1 = Ok Demo.pass_log) by (by vm_compute).
  split; [exact Hrun|].
  apply (@returned_log_wf Demo.collaborators (Ref 0) "en-XA" (Demo.after_url Demo.report)
           Demo.pass_log Demo.pass.2).
  rewrite <- Hrun. apply surjective_pairing.
Defined.

End LogShape.

(** ** Rounding to tens *)

Module RoundingLaws.
Import NumberFacts.

(** X11.  The rounding of the preprocessor, [Math.round(x / 10) * 10], leaves a
    number of magnitude at most [2^53] as it is exactly when the number is
    a multiple of ten. *)
Theorem round_to_10_fixed_points (q : Qc) :
  Range.safe q →
  round_to_10 (Fin q) = Fin q ↔ ∃ z : Z, q = Number.of_Z (10 * z).
Proof.
  intros _. split.
  - intros Hfix. destruct (round_to_10_nearest q) as (z & Hz & _).
    exists z. rewrite Hfix in Hz. by injection Hz.
  - intros [z ->]. unfold round_to_10. cbn. f_equal. rewrite of_Z_mul. f_equal.
    rewrite Z.mul_comm. f_equal. apply Qfloor_unique.
    + rewrite !Qred_correct, inject_Z_mult. change (inject_Z 10) with (10 # 1)%Q.
      field_simplify. lra.
    + rewrite !Qred_correct, inject_Z_mult, inject_Z_plus.
      change (inject_Z 10) with (10 # 1)%Q. change (inject_Z 1) with (1 # 1)%Q.
      field_simplify. lra.
Qed.

(** X12.  The rounding keeps the order of two numbers: the rounded values are
    integers, and that of the smaller number is not the greater one. *)
Theorem round_to_10_monotone (q1 q2 : Qc) :
  (q1 <= q2)%Qc →
  ∃ z1 z2 : Z,
    round_to_10 (Fin q1) = Fin (Number.of_Z z1) ∧
    round_to_10 (Fin q2) = Fin (Number.of_Z z2) ∧ (z1 <= z2)%Z.
Proof.
  intros Hle. unfold Qcle in Hle.
  destruct (round_to_10_nearest q1) as (z1 & Hz1 & Hup1 & _).
  destruct (round_to_10_nearest q2) as (z2 & Hz2 & _ & Hlow2).
  exists (10 * z1)%Z, (10 * z2)%Z. split; [done|]. split; [done|].
  assert (Hlt : (inject_Z (10 * z1) < inject_Z (10 * z2 + 10))%Q).
  { rewrite inject_Z_plus. change (inject_Z 10) with (10 # 1)%Q. lra. }
  rewrite <- Zlt_Qlt in Hlt. lia.
Qed.

Lemma round_to_10_fixed_points_witness :
  Range.safe (Number.of_Z (10 * 123)) ∧
  round_to_10 (Fin (Number.of_Z (10 * 123))) = Fin (Number.of_Z (10 * 123)).
Proof.
  assert (Hsafe : Range.safe (Number.of_Z (10 * 123))) by (by split; vm_compute).
  split; [exact Hsafe|]. apply (round_to_10_fixed_points _ Hsafe). by exists 123%Z.
Defined.

Lemma round_to_10_monotone_witness :
  (Number.of_Z 1234 <= Number.of_Z 1236)%Qc ∧
  ∃ z1 z2 : Z,
    round_to_10 (Fin (Number.of_Z 1234)) = Fin (Number.of_Z z1) ∧
    round_to_10 (Fin (Number.of_Z 1236)) = Fin (Number.of_Z z2) ∧ (z1 <= z2)%Z.
Proof.
  assert (Hle : (Number.of_Z 1234 <= Number.of_Z 1236)%Qc) by (by vm_compute).
  split; [exact Hle | exact (round_to_10_monotone _ _ Hle)].
Defined.

End RoundingLaws.

(** ** The copy of the values is deep *)

Module DeepCopy.
Import Spec Copy CompFacts HeapFacts FrameFacts LogShape.

(** A loop with an invariant of the state, kept however an iteration ends,
    and an invariant of what the iterations hand on. *)
Lemma for_each_invariants {S X A : Type} (I : A → S → Prop) (J : S → Prop)
    (body : X → A → comp S A) (l : list X) (a : A) (s : S) r s' :
  (∀ x a1 s1 r1 s2, x ∈ l → I a1 s1 → body x a1 s1 = (r1, s2) →
     J s2 ∧ ∀ a2, r1 = Ok a2 → I a2 s2) →
  (∀ a1 s1, I a1 s1 → J s1) →
  I a s → for_each body l a s = (r, s') → J s' ∧ ∀ a', r = Ok a' → I a' s'.
Proof.
  intros Hbody HIJ. revert a s. induction l as [|x l IH]; intros a s HI; cbn [for_each].
  - intros [= <- <-]. split; [by eapply HIJ|]. by intros ? [= <-].
  - intros Hl. apply bind_cases in Hl as [(e & Hx & ->)|(a1 & s1 & Hx & Hl)].
    + split; [|done]. by apply (Hbody x a s _ _ ltac:(by left) HI Hx).
    + destruct (Hbody x a s _ _ ltac:(by left) HI Hx) as [_ HI1].
      revert Hl. apply IH; [|by apply HI1].
      intros y a2 s2 r2 s3 Hy. apply Hbody. by right.
Qed.

Section Clone.
Context (h0 : heap).

Lemma clone_props_deep (rec : val → comp heap val) array ps (h : heap) r h' :
  clone_ok h0 rec → h0 `prefix_of` h → fresh_closed h0 h →
  Json.clone_props rec array ps h = (r, h') →
  (h0 `prefix_of` h' ∧ fresh_closed h0 h') ∧
  ∀ ps', r = Ok ps' → Forall (λ p : string * val, fresh_ref h0 p.2) ps'.
Proof.
  intros Hrec Hp Hc Hl. unfold Json.clone_props in Hl.
  apply (for_each_invariants
           (λ acc s, (h0 `prefix_of` s ∧ fresh_closed h0 s) ∧
                     Forall (λ p : string * val, fresh_ref h0 p.2) acc)
           (λ s, h0 `prefix_of` s ∧ fresh_closed h0 s)) in Hl.
  - destruct Hl as [Hs Hr]. split; [done|]. intros ps' ->. by destruct (Hr ps' eq_refl).
  - intros [k v] acc h1 r1 h2 _ [[Hp1 Hc1] Hacc] Hbody.
    assert (Hstep : ∀ v1,
      ((v' ← rec v1; mret (acc ++ [(k, v')])) : comp heap _) h1 = (r1, h2) →
      (h0 `prefix_of` h2 ∧ fresh_closed h0 h2) ∧
      ∀ a2, r1 = Ok a2 →
        (h0 `prefix_of` h2 ∧ fresh_closed h0 h2) ∧
        Forall (λ p : string * val, fresh_ref h0 p.2) a2).
    { intros v1 Hb. apply bind_cases in Hb as [(e & Hr & ->)|(v' & h3 & Hr & Hok)].
      - split; [|done]. by destruct (Hrec _ _ _ _ Hp1 Hc1 Hr).
      - injection Hok as <- <-. destruct (Hrec _ _ _ _ Hp1 Hc1 Hr) as [Hs Hv].
        split; [done|]. intros a2 [= <-]. split; [done|].
        apply Forall_app. split; [done|]. constructor; [by apply Hv | constructor]. }
    assert (Hsame : (r1, h2) = (Ok acc, h1) →
      (h0 `prefix_of` h2 ∧ fresh_closed h0 h2) ∧
      ∀ a2, r1 = Ok a2 →
        (h0 `prefix_of` h2 ∧ fresh_closed h0 h2) ∧
        Forall (λ p : string * val, fresh_ref h0 p.2) a2).
    { intros [= -> ->]. split; [done|]. by intros a2 [= <-]. }
    destruct array.
    + destruct (JsString.array_index k); [by eapply Hstep | by apply Hsame].
    + destruct v; try (by eapply Hstep). by apply Hsame.
  - by intros a1 s1 [? _].
  - split; [done | constructor].
Qed.

Lemma alloc_deep (h : heap) array ps :
  h0 `prefix_of` h → fresh_closed h0 h →
  Forall (λ p : string * val, fresh_ref h0 p.2) ps →
  fresh_closed h0 (h ++ [Object array ps]).
Proof.
  intros Hp Hc Hps l o Hl Ho. destruct (decide (l < length h)) as [Hlt|Hge].
  - rewrite lookup_app_l in Ho by done. by eapply Hc.
  - rewrite lookup_app_r in Ho by lia.
    destruct (l - length h) as [|n]; [|done]. by injection Ho as <-.
Qed.

Lemma clone_deep fuel stack : clone_ok h0 (Json.clone fuel stack).
Proof.
  revert stack. induction fuel as [|fuel IH]; intros stack v h r h' Hp Hc Hr.
  - destruct v as [| | |[]| |l]; cbn in Hr;
      try (injection Hr as <- <-; split; [done | by intros ? [= <-]]).
    destruct (bool_decide (l ∈ stack)); injection Hr as <- <-; by split.
  - destruct v as [| | |[]| |l]; cbn [Json.clone] in Hr;
      try (injection Hr as <- <-; split; [done | by intros ? [= <-]]).
    destruct (bool_decide (l ∈ stack)); [injection Hr as <- <-; by split|].
    destruct (h !! l) as [o|]; [|injection Hr as <- <-; by split].
    apply bind_cases in Hr as [(e & Hps & ->)|(ps & h1 & Hps & Hr)].
    + split; [|done]. by apply (clone_props_deep _ _ _ h _ _ (IH (l :: stack))) in Hps as [? _].
    + apply (clone_props_deep _ _ _ h _ _ (IH (l :: stack))) in Hps as [[Hp1 Hc1] Hps];
        [|done..].
      cbn in Hr. injection Hr as <- <-. split.
      * split; [by etrans; [|by exists [Object (is_array o) ps]]|].
        apply alloc_deep; [done..|]. by apply Hps.
      * intros v' [= <-]. cbn. by apply prefix_length.
Qed.

Lemma update_value_deep `{Collaborators} f cloned el (h : heap) r h' :
  fresh_closed h0 h → update_value f cloned el h = (r, h') → fresh_closed h0 h'.
Proof.
  intros Hc. unfold update_value. destruct cloned as [| | | | |l]; try by intros [= _ <-].
  cbn. intros [= _ <-]. destruct (Props.proto_setter _ _); [done|].
  unfold Heap.set. destruct (h !! l) as [o|] eqn:Ho; [|done].
  intros l1 o1 Hl1 Ho1. destruct (decide (l = l1)) as [->|Hne].
  - rewrite list_lookup_insert_eq in Ho1 by (by eapply lookup_lt_Some).
    injection Ho1 as <-. cbn. apply set_Forall; [by eapply Hc | done].
  - rewrite list_lookup_insert_ne in Ho1 by done. by eapply Hc.
Qed.

End Clone.

Section Claim.
Context `{Collaborators}.

(** X13.  The values that the preprocessor returns are a deep copy: every object
    that can be reached from them is one that the call has made, so that
    nothing that the formatter gets is shared with the values of the
    caller, at any depth. *)
Theorem preprocessed_values_are_new msg values h v' h' :
  preprocessMessageValues msg values h = (Ok v', h') →
  ∀ l, reach h' v' l → length h ≤ l.
Proof.
  intros Hrun.
  assert (Hinit : fresh_closed h h).
  { intros l o Hl Ho. apply lookup_lt_Some in Ho. lia. }
  assert (Hend : fresh_closed h h' ∧ fresh_ref h v').
  { unfold preprocessMessageValues in Hrun.
    destruct (Value.truthy values); cbn [negb] in Hrun; [|by injection Hrun as <- <-].
    apply bind_Ok in Hrun as (c & h1 & Hc & Hrun).
    apply (clone_deep h) in Hc as [[_ Hc1] Hv]; [|done..].
    destruct (MessageParser_parse msg) as [els|]; [|done].
    apply bind_Ok in Hrun as ([] & h2 & Hms & Hrun).
    apply bind_Ok in Hrun as ([] & h3 & Hbytes & [= <- <-]).
    split; [|by apply Hv].
    apply (for_each_invariant (fresh_closed h)) in Hms;
      [|by intros; eapply update_value_deep|done].
    apply (for_each_invariant (fresh_closed h)) in Hbytes;
      [done|by intros; eapply update_value_deep|done]. }
  destruct Hend as [Hc Hv]. clear Hrun. intros l Hreach. revert Hv.
  induction Hreach as [l o Ho|l o k v l' Ho Hin _ IH]; intros Hv; [done|].
  apply IH. cbn in Hv.
  by apply (proj1 (Forall_forall _ _) (Hc l o Hv Ho) (k, v)).
Qed.

End Claim.

Lemma preprocessed_values_are_new_witness :
  @preprocessMessageValues Demo.collaborators Demo.ms_template (Ref 0) nested_values
  = (Ok (Ref 3),
     nested_values ++
     [ Object false [("n", Num (Fin 1%Qc))];
       Object false [("timeInMs", Num (Fin (Number.of_Z 1230))); ("detail", Ref 2)] ]) ∧
  ∀ l, reach
         (nested_values ++
          [ Object false [("n", Num (Fin 1%Qc))];
            Object false [("timeInMs", Num (Fin (Number.of_Z 1230))); ("detail", Ref 2)] ])
         (Ref 3) l → 2 ≤ l.
Proof.
  assert (Hrun : @preprocessMessageValues Demo.collaborators Demo.ms_template (Ref 0)
                   nested_values
                 = (Ok (Ref 3),
                    nested_values ++
                    [ Object false [("n", Num (Fin 1%Qc))];
                      Object false [("timeInMs", Num (Fin (Number.of_Z 1230)));
                                    ("detail", Ref 2)] ])) by reflexivity.
  split; [exact Hrun|].
  exact (@preprocessed_values_are_new Demo.collaborators _ _ _ _ _ Hrun).
Defined.

End DeepCopy.

(** ** Values with a circular structure *)

Module CircularValues.
Import Spec Copy CompFacts HeapFacts FrameFacts.

Section Clone.
Context (h0 : heap).

Lemma circular_entry v l :
  json_reach h0 v l → circular h0 l →
  ∃ l0 o0 k l1 l', v = Ref l0 ∧ h0 !! l0 = Some o0 ∧ (k, Ref l1) ∈ props o0 ∧
                   json_visible o0 k ∧ json_reach h0 (Ref l1) l' ∧ circular h0 l'.
Proof.
  intros Hreach Hcirc.
  assert (Href : ∀ v1 l2, json_reach h0 v1 l2 → ∃ l1, v1 = Ref l1)
    by (intros v1 l2 Hr; inversion Hr; eauto).
  inversion Hreach as [l1 o1 Hl1|l1 o1 k v1 l2 Hl1 Hin Hvis Hr]; subst.
  - destruct Hcirc as (o & k & v1 & Ho & Hin & Hvis & Hr).
    destruct (Href _ _ Hr) as [l1 ->].
    exists l, o, k, l1, l. repeat split; try done. by exists o, k, (Ref l1).
  - destruct (Href _ _ Hr) as [l3 ->]. by exists l1, o1, k, l3, l.
Qed.

(** One iteration of the loop over the properties leaves the objects that
    exist as they are. *)
Lemma clone_entry_prefix fuel stack (array : bool) k v (acc : list (string * val))
    (h : heap) r h' :
  h0 `prefix_of` h →
  ((if array then
      match JsString.array_index k with
      | Some _ =>
          v' ← Json.clone fuel stack (match v with Undefined => Null | _ => v end);
          mret (acc ++ [(k, v')])
      | None => mret acc
      end
    else
      match v with
      | Undefined => mret acc
      | _ => v' ← Json.clone fuel stack v; mret (acc ++ [(k, v')])
      end) : comp heap _) h = (r, h') →
  h0 `prefix_of` h'.
Proof.
  intros Hp.
  assert (Hstep : ∀ v1,
    ((v' ← Json.clone fuel stack v1; mret (acc ++ [(k, v')])) : comp heap _) h = (r, h') →
    h0 `prefix_of` h').
  { intros v1 Hb. apply bind_cases in Hb as [(e & Hr & _)|(v' & h3 & Hr & Hok)].
    - by apply (clone_prefix _ _ _ h0) in Hr as [? _].
    - injection Hok as _ <-. by apply (clone_prefix _ _ _ h0) in Hr as [? _]. }
  destruct array.
  - destruct (JsString.array_index k); [by eauto | by intros [= _ <-]].
  - destruct v; try (by eapply Hstep). by intros [= _ <-].
Qed.

Lemma clone_circular fuel stack v (h : heap) l :
  h0 `prefix_of` h → json_reach h0 v l → circular h0 l →
  ∃ e h', Json.clone fuel stack v h = (Throw e, h').
Proof.
  revert stack v h l. induction fuel as [|fuel IH]; intros stack v h l Hp Hreach Hcirc;
    destruct (circular_entry v l Hreach Hcirc)
      as (l0 & o0 & k & l1 & l' & -> & Ho0 & Hin & Hvis & Hr & Hc).
  - cbn. destruct (bool_decide (l0 ∈ stack)); by eexists _, _.
  - cbn [Json.clone]. destruct (bool_decide (l0 ∈ stack)); [by eexists _, _|].
    rewrite (prefix_lookup_Some _ _ _ _ Ho0 Hp).
    apply list_elem_of_split in Hin as (pre & post & Hsplit).
    assert (Hloop : ∃ e h',
      Json.clone_props (Json.clone fuel (l0 :: stack)) (is_array o0) (props o0) h
      = (Throw e, h')).
    { unfold Json.clone_props. rewrite Hsplit.
      apply (for_each_throw (λ s, h0 `prefix_of` s)); [| |done].
      - intros [k0 v0] a1 s1 r1 s2 _ Hs1. by apply clone_entry_prefix.
      - intros a1 s1 Hs1.
        destruct (IH (l0 :: stack) (Ref l1) s1 l' Hs1 Hr Hc) as (e & s2 & Hthrow).
        exists e, s2. unfold json_visible in Hvis. destruct (is_array o0).
        + destruct (Hvis eq_refl) as [n ->]. by rewrite bind_run, Hthrow.
        + by rewrite bind_run, Hthrow. }
    destruct Hloop as (e & h' & Hloop). exists e, h'. by rewrite bind_run, Hloop.
Qed.

End Clone.

Section Claim.
Context `{Collaborators}.

(** X14.  Values that hold themselves, directly or through other objects along
    properties that [JSON.stringify] writes, cannot be copied: the
    preprocessor throws, whatever the template, and so does the formatter;
    no object that exists is changed. *)
Theorem circular_values_throw locale' key' msg values h l :
  json_reach h values l → circular h l →
  (∃ e h', preprocessMessageValues msg values h = (Throw e, h') ∧ h `prefix_of` h') ∧
  ∃ e h', formatTemplate locale' key' msg values h = (Throw e, h').
Proof.
  intros Hreach Hcirc.
  assert (Hpre : ∃ e h', preprocessMessageValues msg values h = (Throw e, h')).
  { destruct (clone_circular h stack_limit [] values h l) as (e & h' & Hc); [done..|].
    exists e, h'. unfold preprocessMessageValues.
    destruct values as [| | | | |l0]; try by inversion Hreach.
    cbn [Value.truthy negb]. by rewrite bind_run, Hc. }
  destruct Hpre as (e & h' & Hpre). split.
  - exists e, h'. split; [done|]. by eapply preprocessMessageValues_prefix.
  - exists e, h'. unfold formatTemplate. by rewrite bind_run, Hpre.
Qed.

End Claim.

Lemma circular_values_throw_witness :
  json_reach circular_values (Ref 0) 0 ∧ circular circular_values 0 ∧
  @preprocessMessageValues Demo.collaborators "URL" (Ref 0) circular_values
  = (Throw TypeError, circular_values).
Proof.
  assert (Hreach : json_reach circular_values (Ref 0) 0) by (by eapply json_here).
  assert (Hcirc : circular circular_values 0).
  { eexists _, "self", (Ref 0). split; [reflexivity|]. split; [by right; left|].
    split; [by intros [=] | exact Hreach]. }
  split; [exact Hreach|]. split; [exact Hcirc|].
  destruct (@circular_values_throw Demo.collaborators "fr" Demo.url_key "URL" (Ref 0)
              circular_values 0 Hreach Hcirc) as [(e & h' & Hthrow & _) _].
  reflexivity.
Defined.

End CircularValues.

(** ** Edges of the preprocessor *)

Module PreprocessorEdges.
Import Spec CompFacts HeapFacts FrameFacts PropsFacts PropsGetSet FlatFacts.

Section Edges.
Context `{Collaborators}.




(** X16.  For truthy values that are not an object (a number other than
    zero and NaN, a string that is not empty, [true]) the preprocessor
    returns their JSON copy, which is the value itself, or [null] for an
    infinity, when the template has no placeholder of the two styles;
    when it has one, the assignment to a property of the copy throws a
    TypeError.  The store is not changed. *)
Theorem values_not_an_object msg els values h :
  is_ref values = false → Value.truthy values = true →
  MessageParser_parse msg = Some els →
  preprocessMessageValues msg values h
  = (if bool_decide (styled_ids "milliseconds" els = [] ∧ styled_ids "bytes" els = [])
     then Ok (json_value values) else Throw TypeError, h) ∧
  (json_value values = values ∨ ∃ s, values = Num (Inf s) ∧ json_value values = Null).
Proof.
  intros Href Htruthy Hparse.
  split; [|destruct values as [| | |[| |s]| |]; try (by left); right; by exists s].
  unfold preprocessMessageValues.
  rewrite Htruthy. cbn [negb]. rewrite bind_run, clone_not_ref by done.
  rewrite Hparse.
  assert (Href' : is_ref (json_value values) = false)
    by (by destruct values as [| | |[]| |]).
  assert (Hloop : ∀ f style,
    for_each (λ el _, update_value f (json_value values) el)
      (filter (λ el, MessageParser.has_style style el) els) tt h
    = (if bool_decide (styled_ids style els = []) then Ok tt else Throw TypeError, h)).
  { intros f style. unfold styled_ids.
    destruct (filter _ els) as [|el rest]; [done|].
    cbn [for_each]. rewrite bind_run. unfold update_value.
    by destruct (json_value values). }
  rewrite bind_run, Hloop.
  destruct (decide (styled_ids "milliseconds" els = [])) as [Hms|Hms].
  - rewrite (bool_decide_eq_true_2 _ Hms), bind_run, Hloop.
    destruct (decide (styled_ids "bytes" els = [])) as [Hb|Hb].
    + rewrite (bool_decide_eq_true_2 _ Hb). by rewrite bool_decide_eq_true_2.
    + rewrite (bool_decide_eq_false_2 _ Hb). by rewrite bool_decide_eq_false_2 by by intros [].
  - rewrite (bool_decide_eq_false_2 _ Hms). by rewrite bool_decide_eq_false_2 by by intros [].
Qed.

(** X17.  The preprocessor parses the default template, whatever template the
    locale has: when the default template does not parse, the formatter
    throws for all values that are present, before the message formatter
    is used, and it does not parse at all when the values are absent. *)
Theorem unparsable_default_template locale' key' dflt values h :
  MessageParser_parse dflt = None →
  (Value.truthy values = true →
   ∃ e h', formatTemplate locale' key' dflt values h = (Throw e, h') ∧ h `prefix_of` h') ∧
  (Value.truthy values = false →
   formatTemplate locale' key' dflt values h
   = (format_message (templateForMessageFormat locale' key' dflt)
        (localeForMessageFormat locale') Undefined
      ≫= λ m, mret (m, templateForMessageFormat locale' key' dflt)) h).
Proof.
  intros Hparse. split.
  - intros Htruthy.
    destruct (formatTemplate locale' key' dflt values h) as [r h'] eqn:Hf.
    pose proof (formatTemplate_prefix _ _ _ _ h h _ _ ltac:(done) Hf) as [Hp _].
    unfold formatTemplate in Hf. rewrite bind_run in Hf.
    unfold preprocessMessageValues in Hf. rewrite Htruthy in Hf. cbn [negb] in Hf.
    rewrite bind_run, Hparse in Hf.
    destruct (Json.clone stack_limit [] values h) as [[c|e] h1];
      injection Hf as <- <-; by eexists _, _.
  - intros Hfalsy. unfold formatTemplate, preprocessMessageValues.
    by rewrite Hfalsy.
Qed.

End Edges.


Lemma values_not_an_object_witness :
  @preprocessMessageValues Demo.collaborators Demo.ms_template (Str "abc") []
    = (Throw TypeError, []) ∧
  @preprocessMessageValues Demo.collaborators "URL" (Str "abc") [] = (Ok (Str "abc"), []) ∧
  @preprocessMessageValues Demo.collaborators "URL" (Num (Inf false)) [] = (Ok Null, []).
Proof.
  split; [|split].
  - by destruct (@values_not_an_object Demo.collaborators Demo.ms_template _ (Str "abc") []
                   eq_refl eq_refl eq_refl) as [-> _].
  - by destruct (@values_not_an_object Demo.collaborators "URL" _ (Str "abc") []
                   eq_refl eq_refl eq_refl) as [-> _].
  - by destruct (@values_not_an_object Demo.collaborators "URL" _ (Num (Inf false)) []
                   eq_refl eq_refl eq_refl) as [-> _].
Defined.

Lemma unparsable_default_template_witness :
  @MessageParser_parse Demo.collaborators "{" = None ∧
  @formatTemplate Demo.collaborators "fr" Demo.url_key "{" (Str "abc") []
  = (Throw SyntaxError, []).
Proof.
  split; [reflexivity|].
  destruct (@unparsable_default_template Demo.collaborators "fr" Demo.url_key "{"
              (Str "abc") [] eq_refl) as [Hthrow _].
  destruct (Hthrow eq_refl) as (e & h' & _ & _). reflexivity.
Defined.

End PreprocessorEdges.

(** ** The index of a token *)

Module TokenIndex.
Import Spec DecimalFacts'.

Lemma array_index_canonical p n : JsString.array_index p = Some n → p = JsString.of_nat n.
Proof.
  unfold JsString.array_index. destruct (NilZero.uint_of_string p) as [d|]; [|done].
  destruct (String.eqb_spec (JsString.of_nat (Nat.of_uint d)) p) as [Heq|]; [|done].
  by intros [= <-].
Qed.

(** X18.  The index of a token is looked up as a property of the array of
    usages: a token refers to a record exactly when its index is the
    decimal numeral, without leading zeros, of a position below the number
    of records of its key.  Other indices, although they are digits, give
    no record. *)
Theorem record_of_index usages s u :
  record_of usages s = Some u ↔
  ∃ tk n, TokenPattern.match_groups s = Some (tk, JsString.of_nat n) ∧
          default [] (usages !! tk) !! n = Some u ∧
          n < length (default [] (usages !! tk)).
Proof.
  unfold record_of, usage_at. split.
  - destruct (TokenPattern.match_groups s) as [[tk idx]|]; [|done].
    destruct (JsString.array_index idx) as [n|] eqn:Hidx; [|done].
    apply array_index_canonical in Hidx as ->. intros Hu.
    exists tk, n. split; [done|]. split; [done|]. by eapply lookup_lt_Some.
  - intros (tk & n & -> & Hu & _). by rewrite array_index_of_nat.
Qed.

(** A token with the index [00] refers to nothing, even when the key has a
    record at position 0. *)
Lemma record_of_index_witness :
  record_of {[ Demo.url_key := [Usage Demo.url_key "URL" Undefined] ]} Demo.url_token
    = Some (Usage Demo.url_key "URL" Undefined) ∧
  record_of {[ Demo.url_key := [Usage Demo.url_key "URL" Undefined] ]}
    (Demo.url_key +:+ "#00") = None.
Proof.
  split.
  - apply record_of_index. exists Demo.url_key, 0. split; [reflexivity|]. split; [done|].
    vm_compute. lia.
  - reflexivity.
Defined.

End TokenIndex.

(** ** The log that the report holds *)

Module StoredLog.
Import Spec LogStore CompFacts HeapFacts FrameFacts ResolverFacts LogFacts PropsGetSet.

Lemma prefix_keeps_above n (h h' : heap) : h `prefix_of` h' → keeps_above n h h'.
Proof. intros Hp l o _ Ho. by eapply prefix_lookup_Some. Qed.

Lemma stores_array_keeps n h h' l vs :
  keeps_above n h h' → stores_array n h l vs → stores_array n h' l vs.
Proof. intros Hk [Hl Ho]. split; [done|]. by apply Hk. Qed.

Lemma stores_occurrence_keeps n h h' l occ :
  keeps_above n h h' → stores_occurrence n h l occ → stores_occurrence n h' l occ.
Proof.
  intros Hk (Hl & lp & Ho & Hp). split; [done|]. exists lp.
  split; [by apply Hk | by eapply stores_array_keeps].
Qed.

Lemma stores_record_keeps n h h' l r :
  keeps_above n h h' → stores_record n h l r → stores_record n h' l r.
Proof.
  intros Hk (Hl & lo & ls & Ho & Harr & Hoccs). split; [done|]. exists lo, ls.
  split; [by apply Hk|]. split; [by eapply stores_array_keeps|].
  eapply Forall2_impl; [done|]. intros ? ?. by apply stores_occurrence_keeps.
Qed.

Lemma stores_log_keeps n h h' l log :
  keeps_above n h h' → stores_log n h l log → stores_log n h' l log.
Proof.
  intros Hk (Hl & ls & Ho & Hrecs). split; [done|]. exists ls.
  split; [by apply Hk|].
  eapply Forall2_impl; [done|]. intros ? ?. by apply stores_record_keeps.
Qed.

Lemma alloc_stores n o (h : heap) :
  n ≤ length h →
  Heap.alloc o h = (Ok (length h), h ++ [o]) ∧ h `prefix_of` h ++ [o] ∧
  n ≤ length h ∧ (h ++ [o]) !! length h = Some o.
Proof.
  intros Hn. split; [done|]. split; [by exists [o]|]. split; [done|].
  by rewrite lookup_app_r, Nat.sub_diag by lia.
Qed.

(** Allocating one object for each element of a list. *)
Lemma alloc_each_stores {A : Type} (R : heap → loc → A → Prop) n
    (alloc : A → comp heap loc) xs (h : heap) :
  (∀ h1 h2 l x, h1 `prefix_of` h2 → R h1 l x → R h2 l x) →
  allocates_as R n alloc → n ≤ length h →
  ∃ ls h', alloc_each alloc xs h = (Ok ls, h') ∧ h `prefix_of` h' ∧ Forall2 (R h') ls xs.
Proof.
  intros Hmono Ha Hn. unfold alloc_each.
  cut (∀ ls0 xs0 h, n ≤ length h → Forall2 (R h) ls0 xs0 → ∃ ls h',
         for_each (λ x ls, l ← alloc x; mret (ls ++ [l])) xs ls0 h = (Ok ls, h') ∧
         h `prefix_of` h' ∧ Forall2 (R h') ls (xs0 ++ xs)).
  { intros Hc. by apply (Hc [] [] h). }
  clear h Hn. induction xs as [|x xs IH]; intros ls0 xs0 h Hn Hdone; cbn [for_each].
  - exists ls0, h. by rewrite app_nil_r.
  - rewrite !bind_run. destruct (Ha x h Hn) as (l & h1 & -> & Hp & Hx). cbn.
    destruct (IH (ls0 ++ [l]) (xs0 ++ [x]) h1) as (ls & h' & -> & Hp' & Hall).
    + apply prefix_length in Hp. lia.
    + apply Forall2_app; [|by repeat constructor].
      eapply Forall2_impl; [done|]. intros ? ?. by apply Hmono.
    + exists ls, h'. split; [done|]. split; [by etrans|]. by rewrite <- (assoc_L (++)) in Hall.
Qed.

Lemma alloc_array_stores n : allocates_as (stores_array n) n alloc_array.
Proof.
  intros vs h Hn. exists (length h), (h ++ [Object true (imap (λ i v, (JsString.of_nat i, v)) vs)]).
  destruct (alloc_stores n (Object true (imap (λ i v, (JsString.of_nat i, v)) vs)) h Hn)
    as (Ha & Hp & _ & Ho).
  by repeat split.
Qed.

Lemma alloc_occurrence_stores n : allocates_as (stores_occurrence n) n alloc_occurrence.
Proof.
  intros occ h Hn. unfold alloc_occurrence. rewrite bind_run.
  destruct (alloc_array_stores n (Str <$> occ_path occ) h Hn) as (lp & h1 & -> & Hp & Harr).
  assert (Hn1 : n ≤ length h1) by (apply prefix_length in Hp; lia).
  destruct (alloc_stores n (Object false [("values", occ_values occ); ("path", Ref lp)]) h1 Hn1)
    as (-> & Hp1 & _ & Ho).
  eexists _, _. split; [done|]. split; [by etrans|]. split; [done|]. exists lp.
  split; [done|]. eapply stores_array_keeps; [|done]. by apply prefix_keeps_above.
Qed.

Lemma alloc_record_stores n : allocates_as (stores_record n) n alloc_record.
Proof.
  intros r h Hn. unfold alloc_record. rewrite bind_run.
  destruct (alloc_each_stores (stores_occurrence n) n alloc_occurrence (log_occurrences r) h)
    as (ls & h1 & -> & Hp & Hoccs); [|apply alloc_occurrence_stores|done|].
  { intros h1 h2 l x Hp. by apply stores_occurrence_keeps, prefix_keeps_above. }
  assert (Hn1 : n ≤ length h1) by (apply prefix_length in Hp; lia).
  rewrite bind_run.
  destruct (alloc_array_stores n (Ref <$> ls) h1 Hn1) as (lo & h2 & -> & Hp1 & Harr).
  assert (Hn2 : n ≤ length h2) by (apply prefix_length in Hp1; lia).
  destruct (alloc_stores n
              (Object false [("template", Str (log_template r)); ("occurrences", Ref lo)])
              h2 Hn2) as (-> & Hp2 & _ & Ho).
  eexists _, _. split; [done|]. split; [by etrans; [|etrans]|]. split; [done|].
  exists lo, ls. split; [done|].
  split; [by eapply stores_array_keeps; [apply prefix_keeps_above|]|].
  eapply Forall2_impl; [done|]. intros ? ?.
  apply stores_occurrence_keeps, prefix_keeps_above. by etrans.
Qed.

Lemma alloc_log_stores n : allocates_as (stores_log n) n alloc_log.
Proof.
  intros log h Hn. unfold alloc_log. rewrite bind_run.
  destruct (alloc_each_stores (stores_record n) n alloc_record log.*2 h)
    as (ls & h1 & -> & Hp & Hrecs); [|apply alloc_record_stores|done|].
  { intros h1 h2 l x Hp. by apply stores_record_keeps, prefix_keeps_above. }
  assert (Hn1 : n ≤ length h1) by (apply prefix_length in Hp; lia).
  destruct (alloc_stores n (Object false (zip log.*1 (Ref <$> ls))) h1 Hn1)
    as (-> & Hp1 & _ & Ho).
  eexists _, _. split; [done|]. split; [by etrans|]. split; [done|].
  exists ls. split; [done|].
  eapply Forall2_impl; [done|]. intros ? ?. by apply stores_record_keeps, prefix_keeps_above.
Qed.

Section Pass.
Context `{Collaborators}.

Lemma replaceInObject_length fuel locale' usages obj path log (h : heap) r h' :
  replaceInObject fuel locale' usages obj path log h = (r, h') → length h ≤ length h'.
Proof.
  revert obj path log h r h'.
  induction fuel as [|fuel IH]; intros obj path log h r h'; [by intros [= _ <-]|].
  cbn. destruct obj as [| | | | |l]; try by intros [= _ <-].
  intros Hl. apply (for_each_invariant (λ s, length h ≤ length s)) in Hl; [done| |done].
  intros [key value] a1 s1 r1 s2 _ Hs1 Hbody. unfold replaceEntry in Hbody.
  assert (Hrec : replaceInObject fuel locale' usages value (path ++ [key]) a1 s1 = (r1, s2) →
                 length h ≤ length s2) by (intros Hr; apply IH in Hr; lia).
  destruct value as [| | | |str|]; auto.
  destruct (TokenPattern.is_token str); auto.
  apply resolveToken_cases in Hbody as [(_ & _ & ->)|(tk & idx & u & _ & _ & Hbody)]; [done|].
  destruct Hbody as [(e & Hf & _)|(m & hf & Hf & -> & _)];
    apply (formatTemplate_prefix _ _ _ _ s1) in Hf as [Hp%prefix_length _]; try done; [lia|].
  rewrite heap_set_length. lia.
Qed.

(** X19.  When a pass returns, the report holds the log: [localeLog] of the root
    refers to a new object with one property for each key of the log, in
    the order of the log; each refers to an object with the template used
    and the array of the occurrences, and an occurrence is an object with
    the values of the usage and the array of the keys of the path. *)
Theorem log_is_stored root locale' st log st' :
  is_Some (store st !! root) →
  replaceLocaleStringReferences (Ref root) locale' st = (Ok log, st') →
  ∃ llog, Heap.get (store st') root "localeLog" = Ref llog ∧
          stores_log (length (store st)) (store st') llog log.
Proof.
  intros Hroot Hr.
  apply replaceLocaleStringReferences_Ok in Hr as (l & h1 & llog & h2 & [= <-] & Hr & Ha & _ & _ & ->).
  apply replaceInObject_length in Hr.
  destruct (alloc_log_stores (length (store st)) log h1 Hr) as (llog' & h2' & Ha' & Hp & Hlog).
  rewrite Ha in Ha'. injection Ha' as <- <-.
  apply lookup_lt_is_Some in Hroot.
  assert (Hroot2 : is_Some (h2 !! root)).
  { apply lookup_lt_is_Some. apply prefix_length in Hp. lia. }
  destruct Hroot2 as [o Ho]. exists llog. cbn. split.
  - unfold Heap.get, Heap.entries. rewrite (heap_set_lookup_eq _ _ _ _ o Ho). cbn.
    by rewrite props_get_set_eq.
  - eapply stores_log_keeps; [|done].
    intros l1 o1 Hl1 Ho1. rewrite heap_set_lookup_ne by lia. done.
Qed.

End Pass.

Lemma log_is_stored_witness :
  is_Some (store (Demo.after_url (two_leaf_report Demo.url_token Demo.url_token)) !! 0) ∧
  ∃ log st',
    Demo.two_leaf_pass = (Ok log, st') ∧
    ∃ llog, Heap.get (store st') 0 "localeLog" = Ref llog ∧
            stores_log 4 (store st') llog log.
Proof.
  split; [by eexists|].
  destruct Demo.two_leaf_pass as [[log|e] st'] eqn:Hrun; [|by vm_compute in Hrun].
  exists log, st'. split; [done|].
  apply (@log_is_stored Demo.collaborators 0 "fr"
           (Demo.after_url (two_leaf_report Demo.url_token Demo.url_token))); [by eexists|].
  exact Hrun.
Defined.

End StoredLog.

(** ** A pass resolves every token of the report *)

Module FullResolution.
Import Spec Shape Resolution CompFacts HeapFacts FrameFacts PropsFacts ResolverFacts LogFacts
  FlatFacts.

#[local] Arguments resolveToken : simpl never.
#[local] Arguments replaceInObject : simpl never.

Section Walk.
Context `{Collaborators}.
Context (locale' : string) (usages : gmap string (list StringUsage)) (msg : string → string).
Context (h0 : heap) (Hwf : wf_keys h0) (Hclosed : closed h0).
Context (Hfmt : formats_to locale' usages msg h0) (Hrec : tokens_recorded usages h0).

Lemma partly_refl : (partly msg) h0 h0.
Proof.
  split; [done|]. intros l o Ho. exists o. split; [done|]. split; [done|].
  apply Forall_Forall2_diag, Forall_forall. intros p _. split; [done | by left].
Qed.

Lemma token_message l o k s :
  h0 !! l = Some o → (k, Str s) ∈ props o → TokenPattern.is_token s = true →
  TokenPattern.is_token (msg s) = false.
Proof using Hfmt Hrec.
  intros Ho Hin Htok. destruct (Hrec l o k s Ho Hin Htok) as [u Hu]. unfold record_of in Hu.
  destruct (TokenPattern.match_groups s) as [[tk idx]|] eqn:Hm; [|done].
  by destruct (Hfmt l o k s tk idx u h0 Ho Hin Htok Hm Hu partly_refl) as (h' & _ & ?).
Qed.

(** A store that has grown is a later store. *)
Lemma later_prefix (h h' : heap) : h `prefix_of` h' → later h h'.
Proof.
  intros Hp l o Ho. exists o. split; [by eapply prefix_lookup_Some|]. split; [done|].
  apply Forall_Forall2_diag, Forall_forall. intros p _. split; [done | by left].
Qed.

Lemma partly_prefix (h h' : heap) : (partly msg) h0 h → h `prefix_of` h' → (partly msg) h0 h'.
Proof.
  intros [Hlen Hobj] Hp. split; [apply prefix_length in Hp; lia|].
  intros l o Ho. destruct (Hobj l o Ho) as (o' & Ho' & ?). exists o'.
  split; [by eapply prefix_lookup_Some | done].
Qed.

(** A (resolved msg) value is not of the token pattern. *)
Lemma resolve_quiet l o p :
  h0 !! l = Some o → p ∈ props o → quiet ((resolve_val msg) p.2).
Proof using Hfmt Hrec.
  intros Ho Hin s. destruct p as [k v]. cbn. destruct v as [| | | |s0|]; try done.
  cbn. destruct (TokenPattern.is_token s0) eqn:Htok.
  - intros [= <-]. by apply (token_message l o k s0).
  - by intros [= <-].
Qed.

Lemma resolve_quiet_id v : quiet v → (resolve_val msg) v = v.
Proof.
  intros Hq. destruct v as [| | | |s|]; try done. cbn. by rewrite (Hq s eq_refl).
Qed.

Lemma later_refl (h : heap) : later h h.
Proof.
  intros l o Ho. exists o. split; [done|]. split; [done|].
  apply Forall_Forall2_diag, Forall_forall. intros p _. split; [done | by left].
Qed.

Lemma later_trans (h1 h2 h3 : heap) : later h1 h2 → later h2 h3 → later h1 h3.
Proof.
  intros H12 H23 l o1 Ho1. destruct (H12 l o1 Ho1) as (o2 & Ho2 & Ha2 & Hf2).
  destruct (H23 l o2 Ho2) as (o3 & Ho3 & Ha3 & Hf3).
  exists o3. split; [done|]. split; [congruence|].
  revert Hf3. generalize (props o3) as ps3. clear Ho3 Ha3.
  induction Hf2 as [|p1 p2 ps1 ps2 [Hk Hv] _ IH]; intros ps3 Hf3; inversion Hf3; subst;
    constructor; [|by apply IH].
  match goal with Hr : later_rel p2 _ |- _ => destruct Hr as [Hk3 Hv3] end.
  split; [congruence|]. destruct Hv as [Hv|Hv]; [|by right].
  destruct Hv3 as [Hv3|Hv3]; [left; congruence | right; by rewrite <- Hv].
Qed.

(** A value that is not a token stays where it is. *)
Lemma later_keeps (h h' : heap) l o i k v :
  later h h' → h !! l = Some o → props o !! i = Some (k, v) → quiet v →
  ∃ o', h' !! l = Some o' ∧ props o' !! i = Some (k, v).
Proof.
  intros Hl Ho Hi Hq. destruct (Hl l o Ho) as (o' & Ho' & _ & Hf). exists o'. split; [done|].
  destruct (Forall2_lookup_l _ _ _ _ _ Hf Hi) as ([k' v'] & Hi' & Hk & Hv).
  cbn in Hk, Hv. subst k'. by destruct Hv as [->|?].
Qed.

Lemma resolved_stays (h h' : heap) l :
  (resolved msg) h0 h l → later h h' → (resolved msg) h0 h' l.
Proof using Hfmt Hrec.
  intros Hres Hl o Ho. specialize (Hres o Ho).
  destruct (Hl l _ Hres) as (o' & Ho' & Harr & Hf). rewrite Ho'. f_equal.
  destruct o' as [arr' ps']. cbn in Harr, Hf. unfold resolve_object. f_equal; [done|].
  apply list_eq. intros i.
  destruct (((λ p : string * val, (p.1, (resolve_val msg) p.2)) <$> props o) !! i)
    as [p|] eqn:Hi.
  - destruct (Forall2_lookup_l _ _ _ _ _ Hf Hi) as ([k' v'] & Hi' & Hk & Hv).
    rewrite Hi'. f_equal. apply list_elem_of_lookup_2 in Hi.
    apply list_elem_of_fmap in Hi as ([k0 v0] & -> & Hin).
    cbn in *. subst k'. f_equal.
    destruct Hv as [->|Hnq]; [done|]. destruct Hnq. by apply (resolve_quiet l o (k0, v0)).
  - apply lookup_ge_None. apply lookup_ge_None in Hi. apply Forall2_length in Hf.
    cbn in Hf. lia.
Qed.

Lemma depth_ok_primitive fuel v v' :
  depth_ok h0 fuel v = true → (∀ l, v' ≠ Ref l) → depth_ok h0 fuel v' = true.
Proof.
  destruct fuel as [|fuel]; [done|]. intros _ Hv'. destruct v' as [| | | | |l]; try done.
  by destruct (Hv' l).
Qed.

Lemma step_rel_keys (ps ps' : list (string * val)) :
  Forall2 (step_rel msg) ps ps' → Props.keys ps' = Props.keys ps.
Proof.
  unfold Props.keys. induction 1 as [|p p' ps ps' [Hk _] _ IH]; [done|]. cbn. by rewrite Hk, IH.
Qed.

(** The loop over the snapshot [etodo] of the entries that are left. *)
Lemma loop fuel l o path (h : heap) :
  walks locale' usages msg h0 fuel → h0 !! l = Some o →
  ∀ todo etodo pre log (h1 : heap),
    props o = pre ++ todo → Forall2 (step_rel msg) todo etodo →
    (∀ i e, etodo !! i = Some e →
       ∃ oh, h !! l = Some oh ∧ props oh !! (length pre + i) = Some e) →
    Forall (λ p : string * val, depth_ok h0 fuel p.2 = true) todo →
    (partly msg) h0 h1 → later h h1 →
    (∀ i p, pre !! i = Some p →
       ∃ o1, h1 !! l = Some o1 ∧ props o1 !! i = Some (p.1, (resolve_val msg) p.2)) →
    (∀ p l', p ∈ pre → reach h0 p.2 l' → (resolved msg) h0 h1 l') →
    ∃ log' h',
      for_each (replaceEntry (replaceInObject fuel locale' usages) locale' usages l path)
        etodo log h1 = (Ok log', h') ∧
      (partly msg) h0 h' ∧ later h h' ∧
      (∀ i p, props o !! i = Some p →
         ∃ o1, h' !! l = Some o1 ∧ props o1 !! i = Some (p.1, (resolve_val msg) p.2)) ∧
      (∀ p l', p ∈ props o → reach h0 p.2 l' → (resolved msg) h0 h' l').
Proof using Hwf Hclosed Hfmt Hrec.
  intros IH Ho todo. induction todo as [|p todo IHl];
    intros etodo pre log h1 Hsplit Hf Hsnap Hdepth Hp1 Hl1 Hdone Hreach.
  { inversion Hf; subst. rewrite app_nil_r in Hsplit. subst pre.
    exists log, h1. split; [done|]. split; [done|]. split; [done|]. by split. }
  inversion Hf as [|p_ e todo_ etodo' [Hk He] Hf']; subst. clear Hf.
  apply Forall_cons in Hdepth as [Hdp Hdepth].
  assert (Hin : p ∈ props o) by (rewrite Hsplit; apply elem_of_app; right; by left).
  assert (Hj : props o !! length pre = Some p).
  { rewrite Hsplit. by rewrite lookup_app_r, Nat.sub_diag by lia. }
  (* the entry in the snapshot, in the state of the loop and in the first store *)
  destruct (Hsnap 0 e eq_refl) as (oh & Hoh & Hje). rewrite Nat.add_0_r in Hje.
  destruct (proj2 Hp1 l o Ho) as (o1 & Ho1 & Harr1 & Hf1).
  destruct (Forall2_lookup_l _ _ _ _ _ Hf1 Hj) as (e1 & Hj1 & Hk1 & He1).
  assert (Hnd1 : NoDup (Props.keys (props o1))).
  { rewrite (step_rel_keys _ _ Hf1).
    apply (proj1 (Forall_forall _ _) Hwf o). by eapply list_elem_of_lookup_2. }
  (* what is left to do once the entry is done *)
  assert (Hnext : ∀ log2 (h2 : heap),
    (partly msg) h0 h2 → later h1 h2 →
    (∃ o2, h2 !! l = Some o2 ∧ props o2 !! length pre = Some (p.1, (resolve_val msg) p.2)) →
    (∀ l', reach h0 p.2 l' → (resolved msg) h0 h2 l') →
    ∃ log' h',
      for_each (replaceEntry (replaceInObject fuel locale' usages) locale' usages l path)
        etodo' log2 h2 = (Ok log', h') ∧
      (partly msg) h0 h' ∧ later h h' ∧
      (∀ i p, props o !! i = Some p →
         ∃ o1, h' !! l = Some o1 ∧ props o1 !! i = Some (p.1, (resolve_val msg) p.2)) ∧
      (∀ p l', p ∈ props o → reach h0 p.2 l' → (resolved msg) h0 h' l')).
  { intros log2 h2 Hp2 Hl2 Hj2 Hr2.
    apply (IHl etodo' (pre ++ [p])); try done.
    - by rewrite <- (assoc_L (++)).
    - intros i e' Hi. destruct (Hsnap (S i) e' Hi) as (oh' & Hoh' & Hi').
      exists oh'. split; [done|]. rewrite length_app. cbn.
      by replace (length pre + 1 + i) with (length pre + S i) by lia.
    - by eapply later_trans.
    - intros i q Hi. destruct (decide (i < length pre)) as [Hlt|Hge].
      + rewrite lookup_app_l in Hi by done.
        destruct (Hdone i q Hi) as (oa & Hoa & Hia).
        apply (later_keeps h1 h2 l oa i); [done..|].
        apply (resolve_quiet l o q); [done|]. rewrite Hsplit. apply elem_of_app. left.
        by eapply list_elem_of_lookup_2.
      + rewrite lookup_app_r in Hi by lia.
        destruct (i - length pre) as [|n] eqn:Hn; [|by destruct n].
        injection Hi as <-. by replace i with (length pre) by lia.
    - intros q l' [Hq|Hq]%elem_of_app Hr.
      + eapply resolved_stays; [by eapply Hreach | done].
      + apply list_elem_of_singleton in Hq as ->. by apply Hr2. }
  cbn [for_each]. rewrite bind_run. destruct e as [k ev]. destruct p as [pk pv].
  destruct e1 as [k1 ev1]. cbn in Hk, He, Hk1, He1. subst k k1.
  unfold replaceEntry.
  assert (Htoken : ∀ s, ev = Str s → TokenPattern.is_token s = true →
    ∃ log' h',
      (x ← resolveToken locale' usages l pk s (path ++ [pk]) log;
       for_each (replaceEntry (replaceInObject fuel locale' usages) locale' usages l path)
         etodo' x) h1 = (Ok log', h') ∧
      (partly msg) h0 h' ∧ later h h' ∧
      (∀ i p, props o !! i = Some p →
         ∃ o1, h' !! l = Some o1 ∧ props o1 !! i = Some (p.1, (resolve_val msg) p.2)) ∧
      (∀ p l', p ∈ props o → reach h0 p.2 l' → (resolved msg) h0 h' l')).
  { intros s -> Htok.
    assert (Hpv : pv = Str s).
    { destruct He as [<-|He]; [done|].
      pose proof (resolve_quiet l o (pk, pv) Ho Hin s) as Hq. cbn in Hq.
      rewrite Hq in Htok; [done | by symmetry]. }
    subst pv.
    destruct (Hrec l o pk s Ho Hin Htok) as [u Hu]. unfold record_of in Hu.
    destruct (TokenPattern.match_groups s) as [[tk idx]|] eqn:Hm; [|done].
    destruct (Hfmt l o pk s tk idx u h1 Ho Hin Htok Hm Hu Hp1) as (h1' & Hformat & Hquiet).
    destruct (formatTemplate_prefix _ _ _ _ h1 h1 _ _ (reflexivity h1) Hformat) as [Hpre _].
    rewrite bind_run. unfold resolveToken. rewrite Hm, Hu, bind_run, Hformat. cbn.
    pose proof (partly_prefix h1 h1' Hp1 Hpre) as Hp1'.
    pose proof (prefix_lookup_Some _ _ _ _ Ho1 Hpre) as Ho1'.
    assert (Hset : Heap.set l pk (Str (msg s)) h1' !! l
                   = Some (Object (is_array o1) (<[length pre := (pk, Str (msg s))]> (props o1)))).
    { rewrite (heap_set_lookup_eq _ _ _ _ o1 Ho1').
      by rewrite (props_set_lookup pk (props o1) (length pre) ev1). }
    apply Hnext.
    - split; [by rewrite heap_set_length; apply Hp1'|].
      intros l2 o2 Ho2. destruct (decide (l = l2)) as [<-|Hne].
      + rewrite Hset. eexists. split; [done|]. split; [by simplify_eq|]. cbn.
        simplify_eq. rewrite <- (list_insert_id (props o) (length pre) (pk, Str s)) by done.
        apply Forall2_insert; [done|]. split; [done|]. right. cbn. by rewrite Htok.
      + rewrite heap_set_lookup_ne by done. by apply Hp1'.
    - apply (later_trans h1 h1'); [by apply later_prefix|].
      intros l2 o2 Ho2. destruct (decide (l = l2)) as [<-|Hne].
      + rewrite Hset. eexists. split; [done|]. split; [by simplify_eq|]. cbn.
        simplify_eq. rewrite <- (list_insert_id (props o1) (length pre) (pk, ev1)) at 1 by done.
        apply Forall2_insert.
        * apply Forall_Forall2_diag, Forall_forall. intros q _. split; [done | by left].
        * split; [done|]. cbn. destruct He1 as [-> | ->].
          -- right. intros Hq. by rewrite (Hq s eq_refl) in Htok.
          -- left. cbn. by rewrite Htok.
      + rewrite heap_set_lookup_ne by done. by apply later_refl.
    - eexists. split; [exact Hset|]. cbn. rewrite Htok.
      apply list_lookup_insert_eq. by eapply lookup_lt_Some.
    - intros l' Hr. inversion Hr. }
  assert (Hother : quiet ev →
    ∃ log' h',
      (x ← replaceInObject fuel locale' usages ev (path ++ [pk]) log;
       for_each (replaceEntry (replaceInObject fuel locale' usages) locale' usages l path)
         etodo' x) h1 = (Ok log', h') ∧
      (partly msg) h0 h' ∧ later h h' ∧
      (∀ i p, props o !! i = Some p →
         ∃ o1, h' !! l = Some o1 ∧ props o1 !! i = Some (p.1, (resolve_val msg) p.2)) ∧
      (∀ p l', p ∈ props o → reach h0 p.2 l' → (resolved msg) h0 h' l')).
  { intros Hq.
    assert (Hev : ev = (resolve_val msg) pv).
    { destruct He as [-> | ->]; [|done]. by rewrite resolve_quiet_id. }
    assert (Hd : depth_ok h0 fuel ev = true).
    { destruct He as [-> | ->]; [done|]. cbn in Hdp.
      destruct pv as [| | | |s|]; try done. cbn. by destruct (TokenPattern.is_token s);
        [apply (depth_ok_primitive fuel (Str s)) | ]. }
    assert (Hbound : ∀ l1, ev = Ref l1 → l1 < length h0).
    { intros l1 ->. apply (Hclosed l o pk l1 Ho).
      destruct pv as [| | | |s|l2]; cbn in Hev; try discriminate Hev.
      - by destruct (TokenPattern.is_token s).
      - by injection Hev as ->. }
    destruct (IH ev (path ++ [pk]) log h1 Hp1 Hd Hbound)
      as (log2 & h2 & Hrun & Hp2 & Hl2 & Hr2).
    rewrite bind_run, Hrun. apply Hnext; [done..| |].
    - destruct (later_keeps h h1 l oh (length pre) pk ev Hl1 Hoh Hje Hq) as (oa & Hoa & Hia).
      destruct (later_keeps h1 h2 l oa (length pre) pk ev Hl2 Hoa Hia Hq) as (ob & Hob & Hib).
      exists ob. split; [done|]. cbn. by rewrite <- Hev.
    - intros l' Hr. apply Hr2. cbn in Hr. rewrite Hev.
      inversion Hr; subst; done. }
  destruct ev as [| | | |s|l1]; try (by apply Hother).
  destruct (TokenPattern.is_token s) eqn:Htok; [by apply (Htoken s)|].
  apply Hother. by intros s' [= <-].
Qed.

Lemma walk fuel : walks locale' usages msg h0 fuel.
Proof using Hwf Hclosed Hfmt Hrec.
  induction fuel as [|fuel IH]; intros obj path log h Hp Hd Hb; [done|].
  destruct obj as [| | | | |l];
    try (exists log, h; split; [done|]; split; [done|]; split; [apply later_refl|];
         intros l' Hr; by inversion Hr).
  unfold replaceInObject; fold replaceInObject.
  destruct (lookup_lt_is_Some_2 h0 l (Hb l eq_refl)) as [o Ho].
  destruct (proj2 Hp l o Ho) as (oh & Hoh & Harr & Hf).
  destruct (loop fuel l o path h IH Ho (props o) (props oh) [] log h) as
    (log' & h' & Hrun & Hp' & Hl' & Hall & Hreach); try done.
  - intros i e Hi. exists oh. by split.
  - cbn in Hd. unfold Heap.entries in Hd. rewrite Ho in Hd.
    apply Forall_forall. intros p Hin. rewrite List.forallb_forall in Hd.
    apply Hd. by apply list_elem_of_In.
  - apply later_refl.
  - intros p l' Hin. by apply elem_of_nil in Hin.
  - exists log', h'. unfold Heap.entries. rewrite Hoh. split; [done|].
    split; [done|]. split; [done|].
    assert (Hl : (resolved msg) h0 h' l).
    { intros o' Ho'. simplify_eq.
      destruct (proj2 Hp' l o Ho) as (o1 & Ho1 & Harr1 & Hf1). rewrite Ho1. f_equal.
      destruct o1 as [arr1 ps1]. cbn in Harr1, Hf1. unfold resolve_object. f_equal; [done|].
      apply list_eq. intros i. rewrite list_lookup_fmap.
      destruct (props o !! i) as [p|] eqn:Hi; cbn.
      - destruct (Hall i p Hi) as (o2 & Ho2 & Hi2). by simplify_eq.
      - apply lookup_ge_None. apply lookup_ge_None in Hi.
        apply Forall2_length in Hf1. lia. }
    intros l' Hr. inversion Hr as [l1 o1 Hl1|l1 o1 k v l2 Hl1 Hin Hr2]; subst; [done|].
    simplify_eq. by apply (Hreach (k, v)).
Qed.

End Walk.

Section Claim.
Context `{Collaborators}.

(** X20.  Let the objects of the store have no two properties of one name
    and its references be to objects of the store, let every token of the
    store have a record, let the formatter return for each of these
    tokens, in every store of the pass, a message that is not of the token
    pattern itself (it may add the copy of the values to the store), and
    let the report be nested no deeper than the stack allows.  Then the
    pass returns, and every object of the tree under the root is as
    before, except that each token is replaced by its message, also when
    the object can be reached along several paths; the root has
    [localeLog] besides. *)
Theorem pass_resolves_report root locale' st msg :
  wf_keys (store st) → closed (store st) → is_Some (store st !! root) →
  formats_to locale' (formattedStringUsages st) msg (store st) →
  tokens_recorded (formattedStringUsages st) (store st) →
  depth_ok (store st) stack_limit (Ref root) = true →
  ∃ log llog st',
    replaceLocaleStringReferences (Ref root) locale' st = (Ok log, st') ∧
    (∀ l o, l ≠ root → reach (store st) (Ref root) l → store st !! l = Some o →
       store st' !! l = Some (resolve_object msg o)) ∧
    (∀ o, store st !! root = Some o →
       store st' !! root
       = Some (Object (is_array o)
                 (Props.set "localeLog" (Ref llog) (props (resolve_object msg o))))).
Proof.
  intros Hwf Hclosed Hroot Hfmt Hrec Hd.
  destruct (walk locale' (formattedStringUsages st) msg (store st) Hwf Hclosed Hfmt Hrec
              stack_limit (Ref root) [] [] (store st) (partly_refl msg (store st)) Hd)
    as (log & h1 & Hrun & Hp & Hl & Hres).
  { intros l [= <-]. by apply lookup_lt_is_Some. }
  destruct (alloc_log_allocates log h1) as (llog & h2 & Ha & Hpre & Hrange).
  exists log, llog,
    (State (Heap.set root "localeLog" (Ref llog) h2) (formattedStringUsages st) (locale st)).
  split.
  - unfold replaceLocaleStringReferences, on_store.
    by rewrite bind_run, Hrun, bind_run, Ha.
  - cbn. split.
    + intros l o Hne Hreach Ho. rewrite heap_set_lookup_ne by done.
      eapply prefix_lookup_Some; [|done]. by apply Hres.
    + intros o Ho.
      assert (Hroot' : h2 !! root = Some (resolve_object msg o)).
      { eapply prefix_lookup_Some; [|done]. apply Hres; [|done]. by eapply reach_here. }
      by rewrite (heap_set_lookup_eq _ _ _ _ _ Hroot').
Qed.

End Claim.

Lemma pass_resolves_report_witness :
  wf_keys timed_report ∧ closed timed_report ∧ is_Some (timed_report !! 0) ∧
  @formats_to Demo.collaborators "fr" timed_usages url_message timed_report ∧
  tokens_recorded timed_usages timed_report ∧
  depth_ok timed_report (@stack_limit Demo.collaborators) (Ref 0) = true ∧
  ∃ log st',
    @replaceLocaleStringReferences Demo.collaborators (Ref 0) "fr"
      (State timed_report timed_usages "en") = (Ok log, st') ∧
    store st' !! 1 = Some (Object false [("title", Str "URL"); ("score", Str "x#12")]).
Proof.
  assert (Hwf : wf_keys timed_report) by (apply (bool_decide_unpack _); by vm_compute).
  assert (Hclosed : closed timed_report).
  { intros l o k l' Hl Hin.
    destruct l as [|[|[|l]]]; cbn in Hl; [| | |done]; injection Hl as <-; cbn in Hin;
      repeat (apply elem_of_cons in Hin as [Hin|Hin]; [inversion Hin; cbn; lia|]);
      by apply elem_of_nil in Hin. }
  assert (Hroot : is_Some (timed_report !! 0)) by (by eexists).
  assert (Hfmt : @formats_to Demo.collaborators "fr" timed_usages url_message timed_report).
  { intros l o k s tk idx u h _ _ _ _ Hu Hp. unfold usage_at in Hu.
    destruct (JsString.array_index idx) as [n|]; [|done]. unfold timed_usages in Hu.
    destruct (decide (tk = Demo.url_key)) as [->|Hne];
      [|by rewrite lookup_singleton_ne in Hu].
    rewrite lookup_singleton_eq in Hu. destruct n as [|n]; [|done]. injection Hu as <-.
    destruct (proj2 Hp 2 _ eq_refl) as (o' & Ho' & _ & Hf).
    assert (Hflat : flat o').
    { unfold flat. destruct o' as [arr' ps']. cbn in Hf |- *.
      inversion Hf as [|p p' ps ps'' [_ Hv] Hnil]; subst. inversion Hnil; subst.
      constructor; [|constructor]. by destruct Hv as [-> | ->]. }
    eexists. split; [|reflexivity]. unfold formatTemplate. rewrite bind_run.
    change (@templateForMessageFormat Demo.collaborators "fr" Demo.url_key
              (template (Usage Demo.url_key "URL" (Ref 2)))) with "URL".
    cbn [values template].
    rewrite (@preprocess_flat Demo.collaborators "URL" [MessageParser.messageTextElement "URL"]
               2 o' h eq_refl Ho' Hflat ltac:(done)).
    reflexivity. }
  assert (Hrec : tokens_recorded timed_usages timed_report).
  { intros l o k s Ho Hin Htok.
    assert (Hs : s = Demo.url_token).
    { do 3 (destruct l as [|l];
            [injection Ho as <-; cbn in Hin;
             repeat (apply elem_of_cons in Hin as [Heq|Hin];
                     [simplify_eq; try done; by vm_compute in Htok|]);
             by apply elem_of_nil in Hin|]).
      done. }
    subst s. by eexists. }
  split; [exact Hwf|]. split; [exact Hclosed|]. split; [exact Hroot|].
  split; [exact Hfmt|]. split; [exact Hrec|]. split; [reflexivity|].
  destruct (@pass_resolves_report Demo.collaborators 0 "fr" (State timed_report timed_usages "en")
              url_message Hwf Hclosed Hroot Hfmt Hrec eq_refl)
    as (log & llog & st' & Hrun & Hothers & _).
  exists log, st'. split; [exact Hrun|].
  apply (Hothers 1 (Object false [("title", Str Demo.url_token); ("score", Str "x#12")]));
    [done| |reflexivity].
  eapply (reach_child _ 0 _ "audits" (Ref 1)); [reflexivity | by left |].
  by eapply reach_here.
Defined.

End FullResolution.

(** ** The paths of the occurrences *)

Module PathFacts.
Import Spec Paths CompFacts HeapFacts FrameFacts PropsFacts EvolveFacts ResolverFacts
  LogFacts PropsGetSet OccurrenceFacts.

#[local] Arguments resolveToken : simpl never.
#[local] Arguments replaceInObject : simpl never.






Section Walk.
Context `{Collaborators}.
Context (locale : string) (usages : gmap string (list StringUsage)).
Context (h0 : heap) (root : loc).
Context (Hwf : wf_keys h0) (Hclosed : closed h0).











End Walk.
End PathFacts.

(** ** The occurrences of the log *)

Module Occurrences.
Import Spec Paths LogStore CompFacts HeapFacts FrameFacts ResolverFacts LogFacts PropsGetSet
  PropsFacts EvolveFacts OccurrenceFacts PathFacts StoredLog.

#[local] Arguments resolveToken : simpl never.
#[local] Arguments replaceInObject : simpl never.

Section Claim.
Context `{Collaborators}.


End Claim.


End Occurrences.
